(** * shadowsocks: encrypted connection, address record and relay loops

    A shallow embedding of [shadowsocks/conn.go] and [shadowsocks/pipe.go].

    Conventions of the embedding:
    - a Go [byte] is a [Z] in [0, 256); conversions such as [byte(x)] and
      [uint16(x)] are written out as [x mod 2^w];
    - a Go [string] is the list of its bytes ([str] turns a literal into it);
    - a byte buffer is a [list byte]; a store into a buffer is an explicit
      update of the list ([store], [copy_at]);
    - a Go function with results [(x, err)] returns a pair whose second
      component is an [option error] ([None] is [nil]);
    - a call that may never return (a loop, a blocking read) returns an
      [option]: [None] means that no result is produced. *)

From Stdlib Require Import String Ascii.
From Stdlib Require Import ZArith List Lia Bool Arith.
Import ListNotations.

Open Scope Z_scope.

(* ================================================================= *)
(** ** Bytes, strings and buffers *)

Abbreviation byte := Z (only parsing).
Abbreviation gostring := (list Z) (only parsing).

Definition is_byte (b : Z) : Prop := 0 <= b < 256.

(** [byte(x)], [uint16(x)], [uint32(x)]: truncating conversions. *)
Definition to_byte (x : Z) : byte := x mod 256.
Definition to_uint16 (x : Z) : Z := x mod 65536.
Definition to_uint32 (x : Z) : Z := x mod 4294967296.

Definition str (s : string) : gostring :=
  map (fun a => Z.of_N (N_of_ascii a)) (list_ascii_of_string s).

(** [make([]byte, n)]: a zeroed buffer of [n] bytes. *)
Definition make (n : nat) : list byte := repeat 0 n.

(** [buf[lo:hi]] on a buffer whose capacity equals its length. *)
Definition slice (buf : list byte) (lo hi : nat) : list byte :=
  firstn (hi - lo) (skipn lo buf).

(** [buf[i] = v]; the caller checks the index (Go panics out of range). *)
Definition store (buf : list byte) (i : nat) (v : byte) : list byte :=
  firstn i buf ++ v :: skipn (S i) buf.

(** [copy(buf[off:], src)]: copies [min (len buf - off) (len src)] bytes. *)
Definition copy_at (buf : list byte) (off : nat) (src : list byte) : list byte :=
  let n := Nat.min (length buf - off) (length src) in
  firstn off buf ++ firstn n src ++ skipn (off + n) buf.

(** [binary.BigEndian]: *)
Definition BigEndian_PutUint16 (v : Z) : list byte :=
  [to_byte (Z.shiftr v 8); to_byte v].

Definition BigEndian_PutUint32 (v : Z) : list byte :=
  [to_byte (Z.shiftr v 24); to_byte (Z.shiftr v 16);
   to_byte (Z.shiftr v 8); to_byte v].

Definition BigEndian_Uint16 (b : list byte) : Z :=
  Z.lor (Z.shiftl (nth 0 b 0) 8) (nth 1 b 0).

(** [bytes.Equal]. *)
Fixpoint bytes_Equal (a b : list byte) : bool :=
  match a, b with
  | [], [] => true
  | x :: a', y :: b' => (x =? y) && bytes_Equal a' b'
  | _, _ => false
  end.

(* ================================================================= *)
(** ** Errors and results *)

Inductive error : Type :=
| EOF                       (* io.EOF *)
| ErrUnexpectedEOF          (* io.ErrUnexpectedEOF *)
| AddrError (why : string)  (* *net.AddrError *)
| NumError (why : string)   (* *strconv.NumError *)
| Errorf (msg : string)     (* fmt.Errorf *)
| ErrIO (code : nat)        (* any other error of the transport or cipher *).

Definition error_eqb (a b : error) : bool :=
  match a, b with
  | EOF, EOF => true
  | ErrUnexpectedEOF, ErrUnexpectedEOF => true
  | AddrError x, AddrError y => String.eqb x y
  | NumError x, NumError y => String.eqb x y
  | Errorf x, Errorf y => String.eqb x y
  | ErrIO x, ErrIO y => Nat.eqb x y
  | _, _ => false
  end.

Inductive result (A : Type) : Type :=
| Ok (a : A)
| Err (e : error).
Arguments Ok {A} a.
Arguments Err {A} e.

(* ================================================================= *)
(** ** The two standard-library functions [RawAddr] calls

    [net.SplitHostPort] and [strconv.Atoi] belong to Go's standard library;
    they are modelled here after its sources so that [RawAddr] can be run on
    literals.  The general statements about [RawAddr] only use what these
    functions returned. *)

Module GoStd.

Definition colon : byte := 58.
Definition lbrack : byte := 91.
Definition rbrack : byte := 93.

(** [strings.IndexByte]: position of the first [c], if any. *)
Fixpoint IndexByte (s : gostring) (c : byte) : option nat :=
  match s with
  | [] => None
  | x :: r => if x =? c then Some O
              else match IndexByte r c with
                   | Some i => Some (S i)
                   | None => None
                   end
  end.

(** [strings.LastIndexByte]: position of the last [c], if any. *)
Fixpoint LastIndexByte (s : gostring) (c : byte) : option nat :=
  match s with
  | [] => None
  | x :: r => match LastIndexByte r c with
              | Some i => Some (S i)
              | None => if x =? c then Some O else None
              end
  end.

Definition has (s : gostring) (c : byte) : bool :=
  match IndexByte s c with Some _ => true | None => false end.

Definition SplitHostPort (hostport : gostring)
  : result (gostring * gostring) :=
  let missingPort := Err (AddrError "missing port in address") in
  let tooManyColons := Err (AddrError "too many colons in address") in
  match LastIndexByte hostport colon with
  | None => missingPort
  | Some i =>
      let finish (host : gostring) (j k : nat) :=
        if has (skipn j hostport) lbrack
        then Err (AddrError "unexpected '[' in address")
        else if has (skipn k hostport) rbrack
        then Err (AddrError "unexpected ']' in address")
        else Ok (host, skipn (S i) hostport) in
      if nth 0 hostport 0 =? lbrack then
        match IndexByte hostport rbrack with
        | None => Err (AddrError "missing ']' in address")
        | Some e =>
            if Nat.eqb (S e) (length hostport) then missingPort
            else if Nat.eqb (S e) i
            then finish (slice hostport 1 e) 1%nat (S e)
            else if nth (S e) hostport 0 =? colon then tooManyColons
            else missingPort
        end
      else
        let host := firstn i hostport in
        if has host colon then tooManyColons
        else finish host O O
  end.

(** Decimal digits to a number, most significant first. *)
Fixpoint digits (acc : Z) (s : gostring) : option Z :=
  match s with
  | [] => Some acc
  | ch :: r =>
      if (48 <=? ch) && (ch <=? 57)
      then digits (acc * 10 + (ch - 48)) r
      else None
  end.

(** [strconv.Atoi] on a 64-bit platform: an optional sign, at least one
    decimal digit, and a value that fits an [int]. *)
Definition Atoi (s : gostring) : result Z :=
  let '(neg, ds) :=
    match s with
    | 45 :: r => (true, r)
    | 43 :: r => (false, r)
    | _ => (false, s)
    end in
  match ds with
  | [] => Err (NumError "invalid syntax")
  | _ =>
      match digits 0 ds with
      | None => Err (NumError "invalid syntax")
      | Some n =>
          let v := if neg then - n else n in
          if (- 9223372036854775808 <=? v) && (v <=? 9223372036854775807)
          then Ok v
          else Err (NumError "value out of range")
      end
  end.

End GoStd.

(* ================================================================= *)
(** ** [RawAddr]: the destination-address record *)

Definition OneTimeAuthMask : byte := 16.  (* 0x10 *)
Definition AddrMask : byte := 15.         (* 0xf *)

Definition RawAddr (addr : gostring) : result (list byte) :=
  match GoStd.SplitHostPort addr with
  | Err _ => Err (Errorf "shadowsocks: address error")
  | Ok (host, portStr) =>
      match GoStd.Atoi portStr with
      | Err _ => Err (Errorf "shadowsocks: invalid port")
      | Ok port =>
          let hostLen := length host in
          let l := (1 + 1 + hostLen + 2)%nat in
          let buf := make l in
          let buf := store buf 0 3 in
          let buf := store buf 1 (to_byte (Z.of_nat hostLen)) in
          let buf := copy_at buf 2 host in
          let buf := copy_at buf (2 + hostLen)
                             (BigEndian_PutUint16 (to_uint16 port)) in
          Ok buf
      end
  end.

(** The record the specification describes for a host and a port:
    [3, len(host), host bytes, port as 2-byte big-endian], the length and the
    two port bytes being bytes. *)
Definition addr_record (host : gostring) (port : Z) (rec : list byte) : Prop :=
  exists hi lo,
    rec = [3; Z.of_nat (length host)] ++ host ++ [hi; lo]
    /\ is_byte (Z.of_nat (length host))
    /\ is_byte hi /\ is_byte lo
    /\ port = 256 * hi + lo.

(** A host of 256 bytes, [aaa...a]. *)
Definition long_host : gostring := repeat 97 256.

(* ================================================================= *)
(** ** Calls that may not return *)

Definition bind {A B : Type} (m : option A) (f : A -> option B) : option B :=
  match m with
  | Some a => f a
  | None => None
  end.

Notation "x <- m ;; k" := (bind m (fun x => k))
  (at level 61, m at next level, right associativity).
Notation "' p <- m ;; k" := (bind m (fun x => match x with p => k end))
  (at level 61, p pattern, m at next level, right associativity).

(* ================================================================= *)
(** ** The interfaces of [io] and [net]

    [net.Conn] is the union of the four interfaces below; a function is
    stated over the ones it calls.  [Read t k] is [t.Read(p)] with
    [len(p) = k]: it returns the bytes stored in [p[0:n]] (so [n] is their
    number) and the error.  [Read_bound] is the part of the contract of
    [io.Reader] that says [n <= len(p)]. *)

Class Reader (T : Type) : Type := {
  Read : T -> nat -> option (T * (list byte * option error));
  Read_bound : forall t k t' bs e,
      Read t k = Some (t', (bs, e)) -> (length bs <= k)%nat
}.

Class Writer (T : Type) : Type := {
  Write : T -> list byte -> option (T * (Z * option error))
}.

Class Closer (T : Type) : Type := {
  Close : T -> T * option error
}.

Class Deadline (T : Type) : Type := {
  SetReadDeadline : T -> T
}.

(** The contract of [io.Writer]: [0 <= n <= len(p)], and a non-nil error
    whenever [n < len(p)]. *)
Definition io_Writer_contract (T : Type) {WR : Writer T} : Prop :=
  forall t p t' n e,
    Write t p = Some (t', (n, e)) ->
    0 <= n <= Z.of_nat (length p) /\ (e = None -> n = Z.of_nat (length p)).

(* ----------------------------------------------------------------- *)
(** *** [io.ReadFull]

    [io.ReadAtLeast(r, buf, min)] with [min = len(buf)]:
<<
    for n < min && err == nil { nn, err = r.Read(buf[n:]); n += nn }
    if n >= min { err = nil } else if n > 0 && err == EOF { err = ErrUnexpectedEOF }
>>
    [got] is [buf[0:n]]. *)

Fixpoint ReadAtLeast_loop {R : Type} {RD : Reader R}
  (fuel : nat) (r : R) (min : nat) (got : list byte)
  : option (R * (list byte * option error)) :=
  if (length got <? min)%nat then
    match fuel with
    | O => None
    | S fuel' =>
        ' (r', (bs, err)) <- Read r (min - length got) ;;
        match err with
        | None => ReadAtLeast_loop fuel' r' min (got ++ bs)
        | Some e => Some (r', (got ++ bs, Some e))
        end
    end
  else Some (r, (got, None)).

Definition is_EOF (e : option error) : bool :=
  match e with
  | Some EOF => true
  | _ => false
  end.

Definition ReadFull {R : Type} {RD : Reader R} (fuel : nat) (r : R) (len_buf : nat)
  : option (R * (list byte * option error)) :=
  ' (r', (got, err)) <- ReadAtLeast_loop fuel r len_buf [] ;;
  let n := length got in
  let err :=
    if (len_buf <=? n)%nat then None
    else if (0 <? n)%nat && is_EOF err then Some ErrUnexpectedEOF
    else err in
  Some (r', (got, err)).

(* ================================================================= *)
(** ** The buffer pool [leakyBuf] *)

(** Modelled from the spec: the type [LeakyBuf] and its methods [Get] and
    [Put] are declared in a file of the repository that is not part of the
    sources.  A bounded collection of byte buffers of one fixed capacity;
    [Get] returns an available buffer or allocates a fresh one if the pool is
    empty; [Put] returns a buffer to the pool, or discards it if the pool is
    full.  Buffers are not zeroed between reuses. *)
Record LeakyBuf : Type := {
  bufSize : nat;
  maxN : nat;
  freeList : list (list byte)
}.

Definition LeakyBuf_Get (lb : LeakyBuf) : list byte * LeakyBuf :=
  match freeList lb with
  | b :: rest =>
      (b, {| bufSize := bufSize lb; maxN := maxN lb; freeList := rest |})
  | [] => (make (bufSize lb), lb)
  end.

Definition LeakyBuf_Put (lb : LeakyBuf) (b : list byte) : LeakyBuf :=
  if (length (freeList lb) <? maxN lb)%nat
  then {| bufSize := bufSize lb; maxN := maxN lb;
          freeList := freeList lb ++ [b] |}
  else lb.

(* ================================================================= *)
(** ** The cipher session *)

Inductive DecOrEnc : Type := Decrypt | Encrypt.

(** [cipher.Stream] of Go's [crypto/cipher]: [XORKeyStream(dst, src)]
    transforms exactly [len(src)] bytes and advances the stream. *)
Class Stream (St : Type) : Type := {
  XORKeyStream : St -> list byte -> St * list byte;
  XORKeyStream_length : forall s src,
      length (snd (XORKeyStream s src)) = length src
}.

(** The primitives the package takes from [crypto/hmac], [crypto/sha1] and
    [crypto/rand], and the key of the handshake tag, which the specification
    leaves open. *)
Class Crypto : Type := {
  hmac_sha1 : list byte -> list byte -> list byte;
  hmac_sha1_length : forall k d, length (hmac_sha1 k d) = 20%nat;
  rand_Read : nat -> result (list byte);
  rand_Read_length : forall n iv, rand_Read n = Ok iv -> length iv = n;
  connectKey : list byte -> list byte -> list byte
}.

(** Modelled from the spec: the types [cipherInfo] and [Cipher] are declared
    in a file of the repository that is not part of the sources; the fields
    are the ones [conn.go] reads ([c.enc], [c.dec], [c.key], [c.iv], [c.ota],
    [c.info.ivLen]) and the session of the specification: key, IV,
    independent encrypt and decrypt stream states, and the OTA flag. *)
Record cipherInfo (St : Type) : Type := {
  keyLen : nat;
  ivLen : nat;
  newStream : list byte -> list byte -> DecOrEnc -> result St
}.
Arguments keyLen {St} c.
Arguments ivLen {St} c.
Arguments newStream {St} c key iv doe.

Record Cipher (St : Type) : Type := {
  enc : option St;
  dec : option St;
  key : list byte;
  info : cipherInfo St;
  ota : bool;
  iv : list byte
}.
Arguments enc {St} c.
Arguments dec {St} c.
Arguments key {St} c.
Arguments info {St} c.
Arguments ota {St} c.
Arguments iv {St} c.

Definition set_enc {St} (c : Cipher St) (s : option St) : Cipher St :=
  {| enc := s; dec := dec c; key := key c; info := info c; ota := ota c;
     iv := iv c |}.
Definition set_dec {St} (c : Cipher St) (s : option St) : Cipher St :=
  {| enc := enc c; dec := s; key := key c; info := info c; ota := ota c;
     iv := iv c |}.
Definition set_iv {St} (c : Cipher St) (v : list byte) : Cipher St :=
  {| enc := enc c; dec := dec c; key := key c; info := info c; ota := ota c;
     iv := v |}.

(** Modelled from the spec: [initEncrypt] is missing from the sources.  If
    the encrypt state is unset, generate a fresh IV of the cipher's required
    length, initialize the encrypt state from key and IV, return the IV; if
    already set, return no IV.  A failure leaves the session as it was. *)
Definition initEncrypt {St} {CR : Crypto} (c : Cipher St)
  : Cipher St * (option (list byte) * option error) :=
  match enc c with
  | Some _ => (c, (None, None))
  | None =>
      match rand_Read (ivLen (info c)) with
      | Err e => (c, (None, Some e))
      | Ok v =>
          match newStream (info c) (key c) v Encrypt with
          | Err e => (c, (None, Some e))
          | Ok s => (set_enc (set_iv c v) (Some s), (Some v, None))
          end
      end
  end.

(** Modelled from the spec: [initDecrypt] is missing from the sources.
    Given a peer-supplied IV, initialize the decrypt state from key and IV;
    fails if the transform cannot be constructed. *)
Definition initDecrypt {St} (c : Cipher St) (v : list byte)
  : Cipher St * option error :=
  match newStream (info c) (key c) v Decrypt with
  | Err e => (c, Some e)
  | Ok s => (set_dec c (Some s), None)
  end.

(** Modelled from the spec: [encrypt] and [decrypt] are missing from the
    sources.  They transform [len(src)] bytes with the respective stream
    state and advance it.  On a nil stream the Go call panics: no result. *)
Definition encrypt {St} {SC : Stream St} (c : Cipher St) (src : list byte)
  : option (Cipher St * list byte) :=
  match enc c with
  | None => None
  | Some s => let '(s', dst) := XORKeyStream s src in
              Some (set_enc c (Some s'), dst)
  end.

Definition decrypt {St} {SC : Stream St} (c : Cipher St) (src : list byte)
  : option (Cipher St * list byte) :=
  match dec c with
  | None => None
  | Some s => let '(s', dst) := XORKeyStream s src in
              Some (set_dec c (Some s'), dst)
  end.

(** Modelled from the spec: [HmacSha1], [otaReqChunkAuth] and
    [otaConnectAuth] are missing from the sources.  The tag is HMAC-SHA1
    truncated to 10 bytes; the key of a chunk's tag is the connection IV
    followed by the big-endian 32-bit chunk id; a chunk on the wire is
    [dataLen (2 bytes, big-endian) | tag (10 bytes) | data]; the handshake
    record gets its 10-byte tag appended after the port field. *)
Definition HmacSha1 {CR : Crypto} (k data : list byte) : list byte :=
  firstn 10 (hmac_sha1 k data).

Definition otaReqChunkAuth {CR : Crypto} (v : list byte) (chunkId : Z)
  (data : list byte) : list byte :=
  BigEndian_PutUint16 (to_uint16 (Z.of_nat (length data)))
    ++ HmacSha1 (v ++ BigEndian_PutUint32 chunkId) data
    ++ data.

Definition otaConnectAuth {CR : Crypto} (v k data : list byte) : list byte :=
  data ++ HmacSha1 (connectKey v k) data.

(* ================================================================= *)
(** ** [Conn]: the encrypted connection *)

(** [Conn] embeds a [net.Conn] and a [*Cipher].  The session is held by
    value here: where [DialWithRawAddr] reads [cipher.iv] after the
    connection was built, it reads the session of the connection, which in Go
    is the same object. *)
Record Conn (T St : Type) : Type := {
  conn : T;
  cipher : Cipher St;
  readBuf : list byte;
  writeBuf : list byte;
  chunkId : Z
}.
Arguments conn {T St} c.
Arguments cipher {T St} c.
Arguments readBuf {T St} c.
Arguments writeBuf {T St} c.
Arguments chunkId {T St} c.

Definition set_conn {T St} (c : Conn T St) (t : T) : Conn T St :=
  {| conn := t; cipher := cipher c; readBuf := readBuf c;
     writeBuf := writeBuf c; chunkId := chunkId c |}.
Definition set_cipher {T St} (c : Conn T St) (ci : Cipher St) : Conn T St :=
  {| conn := conn c; cipher := ci; readBuf := readBuf c;
     writeBuf := writeBuf c; chunkId := chunkId c |}.
Definition set_readBuf {T St} (c : Conn T St) (b : list byte) : Conn T St :=
  {| conn := conn c; cipher := cipher c; readBuf := b;
     writeBuf := writeBuf c; chunkId := chunkId c |}.
Definition set_writeBuf {T St} (c : Conn T St) (b : list byte) : Conn T St :=
  {| conn := conn c; cipher := cipher c; readBuf := readBuf c;
     writeBuf := b; chunkId := chunkId c |}.
Definition set_chunkId {T St} (c : Conn T St) (i : Z) : Conn T St :=
  {| conn := conn c; cipher := cipher c; readBuf := readBuf c;
     writeBuf := writeBuf c; chunkId := i |}.

Definition NewConn {T St} (lb : LeakyBuf) (c : T) (ci : Cipher St)
  : Conn T St * LeakyBuf :=
  let '(rb, lb) := LeakyBuf_Get lb in
  let '(wb, lb) := LeakyBuf_Get lb in
  ({| conn := c; cipher := ci; readBuf := rb; writeBuf := wb; chunkId := 0 |},
   lb).

Definition Conn_Close {T St} {CL : Closer T} (lb : LeakyBuf) (c : Conn T St)
  : Conn T St * LeakyBuf * option error :=
  let lb := LeakyBuf_Put lb (readBuf c) in
  let lb := LeakyBuf_Put lb (writeBuf c) in
  let '(t, err) := Close (conn c) in
  (set_conn c t, lb, err).

(** [GetIv] and [GetKey] return copies; the allocation and the copy are
    followed on the heap in module [Mem] below. *)
Definition Conn_GetIv {T St} (c : Conn T St) : list byte :=
  copy_at (make (length (iv (cipher c)))) 0 (iv (cipher c)).

Definition Conn_GetKey {T St} (c : Conn T St) : list byte :=
  copy_at (make (length (key (cipher c)))) 0 (key (cipher c)).

Definition Conn_IsOta {T St} (c : Conn T St) : bool := ota (cipher c).

Definition Conn_GetAndIncrChunkId {T St} (c : Conn T St) : Z * Conn T St :=
  (chunkId c, set_chunkId c (to_uint32 (chunkId c + 1))).

(** The scratch region of [Read] and [write]: the pooled buffer resliced to
    [n] bytes when it is large enough, a fresh buffer of [n] bytes if not. *)
Definition scratch (pooled : list byte) (n : nat) : list byte :=
  if (length pooled <? n)%nat then make n else firstn n pooled.

(** The pooled buffer after the scratch region has been filled with [data]:
    the region aliases it when it was resliced. *)
Definition scratch_back (pooled : list byte) (n : nat) (data : list byte)
  : list byte :=
  if (length pooled <? n)%nat then pooled else copy_at pooled 0 data.

Definition Conn_Read {T St} {RD : Reader T} {SC : Stream St}
  (fuel : nat) (c : Conn T St) (len_b : nat)
  : option (Conn T St * (list byte * option error)) :=
  ' (c, err) <-
    match dec (cipher c) with
    | Some _ => Some (c, None)
    | None =>
        let n_iv := ivLen (info (cipher c)) in
        ' (t, (got, err)) <- ReadFull fuel (conn c) n_iv ;;
        let ivb := copy_at (make n_iv) 0 got in
        let c := set_conn c t in
        match err with
        | Some e => Some (c, Some e)
        | None =>
            let '(ci, err) := initDecrypt (cipher c) ivb in
            let c := set_cipher c ci in
            match err with
            | Some e => Some (c, Some e)
            | None =>
                if (length (iv (cipher c)) =? 0)%nat
                then Some (set_cipher c (set_iv (cipher c) ivb), None)
                else Some (c, None)
            end
        end
    end ;;
  match err with
  | Some e => Some (c, ([], Some e))
  | None =>
      let cipherData := scratch (readBuf c) len_b in
      ' (t, (bs, err)) <- Read (conn c) (length cipherData) ;;
      let n := length bs in
      let cipherData := copy_at cipherData 0 bs in
      let c := set_readBuf (set_conn c t)
                 (scratch_back (readBuf c) len_b cipherData) in
      if (0 <? n)%nat then
        ' (ci, b) <- decrypt (cipher c) (firstn n cipherData) ;;
        Some (set_cipher c ci, (b, err))
      else Some (c, ([], err))
  end.

Definition Conn_write {T St} {WR : Writer T} {SC : Stream St} {CR : Crypto}
  (c : Conn T St) (b : list byte)
  : option (Conn T St * (Z * option error)) :=
  let '(ci, (ivo, err)) :=
    match enc (cipher c) with
    | None => initEncrypt (cipher c)
    | Some _ => (cipher c, (None, None))
    end in
  let c := set_cipher c ci in
  match err with
  | Some e => Some (c, (0, Some e))
  | None =>
      let len_iv := match ivo with Some v => length v | None => O end in
      let dataSize := (length b + len_iv)%nat in
      let cipherData := scratch (writeBuf c) dataSize in
      let cipherData :=
        match ivo with
        | Some v => copy_at cipherData 0 v
        | None => cipherData
        end in
      ' (ci, ct) <- encrypt (cipher c) b ;;
      let cipherData := copy_at cipherData len_iv ct in
      let c := set_writeBuf (set_cipher c ci)
                 (scratch_back (writeBuf c) dataSize cipherData) in
      ' (t, (n, err)) <- Write (conn c) cipherData ;;
      Some (set_conn c t, (n, err))
  end.

Definition Conn_Write {T St} {WR : Writer T} {SC : Stream St} {CR : Crypto}
  (c : Conn T St) (b : list byte)
  : option (Conn T St * (Z * option error)) :=
  let '(c, b) :=
    if ota (cipher c) then
      let '(chunkId, c) := Conn_GetAndIncrChunkId c in
      (c, otaReqChunkAuth (iv (cipher c)) chunkId b)
    else (c, b) in
  Conn_write c b.

(* ----------------------------------------------------------------- *)
(** *** [*Conn] implements [io.Reader], [io.Writer] and the deadline of
    the embedded connection *)

Lemma length_scratch (pooled : list byte) (n : nat) :
  length (scratch pooled n) = n.
Proof.
  unfold scratch. destruct (Nat.ltb_spec (length pooled) n).
  - apply repeat_length.
  - apply firstn_length_le. assumption.
Qed.

Lemma bind_Some {A B : Type} (m : option A) (f : A -> option B) (b : B) :
  bind m f = Some b -> exists a, m = Some a /\ f a = Some b.
Proof. destruct m as [a|]; simpl; [eauto | discriminate]. Qed.

Lemma Conn_Read_bound {T St} {RD : Reader T} {SC : Stream St}
  (fuel : nat) (c : Conn T St) (k : nat) c' bs e :
  Conn_Read fuel c k = Some (c', (bs, e)) -> (length bs <= k)%nat.
Proof.
  unfold Conn_Read. intros E.
  apply bind_Some in E. destruct E as [[c1 err1] [_ E]].
  destruct err1 as [e1|].
  - inversion E; subst. simpl. lia.
  - apply bind_Some in E. destruct E as [[t [rd err]] [Hrd E]].
    apply Read_bound in Hrd. rewrite length_scratch in Hrd.
    destruct (0 <? length rd)%nat.
    + apply bind_Some in E. destruct E as [[ci b] [Hd E]].
      inversion E; subst. clear E.
      unfold decrypt in Hd. cbn [cipher set_readBuf set_conn] in Hd.
      destruct (dec (cipher c1)) as [s|]; [|discriminate].
      pose proof (XORKeyStream_length s
                    (firstn (length rd) (copy_at (scratch (readBuf c1) k) 0 rd)))
        as Hl.
      destruct (XORKeyStream s _) as [s' dst]. inversion Hd; subst.
      simpl in Hl. rewrite Hl, length_firstn. lia.
    + inversion E; subst. simpl. lia.
Qed.

#[export] Instance Conn_Reader {T St} {RD : Reader T} {SC : Stream St} (fuel : nat)
  : Reader (Conn T St) :=
  {| Read := Conn_Read fuel; Read_bound := Conn_Read_bound fuel |}.

#[export] Instance Conn_Writer {T St} {WR : Writer T} {SC : Stream St} {CR : Crypto}
  : Writer (Conn T St) :=
  {| Write := Conn_Write |}.

#[export] Instance Conn_Deadline {T St} {DL : Deadline T} : Deadline (Conn T St) :=
  {| SetReadDeadline := fun c => set_conn c (SetReadDeadline (conn c)) |}.

(* ================================================================= *)
(** ** Dialling *)

(** [net.Dial("tcp", server)]. *)
Class Net (T : Type) : Type := {
  net_Dial : gostring -> result T
}.

(** How a call of [DialWithRawAddr] ends: with its two results, or with the
    run-time panic of an index out of range. *)
Inductive DialReturn (T St : Type) : Type :=
| Returned (c : option (Conn T St)) (err : option error)
| Panicked.
Arguments Returned {T St} c err.
Arguments Panicked {T St}.

(** The results of a call and what it leaves behind: the caller's [rawaddr]
    buffer, the pool, and the transport that was opened, if one was. *)
Record Dialled (T St : Type) : Type := {
  d_ret : DialReturn T St;
  d_rawaddr : list byte;
  d_pool : LeakyBuf;
  d_transport : option T
}.
Arguments d_ret {T St} d.
Arguments d_rawaddr {T St} d.
Arguments d_pool {T St} d.
Arguments d_transport {T St} d.

Definition DialWithRawAddr {T St}
  {NT : Net T} {WR : Writer T} {CL : Closer T} {SC : Stream St} {CR : Crypto}
  (lb : LeakyBuf) (rawaddr : list byte) (server : gostring)
  (ci : Cipher St) : option (Dialled T St) :=
  match net_Dial server with
  | Err e =>
      Some {| d_ret := Returned None (Some e); d_rawaddr := rawaddr;
              d_pool := lb; d_transport := None |}
  | Ok t =>
      let '(c, lb) := NewConn lb t ci in
      (* if cipher.ota { ... } : the steps that may leave the function *)
      ' (c, caller_buf, msg, stop) <-
        (if ota (cipher c) then
           let '(ci, (_, err)) :=
             match enc (cipher c) with
             | None => initEncrypt (cipher c)
             | Some _ => (cipher c, (None, None))
             end in
           let c := set_cipher c ci in
           match err with
           | Some e => Some (c, rawaddr, rawaddr, Some (Returned (Some c) (Some e)))
           | None =>
               (* conn.Write(cipher.iv): both results are dropped *)
               ' (t, _) <- Write (conn c) (iv (cipher c)) ;;
               let c := set_conn c t in
               match rawaddr with
               | [] => Some (c, rawaddr, rawaddr, Some Panicked)
               | b0 :: _ =>
                   let buf := store rawaddr 0 (Z.lor b0 OneTimeAuthMask) in
                   Some (c, buf,
                         otaConnectAuth (iv (cipher c)) (key (cipher c)) buf,
                         None)
               end
           end
         else Some (c, rawaddr, rawaddr, None)) ;;
      match stop with
      | Some r =>
          Some {| d_ret := r; d_rawaddr := caller_buf; d_pool := lb;
                  d_transport := Some (conn c) |}
      | None =>
          ' (c, (_, err)) <- Conn_write c msg ;;
          match err with
          | Some e =>
              let '(c, lb, _) := Conn_Close lb c in
              Some {| d_ret := Returned None (Some e);
                      d_rawaddr := caller_buf; d_pool := lb;
                      d_transport := Some (conn c) |}
          | None =>
              Some {| d_ret := Returned (Some c) None;
                      d_rawaddr := caller_buf; d_pool := lb;
                      d_transport := Some (conn c) |}
          end
      end
  end.

Definition Dial {T St}
  {NT : Net T} {WR : Writer T} {CL : Closer T} {SC : Stream St} {CR : Crypto}
  (lb : LeakyBuf) (addr server : gostring) (ci : Cipher St)
  : option (Dialled T St) :=
  match RawAddr addr with
  | Err e =>
      Some {| d_ret := Returned None (Some e); d_rawaddr := [];
              d_pool := lb; d_transport := None |}
  | Ok ra => DialWithRawAddr lb ra server ci
  end.

(* ================================================================= *)
(** ** The relay loops of [pipe.go] *)

(** [readTimeout] is a package variable; it is an argument here. *)
Definition SetReadTimeout {T} {DL : Deadline T} (readTimeout : Z) (c : T) : T :=
  if readTimeout =? 0 then c else SetReadDeadline c.

Inductive step (A : Type) : Type :=
| Continue (a : A)
| Break (a : A).
Arguments Continue {A} a.
Arguments Break {A} a.

(** One turn of the loop of [PipeThenClose] on [src], [dst] and the pooled
    buffer [buf]. *)
Definition PipeThenClose_iter {S D} {RD : Reader S} {DL : Deadline S} {WD : Writer D}
  (readTimeout : Z) (st : S * D * list byte)
  : option (step (S * D * list byte)) :=
  let '(src, dst, buf) := st in
  let src := SetReadTimeout readTimeout src in
  ' (src, (bs, err)) <- Read src (length buf) ;;
  let n := length bs in
  let buf := copy_at buf 0 bs in
  ' (dst, werr) <-
    (if (0 <? n)%nat then
       ' (dst, (_, werr)) <- Write dst (slice buf 0 n) ;;
       Some (dst, werr)
     else Some (dst, None)) ;;
  match werr with
  | Some _ => Some (Break (src, dst, buf))
  | None =>
      match err with
      | Some _ => Some (Break (src, dst, buf))
      | None => Some (Continue (src, dst, buf))
      end
  end.

Fixpoint PipeThenClose_loop {S D} {RD : Reader S} {DL : Deadline S} {WD : Writer D}
  (fuel : nat) (readTimeout : Z) (st : S * D * list byte)
  : option (S * D * list byte) :=
  match fuel with
  | O => None
  | S fuel' =>
      r <- PipeThenClose_iter readTimeout st ;;
      match r with
      | Continue st' => PipeThenClose_loop fuel' readTimeout st'
      | Break st' => Some st'
      end
  end.

(** [PipeThenClose]: the buffer is taken from the pool, the loop runs, and
    the deferred calls run last in, first out: [leakyBuf.Put(buf)], then
    [dst.Close()]. *)
Definition PipeThenClose {S D}
  {RD : Reader S} {DL : Deadline S} {WD : Writer D} {CD : Closer D}
  (fuel : nat) (readTimeout : Z) (lb : LeakyBuf) (src : S) (dst : D)
  : option (LeakyBuf * S * D) :=
  let '(buf, lb) := LeakyBuf_Get lb in
  ' (src, dst, buf) <- PipeThenClose_loop fuel readTimeout (src, dst, buf) ;;
  let lb := LeakyBuf_Put lb buf in
  let '(dst, _) := Close dst in
  Some (lb, src, dst).

Definition dataLenLen : nat := 2.
Definition hmacSha1Len : nat := 10.
Definition idxData0 : nat := dataLenLen + hmacSha1Len.

(** Why the loop of [PipeThenCloseOta] was left.  The arguments of
    [HmacMismatch] are the chunk id and the two tags that the code prints;
    [SliceBounds] is the run-time panic of a slice expression. *)
Inductive OtaExit : Type :=
| HeaderEOF
| HeaderError (n : nat) (e : error)
| DataEOF
| DataError (n : nat) (e : error)
| HmacMismatch (chunkId : Z) (expected actual : list byte)
| WriteError (e : error)
| SliceBounds.

Definition read_exit (eof : OtaExit) (other : nat -> error -> OtaExit)
  (n : nat) (e : error) : OtaExit :=
  if error_eqb e EOF then eof else other n e.

(** One turn of the loop of [PipeThenCloseOta].  [buf] is the pooled buffer
    with its contents: [expectedHmacSha1] is a slice of it and is read when
    the tags are compared, after the data has been stored. *)
Definition PipeThenCloseOta_iter {T St D}
  {RD : Reader T} {DL : Deadline T} {SC : Stream St} {CR : Crypto} {WD : Writer D}
  (fuel : nat) (readTimeout : Z) (st : Conn T St * D * list byte)
  : option (Conn T St * D * list byte * option OtaExit) :=
  let '(src, dst, buf) := st in
  let src := SetReadTimeout readTimeout src in
  if (length buf <? dataLenLen + hmacSha1Len)%nat
  then Some (src, dst, buf, Some SliceBounds)
  else
    ' (src, (got, err)) <-
      ReadFull (RD := Conn_Reader fuel) fuel src (dataLenLen + hmacSha1Len) ;;
    let buf := copy_at buf 0 got in
    match err with
    | Some e =>
        Some (src, dst, buf, Some (read_exit HeaderEOF HeaderError (length got) e))
    | None =>
        let dataLen := BigEndian_Uint16 (slice buf 0 dataLenLen) in
        (* idxData0+dataLen is computed in uint16 *)
        let hi := to_uint16 (Z.of_nat idxData0 + dataLen) in
        let fresh := Z.of_nat (length buf) <? hi in
        if negb fresh && (hi <? Z.of_nat idxData0)
        then Some (src, dst, buf, Some SliceBounds)
        else
          let dataBuf :=
            if fresh then make (Z.to_nat dataLen)
            else slice buf idxData0 (Z.to_nat hi) in
          ' (src, (got, err)) <-
            ReadFull (RD := Conn_Reader fuel) fuel src (length dataBuf) ;;
          let dataBuf := copy_at dataBuf 0 got in
          let buf := if fresh then buf else copy_at buf idxData0 dataBuf in
          match err with
          | Some e =>
              Some (src, dst, buf,
                    Some (read_exit DataEOF DataError (length got) e))
          | None =>
              let chunkIdBytes := make 4 in
              let '(chunkId, src) := Conn_GetAndIncrChunkId src in
              let chunkIdBytes :=
                copy_at chunkIdBytes 0 (BigEndian_PutUint32 chunkId) in
              let actualHmacSha1 :=
                HmacSha1 (Conn_GetIv src ++ chunkIdBytes) dataBuf in
              let expectedHmacSha1 := slice buf dataLenLen idxData0 in
              if negb (bytes_Equal expectedHmacSha1 actualHmacSha1)
              then Some (src, dst, buf,
                         Some (HmacMismatch chunkId expectedHmacSha1
                                 actualHmacSha1))
              else
                ' (dst, (_, werr)) <- Write dst dataBuf ;;
                match werr with
                | Some e => Some (src, dst, buf, Some (WriteError e))
                | None => Some (src, dst, buf, None)
                end
          end
    end.

Fixpoint PipeThenCloseOta_loop {T St D}
  {RD : Reader T} {DL : Deadline T} {SC : Stream St} {CR : Crypto} {WD : Writer D}
  (turns fuel : nat) (readTimeout : Z) (st : Conn T St * D * list byte)
  : option (Conn T St * D * list byte * OtaExit) :=
  match turns with
  | O => None
  | S turns' =>
      ' (st', ex) <- PipeThenCloseOta_iter fuel readTimeout st ;;
      match ex with
      | None => PipeThenCloseOta_loop turns' fuel readTimeout st'
      | Some x => Some (st', x)
      end
  end.

(** [PipeThenCloseOta]: as above, the deferred [leakyBuf.Put(buf)] and
    [dst.Close()] run when the loop is left, also by a panic. *)
Definition PipeThenCloseOta {T St D}
  {RD : Reader T} {DL : Deadline T} {SC : Stream St} {CR : Crypto} {WD : Writer D} {CD : Closer D}
  (fuel : nat) (readTimeout : Z) (lb : LeakyBuf)
  (src : Conn T St) (dst : D)
  : option (LeakyBuf * Conn T St * D * OtaExit) :=
  let '(buf, lb) := LeakyBuf_Get lb in
  ' (src, dst, buf, ex) <-
    PipeThenCloseOta_loop fuel fuel readTimeout (src, dst, buf) ;;
  let lb := LeakyBuf_Put lb buf in
  let '(dst, _) := Close dst in
  Some (lb, src, dst, ex).

(* ================================================================= *)
(** ** Observing the calls made on a connection *)

Inductive event : Type :=
| EvRead (k : nat) (bs : list byte) (err : option error)
| EvWrite (p : list byte) (n : Z) (err : option error)
| EvClose
| EvSetReadDeadline.

(** A connection together with the calls made on it so far, oldest first.
    Whatever [T] does, [Logged T] does the same and records the call. *)
Record Logged (T : Type) : Type := {
  inner : T;
  calls : list event
}.
Arguments inner {T} l.
Arguments calls {T} l.

Definition Logged_Read {T} {RD : Reader T} (l : Logged T) (k : nat)
  : option (Logged T * (list byte * option error)) :=
  ' (t, (bs, e)) <- Read (inner l) k ;;
  Some ({| inner := t; calls := calls l ++ [EvRead k bs e] |}, (bs, e)).

Lemma Logged_Read_bound {T} {RD : Reader T} (l : Logged T) (k : nat) l' bs e :
  Logged_Read l k = Some (l', (bs, e)) -> (length bs <= k)%nat.
Proof.
  unfold Logged_Read. intros E.
  apply bind_Some in E. destruct E as [[t [bs0 e0]] [Hr E]].
  inversion E; subst. eapply Read_bound; eassumption.
Qed.

#[export] Instance Logged_Reader {T} {RD : Reader T} : Reader (Logged T) :=
  {| Read := Logged_Read; Read_bound := Logged_Read_bound |}.

#[export] Instance Logged_Writer {T} {WR : Writer T} : Writer (Logged T) :=
  {| Write := fun l p =>
       ' (t, (n, e)) <- Write (inner l) p ;;
       Some ({| inner := t; calls := calls l ++ [EvWrite p n e] |}, (n, e)) |}.

#[export] Instance Logged_Closer {T} {CL : Closer T} : Closer (Logged T) :=
  {| Close := fun l =>
       let '(t, e) := Close (inner l) in
       ({| inner := t; calls := calls l ++ [EvClose] |}, e) |}.

#[export] Instance Logged_Deadline {T} {DL : Deadline T} : Deadline (Logged T) :=
  {| SetReadDeadline := fun l =>
       {| inner := SetReadDeadline (inner l);
          calls := calls l ++ [EvSetReadDeadline] |} |}.

(** The payloads of the [Write] calls of a log, and the non-empty results
    of its [Read] calls, in order. *)
Fixpoint written (evs : list event) : list (list byte) :=
  match evs with
  | [] => []
  | EvWrite p _ _ :: r => p :: written r
  | _ :: r => written r
  end.

Fixpoint read_nonempty (evs : list event) : list (list byte) :=
  match evs with
  | [] => []
  | EvRead _ (b :: bs) _ :: r => (b :: bs) :: read_nonempty r
  | _ :: r => read_nonempty r
  end.

Fixpoint closes (evs : list event) : nat :=
  match evs with
  | [] => O
  | EvClose :: r => S (closes r)
  | _ :: r => closes r
  end.

(* ================================================================= *)
(** ** A scripted transport

    A byte stream whose behaviour is written down in advance: [incoming]
    are the segments that arrive, each with the error that accompanies its
    last byte, if any, and after them the stream is at end of file;
    [wresults] are the errors of the coming [Write] calls ([None]: the
    call succeeds; when the list is used up every call succeeds). *)
Record Wire : Type := {
  incoming : list (list byte * option error);
  wresults : list (option error);
  sent : list (list byte);
  closed : bool;
  deadlines : nat
}.

Definition Wire_Read (w : Wire) (k : nat)
  : option (Wire * (list byte * option error)) :=
  match incoming w with
  | [] => Some (w, ([], Some EOF))
  | (bs, e) :: rest =>
      if (length bs <=? k)%nat then
        Some ({| incoming := rest; wresults := wresults w; sent := sent w;
                 closed := closed w; deadlines := deadlines w |}, (bs, e))
      else
        Some ({| incoming := (skipn k bs, e) :: rest;
                 wresults := wresults w; sent := sent w;
                 closed := closed w; deadlines := deadlines w |},
              (firstn k bs, None))
  end.

Lemma Wire_Read_bound (w : Wire) (k : nat) w' bs e :
  Wire_Read w k = Some (w', (bs, e)) -> (length bs <= k)%nat.
Proof.
  unfold Wire_Read. destruct (incoming w) as [|[seg se] rest].
  - intros E; inversion E; subst. simpl. lia.
  - destruct (Nat.leb_spec (length seg) k); intros E; inversion E; subst.
    + assumption.
    + rewrite length_firstn. lia.
Qed.

Definition Wire_Write (w : Wire) (p : list byte)
  : option (Wire * (Z * option error)) :=
  match wresults w with
  | Some e :: rest =>
      Some ({| incoming := incoming w; wresults := rest; sent := sent w;
               closed := closed w; deadlines := deadlines w |}, (0, Some e))
  | None :: rest =>
      Some ({| incoming := incoming w; wresults := rest;
               sent := sent w ++ [p];
               closed := closed w; deadlines := deadlines w |},
            (Z.of_nat (length p), None))
  | [] =>
      Some ({| incoming := incoming w; wresults := [];
               sent := sent w ++ [p];
               closed := closed w; deadlines := deadlines w |},
            (Z.of_nat (length p), None))
  end.

#[export] Instance Wire_Reader : Reader Wire :=
  {| Read := Wire_Read; Read_bound := Wire_Read_bound |}.

#[export] Instance Wire_Writer : Writer Wire :=
  {| Write := Wire_Write |}.

#[export] Instance Wire_Closer : Closer Wire :=
  {| Close := fun w =>
       ({| incoming := incoming w; wresults := wresults w; sent := sent w;
           closed := true; deadlines := deadlines w |}, None) |}.

#[export] Instance Wire_Deadline : Deadline Wire :=
  {| SetReadDeadline := fun w =>
       {| incoming := incoming w; wresults := wresults w; sent := sent w;
          closed := closed w; deadlines := S (deadlines w) |} |}.

Definition wire (segs : list (list byte * option error)) : Wire :=
  {| incoming := segs; wresults := []; sent := []; closed := false;
     deadlines := O |}.

(** A stream cipher to run the code on: the key stream counts up from the
    first byte of the IV. *)
Fixpoint count_xor (s : Z) (src : list byte) : Z * list byte :=
  match src with
  | [] => (s, [])
  | b :: r =>
      let '(s', out) := count_xor (to_byte (s + 1)) r in
      (s', Z.lxor b s :: out)
  end.

Lemma count_xor_length (s : Z) (src : list byte) :
  length (snd (count_xor s src)) = length src.
Proof.
  revert s. induction src as [|b r IH]; intros s; simpl.
  - reflexivity.
  - specialize (IH (to_byte (s + 1))).
    destruct (count_xor (to_byte (s + 1)) r). simpl in *. congruence.
Qed.

#[export] Instance Counter_Stream : Stream Z :=
  {| XORKeyStream := count_xor; XORKeyStream_length := count_xor_length |}.

Definition counter_info (n_iv : nat) : cipherInfo Z :=
  {| keyLen := 16; ivLen := n_iv;
     newStream := fun _ v _ => Ok (nth 0 v 0) |}.

(** A session as [NewCipher] leaves it: no stream state and no IV yet. *)
Definition counter_cipher (n_iv : nat) (with_ota : bool) : Cipher Z :=
  {| enc := None; dec := None; key := repeat 1 16;
     info := counter_info n_iv; ota := with_ota; iv := [] |}.

(** Stand-ins for the primitives: a 20-byte digest that depends on key and
    data, and a source of random bytes that works or fails. *)
Definition toy_digest (k d : list byte) : list byte :=
  repeat (to_byte (fold_right Z.add 0 k + 3 * fold_right Z.add 0 d)) 20.

Definition toy_rand (fails : bool) (n : nat) : result (list byte) :=
  if fails then Err (ErrIO 1) else Ok (repeat 7 n).

Lemma toy_rand_length (fails : bool) (n : nat) (v : list byte) :
  toy_rand fails n = Ok v -> length v = n.
Proof.
  unfold toy_rand. destruct fails; intros E; inversion E.
  apply repeat_length.
Qed.

Definition toy_crypto (rand_fails : bool) : Crypto :=
  {| hmac_sha1 := toy_digest;
     hmac_sha1_length := fun k d => repeat_length _ 20;
     rand_Read := toy_rand rand_fails;
     rand_Read_length := toy_rand_length rand_fails;
     connectKey := fun v k => v ++ k |}.

Definition dials (r : result Wire) : Net Wire :=
  {| net_Dial := fun _ => r |}.

Definition pool0 : LeakyBuf :=
  {| bufSize := 4108; maxN := 2048; freeList := [] |}.

(* ================================================================= *)
(** ** Slices on the heap: [GetIv], [GetKey] and [append]

    [Conn_GetIv] above returns a value.  Here the same code is followed on
    a heap of byte arrays, where a slice is a window on an array and two
    slices may share one. *)

Module Mem.

Record slice_t : Type := {
  arr : nat;   (* the backing array *)
  off : nat;   (* where the slice starts in it *)
  len : nat;
  cap : nat
}.

(** The heap: the arrays allocated so far; an array is named by its
    position. *)
Definition heap : Type := list (list byte).

Definition array (h : heap) (a : nat) : list byte := nth a h [].

Definition set_array (h : heap) (a : nat) (bs : list byte) : heap :=
  firstn a h ++ bs :: skipn (S a) h.

Definition contents (h : heap) (s : slice_t) : list byte :=
  slice (array h (arr s)) (off s) (off s + len s).

Definition valid (h : heap) (s : slice_t) : Prop :=
  (arr s < length h)%nat
  /\ (len s <= cap s)%nat
  /\ (off s + cap s <= length (array h (arr s)))%nat.

(** [make([]byte, n)]: a new array, and the slice of all of it. *)
Definition make_slice (h : heap) (n : nat) : slice_t * heap :=
  ({| arr := length h; off := 0; len := n; cap := n |}, h ++ [make n]).

(** [copy(dst, src)]. *)
Definition copy (h : heap) (dst src : slice_t) : heap :=
  let n := Nat.min (len dst) (len src) in
  set_array h (arr dst)
    (copy_at (array h (arr dst)) (off dst) (firstn n (contents h src))).

(** [s[i] = v], for [i < len(s)]. *)
Definition set_index (h : heap) (s : slice_t) (i : nat) (v : byte) : heap :=
  set_array h (arr s) (store (array h (arr s)) (off s + i) v).

(** [append(s, bs...)]: in place when the capacity allows it, in a new
    array otherwise (of capacity [grow] at least the length needed). *)
Definition append (grow : nat -> nat) (h : heap) (s : slice_t)
  (bs : list byte) : slice_t * heap :=
  let n := (len s + length bs)%nat in
  if (n <=? cap s)%nat then
    ({| arr := arr s; off := off s; len := n; cap := cap s |},
     set_array h (arr s) (copy_at (array h (arr s)) (off s + len s) bs))
  else
    let c := Nat.max n (grow n) in
    ({| arr := length h; off := 0; len := n; cap := c |},
     h ++ [contents h s ++ bs ++ make (c - n)]).

(** The two slices of a session that [GetIv] and [GetKey] read. *)
Record session : Type := {
  iv_s : slice_t;
  key_s : slice_t
}.

(** [iv = make([]byte, len(c.iv)); copy(iv, c.iv); return]. *)
Definition GetIv (h : heap) (c : session) : slice_t * heap :=
  let '(v, h) := make_slice h (len (iv_s c)) in
  (v, copy h v (iv_s c)).

Definition GetKey (h : heap) (c : session) : slice_t * heap :=
  let '(k, h) := make_slice h (len (key_s c)) in
  (k, copy h k (key_s c)).

(** [append(src.GetIv(), chunkIdBytes...)], the key of a chunk's tag in
    [PipeThenCloseOta]. *)
Definition tag_key (grow : nat -> nat) (h : heap) (c : session)
  (chunkIdBytes : slice_t) : slice_t * heap :=
  let '(v, h) := GetIv h c in
  append grow h v (contents h chunkIdBytes).

End Mem.

(* ================================================================= *)
(** ** Predicates used in the statements *)

(** The read of [Conn.Read] after the IV handshake, on the transport [t]
    with the decrypt stream [s]: one [Read] of at most [k] bytes whose error
    is passed on; the bytes read, if any, are decrypted with [s], which
    advances. *)
Definition reads_payload {T St} {RD : Reader T} {SC : Stream St}
  (s : St) (t : T) (k : nat)
  (c' : Conn T St) (b : list byte) (err : option error) : Prop :=
  exists t' bs,
    Read t k = Some (t', (bs, err))
    /\ conn c' = t'
    /\ match bs with
       | [] => b = [] /\ dec (cipher c') = Some s
       | _ => b = snd (XORKeyStream s bs)
              /\ dec (cipher c') = Some (fst (XORKeyStream s bs))
       end.

(* ================================================================= *)
(** ** Connections to run the code on *)

Definition small_pool : LeakyBuf :=
  {| bufSize := 32; maxN := 4; freeList := [] |}.

(** A fresh connection whose peer sends a 4-byte IV in two segments and
    then three bytes of payload. *)
Definition reader_conn : Conn Wire Z :=
  fst (NewConn small_pool
         (wire [([7; 7], None); ([7; 7], None); ([1; 2; 3], None)])
         (counter_cipher 4 false)).

(** A fresh connection for writing, without and with OTA. *)
Definition writer_conn (with_ota : bool) : Conn Wire Z :=
  fst (NewConn small_pool (wire []) (counter_cipher 4 with_ota)).

(** The record of host ["a"] and port 80, as [RawAddr] builds it. *)
Definition a80 : list byte := [3; 1; 97; 0; 80].

(** Dialling a server that accepts the connection, with the scripted
    results [ws] of the coming [Write] calls. *)
Definition dial_a80 (ws : list (option error)) (rand_fails with_ota : bool)
  : option (Dialled Wire Z) :=
  DialWithRawAddr
    (NT := dials (Ok {| incoming := []; wresults := ws; sent := [];
                        closed := false; deadlines := O |}))
    (CR := toy_crypto rand_fails)
    small_pool a80 (str "server:8388") (counter_cipher 4 with_ota).

(** A plain relay to run: [src] delivers three bytes, then two more
    together with an error. *)
Definition relay_src : Logged Wire :=
  {| inner := wire [([1; 2; 3], None); ([4; 5], Some (ErrIO 9))];
     calls := [] |}.

Definition relay_dst : Logged Wire := {| inner := wire []; calls := [] |}.

(** The exits of a turn of [PipeThenCloseOta] in which no chunk reached the
    comparison of the tags. *)
Definition no_chunk (ex : option OtaExit) : Prop :=
  match ex with
  | Some HeaderEOF | Some (HeaderError _ _)
  | Some DataEOF | Some (DataError _ _)
  | Some SliceBounds => True
  | _ => False
  end.

(** The state of the OTA relay after [n] turns that all went on to the next
    one, that is after [n] chunks were verified and forwarded. *)
Fixpoint PipeThenCloseOta_turns {T St D}
  {RD : Reader T} {DL : Deadline T} {SC : Stream St} {CR : Crypto}
  {WD : Writer D}
  (n fuel : nat) (readTimeout : Z) (st : Conn T St * D * list byte)
  : option (Conn T St * D * list byte) :=
  match n with
  | O => Some st
  | S n' =>
      ' (st', ex) <- PipeThenCloseOta_iter fuel readTimeout st ;;
      match ex with
      | None => PipeThenCloseOta_turns n' fuel readTimeout st'
      | Some _ => None
      end
  end.

(** An OTA sender as [DialWithRawAddr] leaves it: the encrypt state is
    made and the IV went out on its own.  [ota_sent] is that IV followed by
    what two [Write]s put on the wire, the chunks [1, 2, 3] and [4, 5]. *)
Definition ota_writer : Conn Wire Z :=
  fst (NewConn small_pool (wire [])
         (fst (initEncrypt (CR := toy_crypto false) (counter_cipher 4 true)))).

Definition ota_sent : list (list byte) :=
  match Conn_Write (CR := toy_crypto false) ota_writer [1; 2; 3] with
  | Some (c, _) =>
      match Conn_Write (CR := toy_crypto false) c [4; 5] with
      | Some (c, _) => iv (cipher c) :: sent (conn c)
      | None => []
      end
  | None => []
  end.

(** The last byte of the last segment, with one bit flipped. *)
Definition tamper (segs : list (list byte)) : list (list byte) :=
  removelast segs
    ++ [removelast (last segs []) ++ [Z.lxor (last (last segs []) 0) 1]].

(** The receiving side: a fresh OTA connection on which [segs] arrive, and
    the plain connection the relay forwards to. *)
Definition ota_src (segs : list (list byte)) : Conn Wire Z :=
  fst (NewConn small_pool (wire (map (fun s => (s, None)) segs))
         (counter_cipher 4 true)).

Definition ota_relay (segs : list (list byte))
  : option (LeakyBuf * Conn Wire Z * Logged Wire * OtaExit) :=
  PipeThenCloseOta (CR := toy_crypto false) 8 0 small_pool
    (ota_src segs) relay_dst.

(** [res] is a fresh copy of the slice [src] of the heap [h]: a slice of a
    new array with the contents of [src], such that no slice of [h] changes
    when it is made, when a byte of it is overwritten, or when it is
    appended to; and appending [bs] gives the contents of [src] followed by
    [bs]. *)
Definition fresh_copy (grow : nat -> nat) (h : Mem.heap) (src : Mem.slice_t)
  (res : Mem.slice_t * Mem.heap) : Prop :=
  let '(v, h1) := res in
  Mem.arr v = length h
  /\ Mem.contents h1 v = Mem.contents h src
  /\ (forall s, Mem.valid h s -> Mem.contents h1 s = Mem.contents h s)
  /\ (forall i x s,
         (i < Mem.len v)%nat -> Mem.valid h s ->
         Mem.contents (Mem.set_index h1 v i x) s = Mem.contents h s)
  /\ (forall bs s,
         Mem.valid h s ->
         Mem.contents (snd (Mem.append grow h1 v bs)) s = Mem.contents h s)
  /\ (forall bs,
         Mem.contents (snd (Mem.append grow h1 v bs))
           (fst (Mem.append grow h1 v bs))
         = Mem.contents h src ++ bs).

(** A heap with a session on it: array 0 holds the IV in a window of a
    larger array, array 1 the key. *)
Definition heap0 : Mem.heap := [[9; 7; 7; 7; 7; 9; 9]; [1; 1; 1]].

Definition session0 : Mem.session :=
  {| Mem.iv_s := {| Mem.arr := 0; Mem.off := 1; Mem.len := 4; Mem.cap := 6 |};
     Mem.key_s := {| Mem.arr := 1; Mem.off := 0; Mem.len := 3; Mem.cap := 3 |} |}.

(* ================================================================= *)
(** ** What the two ends of a connection assume of the cipher

    A stream cipher transforms byte by byte: transforming [a ++ b] is
    transforming [a] and then [b], and a call without bytes leaves the
    stream where it was.  The decrypt stream [sd] undoes the encrypt stream
    [se] when it gives back whatever [se] transformed. *)
Definition streaming (St : Type) {SC : Stream St} : Prop :=
  (forall s : St, XORKeyStream s [] = (s, []))
  /\ (forall (s : St) (a b : list byte),
         XORKeyStream s (a ++ b)
         = (fst (XORKeyStream (fst (XORKeyStream s a)) b),
            snd (XORKeyStream s a)
              ++ snd (XORKeyStream (fst (XORKeyStream s a)) b))).

Definition inverse_streams {St} {SC : Stream St} (se sd : St) : Prop :=
  forall a : list byte,
    snd (XORKeyStream sd (snd (XORKeyStream se a))) = a.

(** A client that hands the payloads [ps] to [Write] one after another and
    stops at the first error. *)
Fixpoint Write_seq {D} {WD : Writer D} (d : D) (ps : list (list byte))
  : option (D * option error) :=
  match ps with
  | [] => Some (d, None)
  | p :: rest =>
      ' (d, (_, err)) <- Write d p ;;
      match err with
      | Some e => Some (d, Some e)
      | None => Write_seq d rest
      end
  end.

(** A fresh connection for writing whose transport is observed, and the
    fresh connection of the peer on which [segs] arrive. *)
Definition logged_writer (with_ota : bool) : Conn (Logged Wire) Z :=
  fst (NewConn small_pool relay_dst (counter_cipher 4 with_ota)).

Definition peer_conn (with_ota : bool) (segs : list (list byte))
  : Conn Wire Z :=
  fst (NewConn small_pool (wire (map (fun s => (s, None)) segs))
         (counter_cipher 4 with_ota)).

(** The two connections after the first message [1, 2, 3] went from one
    to the other; the second message is on its way. *)
Definition logged_writer_2 : Conn (Logged Wire) Z :=
  match Conn_Write (CR := toy_crypto false) (logged_writer false) [1; 2; 3] with
  | Some (c, _) => c
  | None => logged_writer false
  end.

Definition peer_conn_2 : Conn Wire Z :=
  match Conn_Read 1 (peer_conn false [[7; 7; 7; 7; 6; 10; 10]; [14; 14]]) 3 with
  | Some (c, _) => c
  | None => peer_conn false []
  end.

(** An OTA sender whose transport is observed, as [DialWithRawAddr] leaves
    it (the encrypt stream made, the IV [7, 7, 7, 7] sent on its own), and
    the connection of the relay that has read this IV and on which [segs]
    arrive. *)
Definition ota_logged_writer : Conn (Logged Wire) Z :=
  fst (NewConn small_pool relay_dst
         (fst (initEncrypt (CR := toy_crypto false) (counter_cipher 4 true)))).

Definition ota_peer (segs : list (list byte)) : Conn Wire Z :=
  fst (NewConn small_pool (wire (map (fun s => (s, None)) segs))
         (set_dec (set_iv (counter_cipher 4 true) [7; 7; 7; 7]) (Some 7))).

(** What [ota_logged_writer] hands to its transport for the payloads
    [1, 2, 3] and [4, 5]. *)
Definition ota_chunks : list (list byte) :=
  [[7; 11; 39; 36; 37; 34; 35; 32; 33; 62; 63; 60; 18; 22; 22];
   [22; 21; 32; 33; 34; 35; 36; 37; 38; 39; 24; 25; 38; 38]].

(** The same bytes as the network may deliver them: cut elsewhere, with a
    segment that carries nothing. *)
Definition ota_chunks_cut : list (list byte) :=
  [[7; 11; 39; 36; 37; 34; 35]; [];
   [32; 33; 62; 63; 60; 18; 22; 22; 22; 21; 32];
   [33; 34; 35; 36; 37; 38; 39; 24; 25; 38; 38]].

(** The calls of one turn of the plain relay on [src]: the deadline, if a
    timeout is configured, and one [Read] for [k] bytes with its result. *)
Definition src_turn (readTimeout : Z) (k : nat)
  (r : list byte * option error) : list event :=
  (if readTimeout =? 0 then [] else [EvSetReadDeadline])
    ++ [EvRead k (fst r) (snd r)].

Definition is_ok_write (ev : event) : Prop :=
  match ev with
  | EvWrite _ _ None => True
  | _ => False
  end.

(** The connection [l] has seen, since its log was [base], only calls that
    neither write nor close: reads and deadlines. *)
Definition only_reads {T} (base : list event) (l : Logged T) : Prop :=
  exists es, calls l = base ++ es /\ written es = [] /\ closes es = O.

(** A relay connection whose first chunk header declares 65535 bytes of
    data. *)
Definition long_chunk_peer : Conn Wire Z :=
  ota_peer [[248; 247; 9; 10; 11; 12; 13; 14; 15; 16; 17; 18]].

(** Dialling a server whose transport is observed. *)
Definition logged_dials (r : result (Logged Wire)) : Net (Logged Wire) :=
  {| net_Dial := fun _ => r |}.

(** What the server is to find in the first message of a client that
    dialled for the address record [rec] with the session IV [v] and key
    [k]: the record; under OTA the record with the flag [0x10] set in its
    first byte, followed by the tag of the handshake. *)
Definition handshake_msg {CR : Crypto} (with_ota : bool) (v k rec : list byte)
  : list byte :=
  if with_ota
  then otaConnectAuth v k (Z.lor (nth 0 rec 0) OneTimeAuthMask :: tl rec)
  else rec.

(** What [Dial], with OTA, for ["a:80"], hands to the transport. *)
Definition a80_handshake : list (list byte) :=
  [[7; 7; 7; 7];
   [20; 9; 104; 10; 91; 119; 118; 117; 116; 107; 106; 105; 104; 111; 110]].

Definition is_write (ev : event) : Prop :=
  match ev with
  | EvWrite _ _ _ => True
  | _ => False
  end.

(** An observed transport on which the first [Write] fails. *)
Definition failing_transport : Logged Wire :=
  {| inner := {| incoming := []; wresults := [Some (ErrIO 2)]; sent := [];
                 closed := false; deadlines := O |};
     calls := [] |}.

(** The bytes that are still to arrive on a scripted transport, whatever
    the segments they come in; and a transport on which no segment comes
    with an error. *)
Definition pending (w : Wire) : list byte := concat (map fst (incoming w)).

Definition clean (w : Wire) : Prop :=
  Forall (fun s => snd s = None) (incoming w).

(** What a fresh OTA connection, whose encrypt stream is not yet made,
    hands to the transport for [Write] of [1, 2, 3]. *)
Definition ota_first_write : list byte :=
  [7; 7; 7; 7; 7; 11; 27; 24; 25; 30; 31; 28; 29; 2; 3; 0; 18; 22; 22].
(* ================================================================= *)
(** * Properties *)

(* ----------------------------------------------------------------- *)
(** *** Buffer lemmas *)

Lemma length_make n : length (make n) = n.
Proof. apply repeat_length. Qed.

Lemma copy_at_app (pre mid post src : list byte) (off : nat) :
  length pre = off -> length mid = length src ->
  copy_at (pre ++ mid ++ post) off src = pre ++ src ++ post.
Proof.
  intros <- Hm. unfold copy_at.
  rewrite !length_app.
  replace (Nat.min (length pre + (length mid + length post) - length pre)
                   (length src)) with (length src) by lia.
  rewrite firstn_app, firstn_all, Nat.sub_diag, app_nil_r, firstn_all.
  rewrite skipn_app.
  rewrite (skipn_all2 pre) by lia.
  replace (length pre + length src - length pre)%nat with (length mid) by lia.
  rewrite skipn_app, skipn_all, Nat.sub_diag. reflexivity.
Qed.

Lemma RawAddr_buffer (host : gostring) (p : list byte) :
  length p = 2%nat ->
  copy_at
    (copy_at
       (store (store (make (1 + 1 + length host + 2)) 0 3)
              1 (to_byte (Z.of_nat (length host))))
       2 host)
    (2 + length host) p
  = [3; to_byte (Z.of_nat (length host))] ++ host ++ p.
Proof.
  intros Hp. unfold make.
  replace (1 + 1 + length host + 2)%nat
    with (S (S (length host + 2)))%nat by lia.
  cbn [repeat].
  unfold store. cbn [firstn skipn app].
  rewrite repeat_app.
  change (3 :: to_byte (Z.of_nat (length host))
            :: repeat 0 (length host) ++ repeat 0 2)
    with ([3; to_byte (Z.of_nat (length host))]
            ++ repeat 0 (length host) ++ repeat 0 2).
  rewrite (copy_at_app [3; to_byte (Z.of_nat (length host))]
             (repeat 0 (length host)) (repeat 0 2) host 2 eq_refl
             (repeat_length _ _)).
  rewrite app_assoc.
  rewrite <- (app_nil_r (repeat 0 2)).
  rewrite (copy_at_app _ (repeat 0 2) [] p).
  - rewrite app_nil_r, <- app_assoc. reflexivity.
  - rewrite length_app. reflexivity.
  - symmetry; exact Hp.
Qed.

(** What [RawAddr] returns, whatever the host length and the port. *)
Lemma RawAddr_eq (addr host portStr : gostring) (port : Z) :
  GoStd.SplitHostPort addr = Ok (host, portStr) ->
  GoStd.Atoi portStr = Ok port ->
  RawAddr addr
  = Ok ([3; to_byte (Z.of_nat (length host))] ++ host
          ++ BigEndian_PutUint16 (to_uint16 port)).
Proof.
  intros Hs Ha. unfold RawAddr. rewrite Hs, Ha.
  f_equal. apply RawAddr_buffer. reflexivity.
Qed.

Lemma PutUint16_in_range (port : Z) :
  0 <= port <= 65535 ->
  BigEndian_PutUint16 (to_uint16 port) = [port / 256; port mod 256].
Proof.
  intros Hp. unfold BigEndian_PutUint16, to_uint16, to_byte.
  rewrite (Z.mod_small port 65536) by lia.
  rewrite Z.shiftr_div_pow2 by lia. change (2 ^ 8) with 256.
  rewrite (Z.mod_small (port / 256)).
  - reflexivity.
  - split; [apply Z.div_pos; lia | apply Z.div_lt_upper_bound; lia].
Qed.

(* ================================================================= *)
(** ** The address record *)

(** C3, as amended.  For an input that splits into [host] and a port string
    that parses as the integer [port], with [host] of at most 255 bytes and
    [port] between 0 and 65535, [RawAddr] returns
    [3, len(host), host bytes, port as 2-byte big-endian]; for
    ["example.com:443"] this is [03 0B "example.com" 01 BB]. *)
Theorem RawAddr_record :
  (forall (addr host portStr : gostring) (port : Z),
      GoStd.SplitHostPort addr = Ok (host, portStr) ->
      GoStd.Atoi portStr = Ok port ->
      (length host <= 255)%nat ->
      0 <= port <= 65535 ->
      RawAddr addr
      = Ok ([3; Z.of_nat (length host)] ++ host ++ [port / 256; port mod 256])
      /\ addr_record host port
           ([3; Z.of_nat (length host)] ++ host ++ [port / 256; port mod 256]))
  /\ RawAddr (str "example.com:443")
     = Ok ([3; 11] ++ str "example.com" ++ [1; 187]).
Proof.
  split; [|reflexivity].
  intros addr host portStr port Hs Ha Hh Hp.
  split.
  - rewrite (RawAddr_eq addr host portStr port Hs Ha).
    rewrite PutUint16_in_range by assumption.
    unfold to_byte. rewrite Z.mod_small by lia. reflexivity.
  - exists (port / 256), (port mod 256).
    split; [reflexivity|].
    unfold is_byte.
    assert (0 <= port / 256 < 256)
      by (split; [apply Z.div_pos; lia | apply Z.div_lt_upper_bound; lia]).
    pose proof (Z.mod_pos_bound port 256 ltac:(lia)).
    pose proof (Z.div_mod port 256 ltac:(lia)).
    repeat split; lia.
Qed.

Lemma RawAddr_record_witness :
  RawAddr (str "example.com:443")
  = Ok ([3; Z.of_nat (length (str "example.com"))] ++ str "example.com"
          ++ [443 / 256; 443 mod 256])
  /\ addr_record (str "example.com") 443
       ([3; Z.of_nat (length (str "example.com"))] ++ str "example.com"
          ++ [443 / 256; 443 mod 256]).
Proof.
  apply (proj1 RawAddr_record (str "example.com:443") (str "example.com")
           (str "443") 443).
  - reflexivity.
  - reflexivity.
  - simpl; lia.
  - lia.
Defined.

(** C3 as the claim states it fails: ["a:70000"] splits into the host ["a"]
    and a port string that parses as the integer 70000, and what [RawAddr]
    returns is not the record of host ["a"] and port 70000 (no two bytes are
    the big-endian form of 70000). *)
Lemma RawAddr_port_out_of_range :
  GoStd.SplitHostPort (str "a:70000") = Ok (str "a", str "70000")
  /\ GoStd.Atoi (str "70000") = Ok 70000
  /\ RawAddr (str "a:70000") = Ok [3; 1; 97; 17; 112]
  /\ ~ addr_record (str "a") 70000 [3; 1; 97; 17; 112].
Proof.
  repeat split; try reflexivity.
  intros (hi & lo & Hrec & _ & Hhi & Hlo & Hport).
  unfold is_byte in *. lia.
Qed.

(** C8 fails on the code: for the host of 256 bytes and the port 80,
    [RawAddr] returns a record and no error; its length byte is 0 and the
    256 host bytes follow. *)
Theorem RawAddr_long_host_no_error :
  GoStd.SplitHostPort (long_host ++ str ":80") = Ok (long_host, str "80")
  /\ (length long_host > 255)%nat
  /\ RawAddr (long_host ++ str ":80") = Ok ([3; 0] ++ long_host ++ [0; 80]).
Proof.
  split; [|split].
  - vm_compute. reflexivity.
  - unfold long_host. rewrite repeat_length. lia.
  - vm_compute. reflexivity.
Qed.

(* ================================================================= *)
(** ** [io.ReadFull] *)

Lemma ReadAtLeast_loop_length {R} {RD : Reader R} (fuel : nat) :
  forall (r : R) (min : nat) (got : list byte) r' got' e,
    (length got <= min)%nat ->
    ReadAtLeast_loop fuel r min got = Some (r', (got', e)) ->
    (length got' <= min)%nat /\ (e = None -> length got' = min).
Proof.
  induction fuel as [|fuel IH]; intros r min got r' got' e Hle E;
    simpl in E; destruct (Nat.ltb_spec (length got) min) as [Hlt|Hge];
    try discriminate;
    try (inversion E; subst; split; [assumption | intros _; lia]).
  apply bind_Some in E. destruct E as [[r1 [bs e1]] [Hr E]].
  pose proof (Read_bound _ _ _ _ _ Hr) as Hb.
  assert (length (got ++ bs) <= min)%nat by (rewrite length_app; lia).
  destruct e1 as [e1|].
  - inversion E; subst. split; [assumption | discriminate].
  - eapply IH; eassumption.
Qed.

(** [io.ReadFull] never returns more bytes than the buffer holds, and
    returns no error exactly when it filled the buffer. *)
Lemma ReadFull_length {R} {RD : Reader R} (fuel : nat) (r : R) (n : nat)
  r' got e :
  ReadFull fuel r n = Some (r', (got, e)) ->
  (length got <= n)%nat /\ (e = None <-> length got = n).
Proof.
  unfold ReadFull. intros E.
  apply bind_Some in E. destruct E as [[r1 [got1 e1]] [Hl E]].
  apply ReadAtLeast_loop_length in Hl; [|simpl; lia].
  destruct Hl as [Hle Hnone].
  inversion E; subst; clear E.
  split; [assumption|].
  destruct (Nat.leb_spec n (length got)) as [Hn|Hn].
  - split; [intros _; lia | reflexivity].
  - split.
    + intros He. destruct ((0 <? length got)%nat && is_EOF e1).
      * discriminate.
      * auto.
    + intros; lia.
Qed.

(** More fuel does not change a result. *)
Lemma ReadAtLeast_loop_mono {R} {RD : Reader R} (fuel : nat) :
  forall (fuel' : nat) (r : R) (min : nat) (got : list byte) res,
    (fuel <= fuel')%nat ->
    ReadAtLeast_loop fuel r min got = Some res ->
    ReadAtLeast_loop fuel' r min got = Some res.
Proof.
  induction fuel as [|fuel IH]; intros fuel' r min got res Hle E.
  - simpl in E. destruct fuel'; simpl;
      destruct (length got <? min)%nat; try discriminate; assumption.
  - destruct fuel' as [|fuel']; [lia|].
    simpl in *. destruct (length got <? min)%nat; [|assumption].
    destruct (Read r (min - length got)) as [[r1 [bs [e1|]]]|];
      simpl in *; try assumption.
    apply IH; [lia | assumption].
Qed.

Lemma ReadFull_mono {R} {RD : Reader R} (fuel fuel' : nat) (r : R) (n : nat) res :
  (fuel <= fuel')%nat ->
  ReadFull fuel r n = Some res -> ReadFull fuel' r n = Some res.
Proof.
  unfold ReadFull. intros Hle E.
  apply bind_Some in E. destruct E as [[r1 [got1 e1]] [Hl E]].
  rewrite (ReadAtLeast_loop_mono fuel fuel' r n [] _ Hle Hl). exact E.
Qed.

Lemma copy_at_all (buf src : list byte) :
  length buf = length src -> copy_at buf 0 src = src.
Proof.
  intros Hl. unfold copy_at. cbn [firstn app Nat.add].
  rewrite Nat.sub_0_r, Hl, Nat.min_id, firstn_all.
  rewrite skipn_all2 by lia. apply app_nil_r.
Qed.

Lemma copy_at_make (src : list byte) :
  copy_at (make (length src)) 0 src = src.
Proof. apply copy_at_all. apply length_make. Qed.

(* ================================================================= *)
(** ** [Conn.Read]: the IV handshake *)

Lemma length_copy_at_0 (buf src : list byte) :
  (length src <= length buf)%nat ->
  firstn (length src) (copy_at buf 0 src) = src.
Proof.
  intros Hl. unfold copy_at. cbn [firstn app Nat.add].
  rewrite Nat.sub_0_r, Nat.min_r by assumption.
  rewrite firstn_all, firstn_app, firstn_all, Nat.sub_diag.
  cbn [firstn]. apply app_nil_r.
Qed.

(** With the decrypt state established, [Read] is one read of the transport
    followed by the decryption of what was read. *)
Lemma Conn_Read_established {T St} {RD : Reader T} {SC : Stream St}
  (fuel : nat) (c c' : Conn T St) (k : nat) (b : list byte)
  (err : option error) (s : St) :
  dec (cipher c) = Some s ->
  Conn_Read fuel c k = Some (c', (b, err)) ->
  reads_payload s (conn c) k c' b err
  /\ iv (cipher c') = iv (cipher c)
  /\ chunkId c' = chunkId c.
Proof.
  intros Hd E. unfold Conn_Read in E. rewrite Hd in E. cbn [bind] in E.
  rewrite length_scratch in E.
  apply bind_Some in E. destruct E as [[t [bs e]] [Hr E]].
  pose proof (Read_bound _ _ _ _ _ Hr) as Hb.
  unfold reads_payload.
  destruct bs as [|x bs].
  - cbn in E. inversion E; subst. cbn.
    repeat split; try reflexivity.
    exists t, []. repeat split; assumption.
  - change (0 <? length (x :: bs))%nat with true in E. cbv iota in E.
    rewrite length_copy_at_0 in E by (rewrite length_scratch; exact Hb).
    unfold decrypt in E. cbn [cipher set_readBuf set_conn] in E.
    rewrite Hd in E.
    destruct (XORKeyStream s (x :: bs)) as [s' out] eqn:Hx.
    cbn in E. inversion E; subst. cbn.
    repeat split; try reflexivity.
    exists t, (x :: bs). rewrite Hx. repeat split; assumption.
Qed.

(** C4.  A [Read] on a connection without decrypt state first runs
    [io.ReadFull] for [ivLen] bytes on the transport (which repeats short
    reads until the bytes are there or an error occurs); on an error it
    returns no plaintext and stays uninitialized; otherwise exactly [ivLen]
    bytes were consumed, the decrypt state is made from those bytes, they
    become the connection IV when none was recorded, and only then the
    payload is read.  A [Read] on a connection with decrypt state reads the
    payload directly with that state and leaves the IV alone. *)
Theorem Conn_Read_iv_handshake {T St} {RD : Reader T} {SC : Stream St}
  (fuel : nat) (c c' : Conn T St) (k : nat) (b : list byte)
  (err : option error) :
  Conn_Read fuel c k = Some (c', (b, err)) ->
  match dec (cipher c) with
  | Some s =>
      reads_payload s (conn c) k c' b err
      /\ iv (cipher c') = iv (cipher c)
  | None =>
      exists t1 got e1,
        ReadFull fuel (conn c) (ivLen (info (cipher c)))
        = Some (t1, (got, e1))
        /\ match e1 with
           | Some e =>
               b = [] /\ err = Some e /\ conn c' = t1
               /\ dec (cipher c') = None
               /\ iv (cipher c') = iv (cipher c)
           | None =>
               length got = ivLen (info (cipher c))
               /\ match newStream (info (cipher c)) (key (cipher c)) got
                          Decrypt with
                  | Err e =>
                      b = [] /\ err = Some e /\ conn c' = t1
                      /\ dec (cipher c') = None
                      /\ iv (cipher c') = iv (cipher c)
                  | Ok s =>
                      reads_payload s t1 k c' b err
                      /\ iv (cipher c')
                         = (if (length (iv (cipher c)) =? 0)%nat
                            then got else iv (cipher c))
                  end
           end
  end.
Proof.
  intros E. destruct (dec (cipher c)) as [s|] eqn:Hd.
  - destruct (Conn_Read_established fuel c c' k b err s Hd E) as (? & ? & _).
    split; assumption.
  - unfold Conn_Read in E. rewrite Hd in E.
    apply bind_Some in E. destruct E as [[c1 err1] [Hh E]].
    apply bind_Some in Hh. destruct Hh as [[t1 [got e1]] [Hrf Hh]].
    exists t1, got, e1. split; [exact Hrf|].
    pose proof (ReadFull_length _ _ _ _ _ _ Hrf) as [_ Hlen].
    destruct e1 as [e|].
    + inversion Hh; subst. inversion E; subst. cbn.
      repeat split; try reflexivity. assumption.
    + assert (Hgot : length got = ivLen (info (cipher c)))
        by (apply Hlen; reflexivity).
      split; [exact Hgot|].
      rewrite <- Hgot, copy_at_make in Hh.
      unfold initDecrypt in Hh. cbn [cipher set_conn] in Hh.
      destruct (newStream (info (cipher c)) (key (cipher c)) got Decrypt)
        as [s|e] eqn:Hns.
      * cbn [cipher set_cipher set_dec iv] in Hh.
        assert (Hc1 : dec (cipher c1) = Some s
                      /\ conn c1 = t1
                      /\ iv (cipher c1)
                         = (if (length (iv (cipher c)) =? 0)%nat
                            then got else iv (cipher c))
                      /\ err1 = None).
        { destruct (length (iv (cipher c)) =? 0)%nat;
            inversion Hh; subst; cbn; repeat split; reflexivity. }
        destruct Hc1 as (Hd1 & Ht1 & Hiv1 & ->).
        assert (E1 : Conn_Read fuel c1 k = Some (c', (b, err)))
          by (unfold Conn_Read; rewrite Hd1; exact E).
        destruct (Conn_Read_established fuel c1 c' k b err s Hd1 E1)
          as (Hp & Hiv & _).
        rewrite Ht1 in Hp. split; [exact Hp | congruence].
      * inversion Hh; subst. inversion E; subst. cbn.
        repeat split; try reflexivity. assumption.
Qed.

Lemma Conn_Read_iv_handshake_witness :
  exists c' b,
    Conn_Read 4 reader_conn 10 = Some (c', (b, None))
    /\ iv (cipher c') = [7; 7; 7; 7]
    /\ incoming (conn c') = []
    /\ b = [6; 10; 10].
Proof.
  destruct (Conn_Read 4 reader_conn 10) as [[c' [b err]]|] eqn:E.
  - pose proof (Conn_Read_iv_handshake 4 reader_conn c' 10 b err E) as Hs.
    vm_compute in E. inversion E; subst.
    cbn [dec cipher reader_conn fst NewConn LeakyBuf_Get small_pool
           freeList counter_cipher] in Hs.
    destruct Hs as (t1 & got & e1 & Hrf & Hs).
    vm_compute in Hrf. inversion Hrf; subst.
    destruct Hs as (_ & Hs). cbn in Hs. destruct Hs as (_ & Hiv).
    eexists. eexists. split; [reflexivity|].
    split; [exact Hiv|]. split; reflexivity.
  - vm_compute in E. discriminate.
Defined.

(* ================================================================= *)
(** ** [Conn.Write]: what is sent and what is returned *)

Lemma copy_at_prefix (buf src : list byte) :
  (length src <= length buf)%nat ->
  copy_at buf 0 src = src ++ skipn (length src) buf.
Proof.
  intros Hl. unfold copy_at. cbn [firstn app Nat.add].
  rewrite Nat.sub_0_r, Nat.min_r by assumption.
  rewrite firstn_all. reflexivity.
Qed.

Lemma copy_at_suffix (pre rest src : list byte) :
  length rest = length src ->
  copy_at (pre ++ rest) (length pre) src = pre ++ src.
Proof.
  intros Hl.
  rewrite <- (app_nil_r rest).
  rewrite (copy_at_app pre rest [] src (length pre) eq_refl Hl).
  rewrite app_nil_r. reflexivity.
Qed.

(** The region handed to the transport is the IV, if one was made, followed
    by the ciphertext: no byte left over in the pooled buffer is sent. *)
Lemma write_region (wb b ct : list byte) (ivo : option (list byte)) :
  length ct = length b ->
  let len_iv := match ivo with Some v => length v | None => O end in
  copy_at
    match ivo with
    | Some v => copy_at (scratch wb (length b + len_iv)) 0 v
    | None => scratch wb (length b + len_iv)
    end len_iv ct
  = match ivo with Some v => v | None => [] end ++ ct.
Proof.
  intros Hl len_iv. subst len_iv. destruct ivo as [v|].
  - rewrite copy_at_prefix by (rewrite length_scratch; lia).
    apply copy_at_suffix.
    rewrite length_skipn, length_scratch. lia.
  - cbn [app]. apply copy_at_all. rewrite length_scratch. lia.
Qed.

Lemma initEncrypt_iv_length {St} {CR : Crypto} (c ci : Cipher St) v e :
  initEncrypt c = (ci, (Some v, e)) ->
  enc c = None /\ length v = ivLen (info c) /\ e = None
  /\ iv ci = v /\ enc ci <> None
  /\ key ci = key c /\ ota ci = ota c /\ info ci = info c /\ dec ci = dec c.
Proof.
  unfold initEncrypt. destruct (enc c); [discriminate|].
  destruct (rand_Read (ivLen (info c))) as [v0|] eqn:Hr; [|discriminate].
  destruct (newStream (info c) (key c) v0 Encrypt); [|discriminate].
  intros E; inversion E; subst. cbn.
  repeat split; try reflexivity.
  - eapply rand_Read_length; eassumption.
  - discriminate.
Qed.

Lemma initEncrypt_no_iv {St} {CR : Crypto} (c ci : Cipher St) e :
  enc c = None -> initEncrypt c = (ci, (None, e)) -> e <> None /\ ci = c.
Proof.
  unfold initEncrypt. intros ->.
  destruct (rand_Read (ivLen (info c))) as [v0|].
  - destruct (newStream (info c) (key c) v0 Encrypt);
      intros E; inversion E; subst; split; [discriminate | reflexivity].
  - intros E; inversion E; subst; split; [discriminate | reflexivity].
Qed.

(** The count a successful [write] returns is the transport's: the length
    of the payload plus, on the first write, the length of the IV. *)
Lemma Conn_write_count {T St} {WR : Writer T} {SC : Stream St} {CR : Crypto}
  (c c' : Conn T St) (b : list byte) (n : Z) :
  io_Writer_contract T ->
  Conn_write c b = Some (c', (n, None)) ->
  n = Z.of_nat (length b)
      + match enc (cipher c) with
        | None => Z.of_nat (ivLen (info (cipher c)))
        | Some _ => 0
        end.
Proof.
  intros Hw E. unfold Conn_write in E.
  destruct (enc (cipher c)) as [s|] eqn:He.
  - cbn [set_cipher cipher writeBuf] in E.
    apply bind_Some in E. destruct E as [[ci ct] [Henc E]].
    apply bind_Some in E. destruct E as [[t [n0 e0]] [Hwr E]].
    inversion E; subst. clear E.
    unfold encrypt in Henc. rewrite He in Henc.
    pose proof (XORKeyStream_length s b) as Hl.
    destruct (XORKeyStream s b) as [s' ct']. inversion Henc; subst.
    cbn [snd] in Hl.
    pose proof (write_region (writeBuf c) b ct None Hl) as Hreg.
    cbn zeta iota in Hreg. cbn [set_writeBuf set_cipher conn] in Hwr.
    rewrite Hreg in Hwr.
    apply Hw in Hwr. destruct Hwr as [_ Hn].
    rewrite Hn by reflexivity. cbn [app]. lia.
  - destruct (initEncrypt (cipher c)) as [ci [ivo e]] eqn:Hi.
    destruct e as [e|].
    + inversion E.
    + destruct ivo as [v|].
      * apply initEncrypt_iv_length in Hi.
        destruct Hi as (_ & Hlv & _).
        cbn [set_cipher cipher writeBuf] in E.
        apply bind_Some in E. destruct E as [[ci' ct] [Henc E]].
        apply bind_Some in E. destruct E as [[t [n0 e0]] [Hwr E]].
        inversion E; subst. clear E.
        unfold encrypt in Henc.
        destruct (enc ci) as [s|]; [|discriminate].
        pose proof (XORKeyStream_length s b) as Hl.
        destruct (XORKeyStream s b) as [s' ct']. inversion Henc; subst.
        cbn [snd] in Hl.
        pose proof (write_region (writeBuf c) b ct (Some v) Hl) as Hreg.
        cbn zeta iota in Hreg. cbn [set_writeBuf set_cipher conn] in Hwr.
        rewrite Hreg in Hwr.
        apply Hw in Hwr. destruct Hwr as [_ Hn].
        rewrite Hn by reflexivity. rewrite length_app. lia.
      * apply initEncrypt_no_iv in Hi; [|assumption].
        destruct Hi as [Hi _]. congruence.
Qed.

Lemma length_HmacSha1 {CR : Crypto} (k d : list byte) :
  length (HmacSha1 k d) = 10%nat.
Proof.
  unfold HmacSha1. rewrite length_firstn, hmac_sha1_length. reflexivity.
Qed.

Lemma length_otaReqChunkAuth {CR : Crypto} (v : list byte) (i : Z)
  (data : list byte) :
  length (otaReqChunkAuth v i data) = (12 + length data)%nat.
Proof.
  unfold otaReqChunkAuth. rewrite !length_app, length_HmacSha1. reflexivity.
Qed.

(** What a successful [Write] returns over a transport that keeps the
    contract of [io.Writer]: the number of bytes handed to the transport,
    that is [len(b)] plus the 12 bytes of the chunk header under OTA plus
    the IV on the first write. *)
Lemma Conn_Write_count {T St} {WR : Writer T} {SC : Stream St} {CR : Crypto}
  (c c' : Conn T St) (b : list byte) (n : Z) :
  io_Writer_contract T ->
  Conn_Write c b = Some (c', (n, None)) ->
  n = Z.of_nat (length b)
      + (if ota (cipher c) then 12 else 0)
      + match enc (cipher c) with
        | None => Z.of_nat (ivLen (info (cipher c)))
        | Some _ => 0
        end.
Proof.
  intros Hw E. unfold Conn_Write in E.
  destruct (ota (cipher c)).
  - cbn [Conn_GetAndIncrChunkId] in E.
    apply (Conn_write_count _ _ _ _ Hw) in E.
    rewrite length_otaReqChunkAuth in E.
    cbn [set_chunkId cipher] in E. lia.
  - apply (Conn_write_count _ _ _ _ Hw) in E. lia.
Qed.

(** C2 fails on the code.  The first [Write] of the three bytes [1, 2, 3] on
    a fresh connection with a 4-byte IV succeeds and returns 7, the IV
    included; with OTA it returns 19, the IV and the 12 bytes of the chunk
    header included.  In both cases one segment goes to the transport. *)
Theorem Conn_Write_returns_transport_count :
  (exists c',
      Conn_Write (CR := toy_crypto false) (writer_conn false) [1; 2; 3] = Some (c', (7, None))
      /\ sent (conn c') = [[7; 7; 7; 7; 6; 10; 10]])
  /\ (exists c' hdr,
         Conn_Write (CR := toy_crypto false) (writer_conn true) [1; 2; 3] = Some (c', (19, None))
         /\ sent (conn c') = [[7; 7; 7; 7] ++ hdr]
         /\ length hdr = 15%nat)
  /\ 7 <> Z.of_nat (length [1; 2; 3])
  /\ 19 <> Z.of_nat (length [1; 2; 3]).
Proof.
  split; [|split; [|split; discriminate]].
  - eexists. split; vm_compute; reflexivity.
  - eexists. eexists. split; [vm_compute; reflexivity|].
    split; vm_compute; reflexivity.
Qed.

(* ================================================================= *)
(** ** Dialling *)

Ltac inv H := inversion H; subst; clear H.

(** Case analysis on the first [match] or [bind] scrutinee of a hypothesis
    [H : ... = Some _]. *)
Ltac step_in H :=
  match type of H with
  | bind ?m _ = Some _ =>
      let E := fresh "E" in
      destruct m eqn:E; cbn [bind] in H; [|discriminate H]
  | context [match ?x with _ => _ end] =>
      let E := fresh "E" in destruct x eqn:E
  | context [if ?x then _ else _] =>
      let E := fresh "E" in destruct x eqn:E
  end.

(** C9, as amended.  Without OTA [DialWithRawAddr] leaves the caller's
    [rawaddr] buffer as it was.  With OTA the buffer is either as it was or
    its first byte, the address type, has the bit [0x10] set, and the latter
    is the case whenever the call returns a connection and no error; no other
    byte changes. *)
Theorem DialWithRawAddr_rawaddr {T St}
  {NT : Net T} {WR : Writer T} {CL : Closer T} {SC : Stream St} {CR : Crypto}
  (lb : LeakyBuf) (rawaddr : list byte) (server : gostring)
  (ci : Cipher St) (d : Dialled T St) :
  DialWithRawAddr lb rawaddr server ci = Some d ->
  (ota ci = false -> d_rawaddr d = rawaddr)
  /\ (ota ci = true ->
      d_rawaddr d = rawaddr
      \/ exists b0 rest,
          rawaddr = b0 :: rest
          /\ d_rawaddr d = Z.lor b0 OneTimeAuthMask :: rest)
  /\ (ota ci = true ->
      forall c, d_ret d = Returned (Some c) None ->
      exists b0 rest,
        rawaddr = b0 :: rest
        /\ d_rawaddr d = Z.lor b0 OneTimeAuthMask :: rest)
  /\ skipn 1 (d_rawaddr d) = skipn 1 rawaddr
  /\ length (d_rawaddr d) = length rawaddr.
Proof.
  unfold DialWithRawAddr. intros E.
  destruct (net_Dial server) as [t|e].
  2:{ inv E. cbn. repeat split; auto. intros _ c Hc. discriminate Hc. }
  unfold NewConn in E.
  destruct (LeakyBuf_Get lb) as [rb lb1].
  destruct (LeakyBuf_Get lb1) as [wb lb2].
  cbn [cipher] in E.
  destruct (ota ci) eqn:Hota.
  - (* OTA *)
    apply bind_Some in E. destruct E as [[[[c1 buf1] msg] stop] [Hpre E]].
    assert (Hbuf :
      (buf1 = rawaddr /\ stop <> None)
      \/ (exists b0 rest, rawaddr = b0 :: rest
                          /\ buf1 = Z.lor b0 OneTimeAuthMask :: rest
                          /\ stop = None)).
    { repeat step_in Hpre; inv Hpre;
        try (left; split; [reflexivity | discriminate]).
      right. eexists. eexists. repeat split. }
    assert (Hd : d_rawaddr d = buf1
                 /\ (stop <> None ->
                     forall c, d_ret d = Returned (Some c) None -> False)).
    { destruct stop as [r|].
      - inv E. cbn. split; [reflexivity|].
        intros _ c Hc. subst r.
        repeat step_in Hpre; inv Hpre.
      - repeat step_in E; inv E; cbn;
          (split; [reflexivity | intros Hn; exfalso; apply Hn; reflexivity]). }
    destruct Hd as [Hd Hstop]. rewrite Hd.
    split; [discriminate|].
    split; [|split].
    + intros _. destruct Hbuf as [[-> _]|(b0 & rest & -> & -> & _)].
      * left; reflexivity.
      * right. eexists. eexists. split; reflexivity.
    + intros _ c Hc. destruct Hbuf as [[_ Hs]|(b0 & rest & -> & -> & _)].
      * exfalso. exact (Hstop Hs c Hc).
      * eexists. eexists. split; reflexivity.
    + destruct Hbuf as [[-> _]|(b0 & rest & -> & -> & _)];
        split; reflexivity.
  - (* no OTA *)
    cbn [bind] in E.
    assert (Hd : d_rawaddr d = rawaddr)
      by (repeat step_in E; inv E; reflexivity).
    rewrite Hd. repeat split; auto; discriminate.
Qed.

Lemma DialWithRawAddr_rawaddr_witness :
  exists d,
    dial_a80 [] false true = Some d
    /\ (exists b0 rest,
           a80 = b0 :: rest
           /\ d_rawaddr d = Z.lor b0 OneTimeAuthMask :: rest)
    /\ skipn 1 (d_rawaddr d) = skipn 1 a80.
Proof.
  destruct (dial_a80 [] false true) as [d|] eqn:E.
  - pose proof (DialWithRawAddr_rawaddr
                  (NT := dials (Ok {| incoming := []; wresults := [];
                                      sent := []; closed := false;
                                      deadlines := O |}))
                  (CR := toy_crypto false)
                  small_pool a80 (str "server:8388") (counter_cipher 4 true)
                  d E) as (_ & _ & Hok & Hrest & _).
    exists d. split; [reflexivity|].
    split; [|exact Hrest].
    vm_compute in E. inv E.
    eapply Hok; reflexivity.
  - vm_compute in E. discriminate.
Defined.

(** C9 as the claim states it fails: dialling with OTA changes the
    address-type byte of the caller's record from [03] to [13] (hex). *)
Lemma DialWithRawAddr_sets_ota_bit :
  exists d,
    dial_a80 [] false true = Some d
    /\ d_rawaddr d = [19; 1; 97; 0; 80]
    /\ d_rawaddr d <> a80.
Proof.
  eexists. split; [vm_compute; reflexivity|].
  split; [reflexivity | discriminate].
Qed.

(** C6 fails on the code.  With OTA, when [initEncrypt] fails (here the
    random source gives no IV), [DialWithRawAddr] returns the error together
    with a connection that is not nil, and nothing was closed: the transport
    is open and the two buffers are not back in the pool.  When the write of
    the IV fails, the error is dropped: the call goes on and returns a
    connection and no error although the IV never left.  The path that the
    claim describes is the third one: when sending the address record fails,
    the connection is closed, its buffers return to the pool, and nil is
    returned with the error. *)
Theorem DialWithRawAddr_failure_paths :
  (exists d c,
      dial_a80 [] true true = Some d
      /\ d_ret d = Returned (Some c) (Some (ErrIO 1))
      /\ option_map closed (d_transport d) = Some false
      /\ freeList (d_pool d) = [])
  /\ (exists d c rec,
         dial_a80 [Some (ErrIO 2)] false true = Some d
         /\ d_ret d = Returned (Some c) None
         /\ option_map closed (d_transport d) = Some false
         /\ option_map sent (d_transport d) = Some [rec]
         /\ length rec = length a80 + 10)%nat
  /\ (exists d,
         dial_a80 [Some (ErrIO 2)] false false = Some d
         /\ d_ret d = Returned None (Some (ErrIO 2))
         /\ option_map closed (d_transport d) = Some true
         /\ length (freeList (d_pool d)) = 2%nat).
Proof.
  split; [|split].
  - eexists. eexists. split; [vm_compute; reflexivity|].
    repeat split.
  - eexists. eexists. eexists. split; [vm_compute; reflexivity|].
    repeat split.
  - eexists. split; [vm_compute; reflexivity|].
    repeat split.
Qed.

(* ================================================================= *)
(** ** The plain relay *)

Lemma written_app (a b : list event) : written (a ++ b) = written a ++ written b.
Proof.
  induction a as [|[] a IH]; simpl; rewrite ?IH; reflexivity.
Qed.

Lemma read_nonempty_app (a b : list event) :
  read_nonempty (a ++ b) = read_nonempty a ++ read_nonempty b.
Proof.
  induction a as [|[? [|] ?| | |] a IH]; simpl; rewrite ?IH; reflexivity.
Qed.

Lemma closes_app (a b : list event) : closes (a ++ b) = (closes a + closes b)%nat.
Proof.
  induction a as [|[] a IH]; simpl; rewrite ?IH; reflexivity.
Qed.

Lemma slice_copy_at_0 (buf bs : list byte) :
  (length bs <= length buf)%nat ->
  slice (copy_at buf 0 bs) 0 (length bs) = bs.
Proof.
  intros Hl. unfold slice. rewrite Nat.sub_0_r. cbn [skipn].
  apply length_copy_at_0. assumption.
Qed.

Lemma length_copy_at (buf src : list byte) (off : nat) :
  (off <= length buf)%nat -> length (copy_at buf off src) = length buf.
Proof.
  intros Hl. unfold copy_at.
  rewrite !length_app, !length_firstn, length_skipn. lia.
Qed.

Lemma calls_SetReadTimeout {T} {DL : Deadline T} (rt : Z) (l : Logged T) :
  exists es,
    calls (SetReadTimeout rt l) = calls l ++ es
    /\ read_nonempty es = [] /\ written es = [] /\ closes es = O.
Proof.
  unfold SetReadTimeout. destruct (rt =? 0).
  - exists []. rewrite app_nil_r. repeat split.
  - exists [EvSetReadDeadline]. repeat split.
Qed.

(** One turn of the plain relay, seen on the logs of [src] and [dst]: one
    [Read] on [src]; if it returned bytes, one [Write] of exactly these
    bytes on [dst], whatever error came with them; nothing else on [dst].
    The loop goes on only if neither call returned an error. *)
Lemma PipeThenClose_iter_log {S D}
  {RD : Reader S} {DL : Deadline S} {WD : Writer D}
  (rt : Z) (src : Logged S) (dst : Logged D) (buf : list byte) r :
  PipeThenClose_iter rt (src, dst, buf) = Some r ->
  exists src' dst' buf' es k bs err,
    (r = Continue (src', dst', buf') \/ r = Break (src', dst', buf'))
    /\ calls src' = calls src ++ es ++ [EvRead k bs err]
    /\ read_nonempty es = []
    /\ length buf' = length buf
    /\ match bs with
       | [] => calls dst' = calls dst
       | _ => exists n werr,
           calls dst' = calls dst ++ [EvWrite bs n werr]
           /\ (r = Continue (src', dst', buf') -> werr = None)
       end
    /\ (r = Continue (src', dst', buf') -> err = None).
Proof.
  unfold PipeThenClose_iter. intros E.
  destruct (calls_SetReadTimeout rt src) as (es & Hes & Hrn & _).
  apply bind_Some in E. destruct E as [[src1 [bs err]] [Hr E]].
  pose proof (Read_bound _ _ _ _ _ Hr) as Hb.
  cbn [Read Logged_Reader] in Hr. unfold Logged_Read in Hr.
  apply bind_Some in Hr. destruct Hr as [[t [bs0 e0]] [Hr0 Hr]]. inv Hr.
  apply bind_Some in E. destruct E as [[dst1 werr] [Hw E]].
  assert (Hlen : length (copy_at buf 0 bs) = length buf)
    by (apply length_copy_at; lia).
  destruct bs as [|x bs].
  - cbn in Hw. inv Hw.
    destruct err as [e|]; inv E;
      do 7 eexists; (split; [eauto|]);
      cbn [calls]; rewrite Hes, <- app_assoc;
      repeat split; auto; try discriminate.
  - change (0 <? length (x :: bs))%nat with true in Hw. cbv iota in Hw.
    rewrite slice_copy_at_0 in Hw by exact Hb.
    apply bind_Some in Hw. destruct Hw as [[dst2 [n we]] [Hw0 Hw]]. inv Hw.
    cbn [Write Logged_Writer] in Hw0.
    apply bind_Some in Hw0. destruct Hw0 as [[t2 [n2 we2]] [Hw1 Hw0]].
    inv Hw0.
    destruct werr as [we|]; [|destruct err as [e|]]; inv E;
      do 7 eexists; (split; [eauto|]);
      cbn [calls]; rewrite Hes, <- app_assoc;
      (split; [reflexivity|]); (split; [exact Hrn|]);
      (split; [exact Hlen|]);
      (split; [eexists; eexists; split; [reflexivity|]|]);
      try (intros Hc; discriminate Hc); auto.
Qed.

Lemma PipeThenClose_loop_log {S D}
  {RD : Reader S} {DL : Deadline S} {WD : Writer D} (rt : Z) (fuel : nat) :
  forall (src : Logged S) (dst : Logged D) (buf : list byte) src' dst' buf',
    PipeThenClose_loop fuel rt (src, dst, buf) = Some (src', dst', buf') ->
    exists es ed,
      calls src' = calls src ++ es
      /\ calls dst' = calls dst ++ ed
      /\ written ed = read_nonempty es
      /\ closes ed = O.
Proof.
  induction fuel as [|fuel IH]; intros src dst buf src' dst' buf' E;
    [discriminate|].
  cbn [PipeThenClose_loop] in E.
  apply bind_Some in E. destruct E as [r [Hit E]].
  apply PipeThenClose_iter_log in Hit.
  destruct Hit as (s1 & d1 & b1 & es & k & bs & err & Hr & Hs & Hes & _
                   & Hd & _).
  assert (Hstep : exists ed1,
             calls d1 = calls dst ++ ed1
             /\ written ed1 = read_nonempty (es ++ [EvRead k bs err])
             /\ closes ed1 = O).
  { rewrite read_nonempty_app, Hes. destruct bs as [|x bs].
    - exists []. rewrite app_nil_r. repeat split. exact Hd.
    - destruct Hd as (n & werr & Hd & _).
      exists [EvWrite (x :: bs) n werr]. repeat split. exact Hd. }
  destruct Hstep as (ed1 & Hd1 & Hw1 & Hc1).
  destruct Hr as [-> | ->].
  - apply IH in E. destruct E as (es2 & ed2 & Hs2 & Hd2 & Hw2 & Hc2).
    exists ((es ++ [EvRead k bs err]) ++ es2), (ed1 ++ ed2).
    split; [|split; [|split]].
    + rewrite Hs2, Hs, <- !app_assoc. reflexivity.
    + rewrite Hd2, Hd1, <- !app_assoc. reflexivity.
    + rewrite written_app, (read_nonempty_app (es ++ _)), Hw1, Hw2.
      reflexivity.
    + rewrite closes_app, Hc1, Hc2. reflexivity.
  - inv E. exists (es ++ [EvRead k bs err]), ed1.
    split; [|split; [|split]]; assumption.
Qed.

(** C7.  A turn of the plain relay in which the read of [src] returns
    bytes together with an error passes these bytes to [dst.Write] and then
    leaves the loop.  When [PipeThenClose] returns, the payloads written to
    [dst] are the non-empty results of the reads of [src], in order, and the
    last call on [dst], and the only [Close], is the [Close] that the
    function defers. *)
Theorem PipeThenClose_drains_then_closes {S D}
  {RD : Reader S} {DL : Deadline S} {WD : Writer D} {CD : Closer D}
  (rt : Z) :
  (forall (src src1 : S) (dst dst1 : D) (buf : list byte)
          (b : byte) (bs : list byte) (e : error) (n : Z)
          (werr : option error),
      Read (SetReadTimeout rt src) (length buf)
      = Some (src1, (b :: bs, Some e)) ->
      Write dst (b :: bs) = Some (dst1, (n, werr)) ->
      PipeThenClose_iter rt (src, dst, buf)
      = Some (Break (src1, dst1, copy_at buf 0 (b :: bs))))
  /\ (forall (fuel : nat) (lb : LeakyBuf) (src : Logged S) (dst : Logged D)
             lb' src' dst',
         PipeThenClose fuel rt lb src dst = Some (lb', src', dst') ->
         exists es ed,
           calls src' = calls src ++ es
           /\ calls dst' = calls dst ++ ed ++ [EvClose]
           /\ written ed = read_nonempty es
           /\ closes ed = O).
Proof.
  split.
  - intros src src1 dst dst1 buf b bs e n werr Hr Hw.
    pose proof (Read_bound _ _ _ _ _ Hr) as Hb.
    unfold PipeThenClose_iter. rewrite Hr. cbn [bind].
    change (0 <? length (b :: bs))%nat with true. cbv iota.
    rewrite slice_copy_at_0 by exact Hb.
    rewrite Hw. cbn [bind]. destruct werr; reflexivity.
  - intros fuel lb src dst lb' src' dst' E.
    unfold PipeThenClose in E.
    destruct (LeakyBuf_Get lb) as [buf lb1].
    apply bind_Some in E. destruct E as [[[s1 d1] b1] [Hl E]].
    apply PipeThenClose_loop_log in Hl.
    destruct Hl as (es & ed & Hs & Hd & Hw & Hc).
    cbn [Close Logged_Closer] in E.
    destruct (Close (inner d1)) as [t e]. inv E.
    exists es, ed. cbn [calls]. rewrite Hd, <- app_assoc.
    repeat split; assumption.
Qed.

Lemma PipeThenClose_drains_then_closes_witness :
  exists lb' src' dst',
    PipeThenClose 3 0 small_pool relay_src relay_dst = Some (lb', src', dst')
    /\ written (calls dst') = [[1; 2; 3]; [4; 5]]
    /\ (exists ed, calls dst' = ed ++ [EvClose] /\ closes ed = O)
    /\ closed (inner dst') = true.
Proof.
  destruct (PipeThenClose 3 0 small_pool relay_src relay_dst)
    as [[[lb' src'] dst']|] eqn:E.
  - pose proof (proj2 (PipeThenClose_drains_then_closes 0) 3%nat small_pool
                  relay_src relay_dst lb' src' dst' E)
      as (es & ed & Hs & Hd & Hw & Hc).
    exists lb', src', dst'. split; [reflexivity|].
    cbn [calls relay_dst app] in Hd.
    vm_compute in E. inv E.
    split; [reflexivity|]. split; [|reflexivity].
    exists ed. split; assumption.
  - vm_compute in E. discriminate.
Defined.

(* ================================================================= *)
(** ** The OTA-verifying relay *)

Lemma bytes_Equal_eq (a b : list byte) : bytes_Equal a b = true <-> a = b.
Proof.
  revert b. induction a as [|x a IH]; intros [|y b]; simpl;
    try (split; [discriminate | discriminate]); try tauto.
  rewrite andb_true_iff, Z.eqb_eq, IH.
  split; [intros [-> ->]; reflexivity | intros E; inv E; auto].
Qed.

(** What [Read] keeps, [io.ReadFull] keeps. *)
Lemma ReadFull_preserves {R} {RD : Reader R} (P : R -> Prop) (fuel : nat)
  (r r' : R) (n : nat) res :
  (forall a k a' x, Read a k = Some (a', x) -> P a -> P a') ->
  ReadFull fuel r n = Some (r', res) -> P r -> P r'.
Proof.
  intros HP E. unfold ReadFull in E.
  apply bind_Some in E. destruct E as [[r1 [got e]] [Hl E]]. inv E.
  revert r Hl. generalize (@nil Z).
  induction fuel as [|fuel IH]; intros acc r Hl Hr; simpl in Hl;
    destruct (length acc <? n)%nat; try discriminate;
    try (inv Hl; assumption).
  apply bind_Some in Hl. destruct Hl as [[r2 [bs e2]] [Hrd Hl]].
  pose proof (HP _ _ _ _ Hrd Hr) as Hr2.
  destruct e2; [inv Hl; assumption | eapply IH; eassumption].
Qed.

Lemma Conn_Read_chunkId {T St} {RD : Reader T} {SC : Stream St}
  (fuel : nat) (c c' : Conn T St) (k : nat) x :
  Conn_Read fuel c k = Some (c', x) -> chunkId c' = chunkId c.
Proof.
  unfold Conn_Read. intros E.
  apply bind_Some in E. destruct E as [[c1 err1] [Hh E]].
  assert (H1 : chunkId c1 = chunkId c).
  { destruct (dec (cipher c)); [inv Hh; reflexivity|].
    apply bind_Some in Hh. destruct Hh as [[t1 [got e1]] [_ Hh]].
    repeat step_in Hh; inv Hh; reflexivity. }
  rewrite <- H1. clear Hh H1.
  destruct err1; [inv E; reflexivity|].
  apply bind_Some in E. destruct E as [[t [bs e]] [_ E]].
  destruct (0 <? length bs)%nat; [|inv E; reflexivity].
  apply bind_Some in E. destruct E as [[ci b] [_ E]]. inv E. reflexivity.
Qed.

(** Once the decrypt state is there, reading changes neither it being there
    nor the connection IV. *)
Lemma Conn_Read_iv_stable {T St} {RD : Reader T} {SC : Stream St}
  (fuel : nat) (c c' : Conn T St) (k : nat) x :
  Conn_Read fuel c k = Some (c', x) ->
  dec (cipher c) <> None ->
  dec (cipher c') <> None /\ iv (cipher c') = iv (cipher c).
Proof.
  intros E Hd. destruct (dec (cipher c)) as [s|] eqn:Hs; [|congruence].
  destruct x as [b err].
  destruct (Conn_Read_established fuel c c' k b err s Hs E)
    as ((t' & bs & _ & _ & Hm) & Hiv & _).
  split; [|exact Hiv].
  destruct bs; destruct Hm as [_ ->]; discriminate.
Qed.

Lemma slice_prefix (b b' : list byte) (lo hi : nat) :
  firstn hi b = firstn hi b' -> slice b lo hi = slice b' lo hi.
Proof.
  intros E. unfold slice.
  destruct (Nat.le_gt_cases lo hi) as [Hle|Hgt].
  - replace (firstn (hi - lo) (skipn lo b)) with (skipn lo (firstn hi b)).
    + replace (firstn (hi - lo) (skipn lo b'))
        with (skipn lo (firstn hi b')).
      * rewrite E; reflexivity.
      * rewrite skipn_firstn_comm. reflexivity.
    + rewrite skipn_firstn_comm. reflexivity.
  - replace (hi - lo)%nat with O by lia. reflexivity.
Qed.

Lemma firstn_copy_at_0 (buf src : list byte) :
  (length src <= length buf)%nat ->
  firstn (length src) (copy_at buf 0 src) = src.
Proof. apply length_copy_at_0. Qed.

Lemma firstn_copy_at_beyond (buf src : list byte) (off : nat) :
  (off <= length buf)%nat ->
  firstn off (copy_at buf off src) = firstn off buf.
Proof.
  intros Hl. unfold copy_at.
  rewrite firstn_app, length_firstn, Nat.min_l by assumption.
  rewrite Nat.sub_diag. cbn [firstn]. rewrite app_nil_r.
  rewrite firstn_firstn, Nat.min_id. reflexivity.
Qed.

Lemma length_slice (b : list byte) (lo hi : nat) :
  (lo <= hi)%nat -> (hi <= length b)%nat -> length (slice b lo hi) = (hi - lo)%nat.
Proof.
  intros H1 H2. unfold slice. rewrite length_firstn, length_skipn. lia.
Qed.

Lemma Conn_GetIv_eq {T St} (c : Conn T St) : Conn_GetIv c = iv (cipher c).
Proof. apply copy_at_make. Qed.

Lemma no_chunk_read_exit (n : nat) (e : error) :
  no_chunk (Some (read_exit HeaderEOF HeaderError n e))
  /\ no_chunk (Some (read_exit DataEOF DataError n e)).
Proof. unfold read_exit. destruct (error_eqb e EOF); split; exact I. Qed.

Lemma ReadFull_Conn_chunkId {T St} {RD : Reader T} {SC : Stream St}
  (fuel : nat) (c c' : Conn T St) (n : nat) res :
  ReadFull (RD := Conn_Reader fuel) fuel c n = Some (c', res) ->
  chunkId c' = chunkId c.
Proof.
  intros E.
  apply (ReadFull_preserves (RD := Conn_Reader fuel)
           (fun a => chunkId a = chunkId c) fuel c c' n res); auto.
  intros a k a' x Hr Ha. cbn [Read Conn_Reader] in Hr.
  apply Conn_Read_chunkId in Hr. congruence.
Qed.

Lemma chunkId_SetReadTimeout {T St} {DL : Deadline T} (rt : Z)
  (c : Conn T St) :
  chunkId (SetReadTimeout rt c) = chunkId c
  /\ cipher (SetReadTimeout rt c) = cipher c.
Proof. unfold SetReadTimeout. destruct (rt =? 0); split; reflexivity. Qed.

Lemma Logged_Write_calls {D} {WD : Writer D} (l l' : Logged D)
  (p : list byte) (n : Z) (e : option error) :
  Write l p = Some (l', (n, e)) -> calls l' = calls l ++ [EvWrite p n e].
Proof.
  cbn [Write Logged_Writer]. intros E.
  apply bind_Some in E. destruct E as [[t [n0 e0]] [_ E]].
  inv E. reflexivity.
Qed.

Lemma firstn_firstn_le (b : list byte) (n m : nat) :
  (n <= m)%nat -> firstn n (firstn m b) = firstn n b.
Proof. intros H. rewrite firstn_firstn, Nat.min_l by exact H. reflexivity. Qed.

(** One turn of the OTA relay, from its result.  Either no chunk reached
    the comparison: then [dst] is untouched, the chunk counter is as before
    and the loop is left.  Or a header [hdr] of 12 bytes and then the data
    [data] were read in full: then the counter advanced by one, and the tag
    of the header, [hdr[2:12]], was compared with the HMAC of [data] under
    the key "connection IV, then the counter before the turn as 4 bytes
    big-endian"; when they differ [dst] is untouched and the loop is left,
    when they are equal [data] was passed to [dst.Write], once. *)
Lemma PipeThenCloseOta_iter_spec {T St D}
  {RD : Reader T} {DL : Deadline T} {SC : Stream St} {CR : Crypto}
  {WD : Writer D}
  (fuel : nat) (rt : Z) (src src' : Conn T St) (dst dst' : D)
  (buf buf' : list byte) (ex : option OtaExit) :
  PipeThenCloseOta_iter fuel rt (src, dst, buf) = Some (src', dst', buf', ex) ->
  (dst' = dst /\ chunkId src' = chunkId src /\ no_chunk ex)
  \/ exists src1 src2 hdr data,
      ReadFull (RD := Conn_Reader fuel) fuel (SetReadTimeout rt src) 12
      = Some (src1, (hdr, None))
      /\ length hdr = 12%nat
      /\ ReadFull (RD := Conn_Reader fuel) fuel src1 (length data)
         = Some (src2, (data, None))
      /\ src' = set_chunkId src2 (to_uint32 (chunkId src + 1))
      /\ ((slice hdr 2 12
           <> HmacSha1 (iv (cipher src2) ++ BigEndian_PutUint32 (chunkId src))
                data
           /\ ex = Some (HmacMismatch (chunkId src) (slice hdr 2 12)
                           (HmacSha1 (iv (cipher src2)
                                        ++ BigEndian_PutUint32 (chunkId src))
                              data))
           /\ dst' = dst)
          \/ (slice hdr 2 12
              = HmacSha1 (iv (cipher src2)
                            ++ BigEndian_PutUint32 (chunkId src)) data
              /\ exists n werr,
                  Write dst data = Some (dst', (n, werr))
                  /\ ex = option_map WriteError werr)).
Proof.
  unfold PipeThenCloseOta_iter.
  change (dataLenLen + hmacSha1Len)%nat with 12%nat.
  change idxData0 with 12%nat. change dataLenLen with 2%nat.
  intros E.
  destruct (chunkId_SetReadTimeout rt src) as [Hid0 _].
  destruct (Nat.ltb_spec (length buf) 12) as [Hshort|Hbuf].
  { injection E as <- <- <- <-. left. rewrite Hid0. repeat split. }
  apply bind_Some in E. destruct E as [[src1 [hdr err]] [Hrf1 E]].
  pose proof (ReadFull_length (RD := Conn_Reader fuel) _ _ _ _ _ _ Hrf1)
    as [Hh1 Hh2].
  pose proof (ReadFull_Conn_chunkId _ _ _ _ _ Hrf1) as Hid1.
  destruct err as [e|].
  { injection E as <- <- <- <-. left. rewrite Hid1, Hid0.
    repeat split. apply no_chunk_read_exit. }
  assert (Hhdr : length hdr = 12%nat) by (apply Hh2; reflexivity).
  clear Hh1 Hh2.
  set (buf1 := copy_at buf 0 hdr) in *.
  assert (Hb1 : firstn 12 buf1 = hdr).
  { subst buf1. rewrite <- Hhdr. apply firstn_copy_at_0. lia. }
  assert (Hlb1 : length buf1 = length buf)
    by (subst buf1; apply length_copy_at; lia).
  set (dataLen := BigEndian_Uint16 (slice buf1 0 2)) in *.
  set (hi := to_uint16 (12 + dataLen)) in *.
  change (Z.of_nat 12) with 12 in E. fold hi in E.
  set (fresh := Z.of_nat (length buf1) <? hi) in *.
  destruct (negb fresh && (hi <? 12)) eqn:Hpanic.
  { injection E as <- <- <- <-. left. rewrite Hid1, Hid0. repeat split. }
  set (dataBuf0 := if fresh then make (Z.to_nat dataLen)
                   else slice buf1 12 (Z.to_nat hi)) in *.
  apply bind_Some in E. destruct E as [[src2 [data err]] [Hrf2 E]].
  pose proof (ReadFull_length (RD := Conn_Reader fuel) _ _ _ _ _ _ Hrf2)
    as [Hd1 Hd2].
  pose proof (ReadFull_Conn_chunkId _ _ _ _ _ Hrf2) as Hid2.
  destruct err as [e|].
  { injection E as <- <- <- <-. left. rewrite Hid2, Hid1, Hid0.
    repeat split. apply no_chunk_read_exit. }
  assert (Hdata : length data = length dataBuf0) by (apply Hd2; reflexivity).
  clear Hd1 Hd2.
  rewrite (copy_at_all dataBuf0 data) in E by (symmetry; exact Hdata).
  rewrite <- Hdata in Hrf2.
  cbn [Conn_GetAndIncrChunkId] in E.
  rewrite Conn_GetIv_eq in E. cbn [set_chunkId cipher] in E.
  rewrite (copy_at_all (make 4) (BigEndian_PutUint32 (chunkId src2)))
    in E by reflexivity.
  assert (Hexp : slice (if fresh then buf1 else copy_at buf1 12 data) 2 12
                 = slice hdr 2 12).
  { apply slice_prefix. rewrite firstn_all2 with (l := hdr) by lia.
    destruct fresh; [exact Hb1|].
    rewrite firstn_copy_at_beyond by lia. exact Hb1. }
  rewrite Hexp in E.
  assert (Hid : chunkId src2 = chunkId src) by congruence.
  rewrite Hid in E.
  right. exists src1, src2, hdr, data.
  split; [exact Hrf1|]. split; [exact Hhdr|]. split; [exact Hrf2|].
  destruct (bytes_Equal (slice hdr 2 12)
              (HmacSha1 (iv (cipher src2) ++ BigEndian_PutUint32 (chunkId src))
                 data)) eqn:Heq.
  - apply bytes_Equal_eq in Heq. cbn [negb] in E.
    apply bind_Some in E. destruct E as [[dst1 [n werr]] [Hw E]].
    destruct werr as [we|]; injection E as <- <- <- <-;
      (split; [reflexivity|]); right; (split; [exact Heq|]);
      eexists; eexists; (split; [exact Hw | reflexivity]).
  - cbn [negb] in E. injection E as <- <- <- <-. split; [reflexivity|]. left.
    split; [|split; reflexivity].
    intros Hc. apply bytes_Equal_eq in Hc. congruence.
Qed.

(** One turn of the OTA relay, from what arrives.  When the header [hdr]
    arrives in full and declares [dataLen] bytes of data, at most 65523 so
    that [idxData0+dataLen] fits 16 bits, and these bytes [data] arrive in
    full, the turn does this and nothing else: it advances the counter,
    computes the tag of [data], compares it with [hdr[2:12]], and either
    writes [data] to [dst] or leaves the loop with the mismatch. *)
Lemma PipeThenCloseOta_iter_chunk {T St D}
  {RD : Reader T} {DL : Deadline T} {SC : Stream St} {CR : Crypto}
  {WD : Writer D}
  (fuel : nat) (rt : Z) (src src1 src2 : Conn T St) (dst : D)
  (buf hdr data : list byte) :
  (12 <= length buf)%nat ->
  ReadFull (RD := Conn_Reader fuel) fuel (SetReadTimeout rt src) 12
  = Some (src1, (hdr, None)) ->
  0 <= BigEndian_Uint16 (slice hdr 0 2) <= 65523 ->
  ReadFull (RD := Conn_Reader fuel) fuel src1
    (Z.to_nat (BigEndian_Uint16 (slice hdr 0 2)))
  = Some (src2, (data, None)) ->
  exists buf',
    PipeThenCloseOta_iter fuel rt (src, dst, buf)
    = let src' := set_chunkId src2 (to_uint32 (chunkId src + 1)) in
      let actual :=
        HmacSha1 (iv (cipher src2) ++ BigEndian_PutUint32 (chunkId src))
          data in
      if bytes_Equal (slice hdr 2 12) actual
      then ' (dst', (_, werr)) <- Write dst data ;;
           Some (src', dst', buf', option_map WriteError werr)
      else Some (src', dst, buf',
                 Some (HmacMismatch (chunkId src) (slice hdr 2 12) actual)).
Proof.
  intros Hbuf H1 Hlen H2.
  pose proof (ReadFull_length (RD := Conn_Reader fuel) _ _ _ _ _ _ H1)
    as [_ Hh].
  assert (Hhdr : length hdr = 12%nat) by (apply Hh; reflexivity). clear Hh.
  pose proof (ReadFull_length (RD := Conn_Reader fuel) _ _ _ _ _ _ H2)
    as [_ Hd].
  assert (Hdata : length data = Z.to_nat (BigEndian_Uint16 (slice hdr 0 2)))
    by (apply Hd; reflexivity). clear Hd.
  assert (Hid : chunkId src2 = chunkId src).
  { rewrite (ReadFull_Conn_chunkId _ _ _ _ _ H2).
    rewrite (ReadFull_Conn_chunkId _ _ _ _ _ H1).
    apply chunkId_SetReadTimeout. }
  unfold PipeThenCloseOta_iter.
  change (dataLenLen + hmacSha1Len)%nat with 12%nat.
  change idxData0 with 12%nat. change dataLenLen with 2%nat.
  destruct (Nat.ltb_spec (length buf) 12) as [Hs|_]; [lia|].
  rewrite H1. cbn [bind].
  set (buf1 := copy_at buf 0 hdr).
  assert (Hb1 : firstn 12 buf1 = hdr).
  { subst buf1. rewrite <- Hhdr. apply firstn_copy_at_0. lia. }
  assert (Hlb1 : length buf1 = length buf)
    by (subst buf1; apply length_copy_at; lia).
  assert (Hdl : slice buf1 0 2 = slice hdr 0 2).
  { apply slice_prefix. rewrite <- Hb1.
    rewrite firstn_firstn_le by lia. reflexivity. }
  rewrite Hdl.
  set (dataLen := BigEndian_Uint16 (slice hdr 0 2)) in *.
  change (Z.of_nat 12) with 12.
  assert (Hhi : to_uint16 (12 + dataLen) = 12 + dataLen)
    by (unfold to_uint16; apply Z.mod_small; lia).
  rewrite Hhi.
  replace (12 + dataLen <? 12) with false by (symmetry; apply Z.ltb_ge; lia).
  rewrite andb_false_r.
  set (fresh := Z.of_nat (length buf1) <? 12 + dataLen).
  assert (Hl0 : length (if fresh then make (Z.to_nat dataLen)
                        else slice buf1 12 (Z.to_nat (12 + dataLen)))
                = Z.to_nat dataLen).
  { destruct (Z.ltb_spec (Z.of_nat (length buf1)) (12 + dataLen));
      subst fresh; cbv iota.
    - apply length_make.
    - rewrite length_slice by lia. lia. }
  rewrite Hl0, H2. cbn [bind].
  rewrite copy_at_all by (rewrite Hl0; symmetry; exact Hdata).
  cbn [Conn_GetAndIncrChunkId].
  rewrite Conn_GetIv_eq. cbn [set_chunkId cipher].
  rewrite (copy_at_all (make 4) (BigEndian_PutUint32 (chunkId src2)))
    by reflexivity.
  assert (Hexp : slice (if fresh then buf1 else copy_at buf1 12 data) 2 12
                 = slice hdr 2 12).
  { apply slice_prefix. rewrite firstn_all2 with (l := hdr) by lia.
    destruct fresh; [exact Hb1|].
    rewrite firstn_copy_at_beyond by lia. exact Hb1. }
  rewrite Hexp, Hid.
  exists (if fresh then buf1 else copy_at buf1 12 data). cbv zeta.
  destruct (bytes_Equal (slice hdr 2 12)
              (HmacSha1 (iv (cipher src2) ++ BigEndian_PutUint32 (chunkId src))
                 data)); cbn [negb]; [|reflexivity].
  destruct (Write dst data) as [[dst' [n [we|]]]|]; reflexivity.
Qed.

(** A declared length above 65523 makes [idxData0+dataLen] wrap around in
    16 bits below [idxData0]: the slice expression [buf[idxData0:...]]
    panics, whatever the size of the buffer. *)
Lemma PipeThenCloseOta_iter_long_chunk {T St D}
  {RD : Reader T} {DL : Deadline T} {SC : Stream St} {CR : Crypto}
  {WD : Writer D}
  (fuel : nat) (rt : Z) (src src1 : Conn T St) (dst : D)
  (buf hdr : list byte) :
  (12 <= length buf)%nat ->
  ReadFull (RD := Conn_Reader fuel) fuel (SetReadTimeout rt src) 12
  = Some (src1, (hdr, None)) ->
  65524 <= BigEndian_Uint16 (slice hdr 0 2) <= 65535 ->
  PipeThenCloseOta_iter fuel rt (src, dst, buf)
  = Some (src1, dst, copy_at buf 0 hdr, Some SliceBounds).
Proof.
  intros Hbuf H1 Hlen.
  pose proof (ReadFull_length (RD := Conn_Reader fuel) _ _ _ _ _ _ H1)
    as [_ Hh].
  assert (Hhdr : length hdr = 12%nat) by (apply Hh; reflexivity). clear Hh.
  unfold PipeThenCloseOta_iter.
  change (dataLenLen + hmacSha1Len)%nat with 12%nat.
  change idxData0 with 12%nat. change dataLenLen with 2%nat.
  destruct (Nat.ltb_spec (length buf) 12) as [Hs|_]; [lia|].
  rewrite H1. cbn [bind].
  set (buf1 := copy_at buf 0 hdr).
  assert (Hb1 : firstn 12 buf1 = hdr).
  { subst buf1. rewrite <- Hhdr. apply firstn_copy_at_0. lia. }
  assert (Hlb1 : length buf1 = length buf)
    by (subst buf1; apply length_copy_at; lia).
  assert (Hdl : slice buf1 0 2 = slice hdr 0 2).
  { apply slice_prefix. rewrite <- Hb1.
    rewrite firstn_firstn_le by lia. reflexivity. }
  rewrite Hdl.
  set (dataLen := BigEndian_Uint16 (slice hdr 0 2)) in *.
  change (Z.of_nat 12) with 12.
  assert (Hhi : to_uint16 (12 + dataLen) = dataLen - 65524).
  { unfold to_uint16.
    replace (12 + dataLen) with (dataLen - 65524 + 1 * 65536) by lia.
    rewrite Z.mod_add by lia. apply Z.mod_small. lia. }
  rewrite Hhi.
  replace (Z.of_nat (length buf1) <? dataLen - 65524) with false
    by (symmetry; apply Z.ltb_ge; lia).
  replace (dataLen - 65524 <? 12) with true
    by (symmetry; apply Z.ltb_lt; lia).
  reflexivity.
Qed.

(** When some turns went on and the next one leaves the loop, the loop
    returns from that turn, provided it is allowed that many turns. *)
Lemma PipeThenCloseOta_loop_of_turns {T St D}
  {RD : Reader T} {DL : Deadline T} {SC : Stream St} {CR : Crypto}
  {WD : Writer D} (fuel : nat) (rt : Z) (n : nat) :
  forall (k : nat) (st st_n st' : Conn T St * D * list byte) (ex : OtaExit),
    PipeThenCloseOta_turns n fuel rt st = Some st_n ->
    PipeThenCloseOta_iter fuel rt st_n = Some (st', Some ex) ->
    (n < k)%nat ->
    PipeThenCloseOta_loop k fuel rt st = Some (st', ex).
Proof.
  induction n as [|n IH]; intros k st st_n st' ex Ht Hit Hk;
    (destruct k as [|k]; [lia|]); cbn [PipeThenCloseOta_loop].
  - inv Ht. rewrite Hit. reflexivity.
  - cbn [PipeThenCloseOta_turns] in Ht.
    apply bind_Some in Ht. destruct Ht as [[st1 ex1] [H1 Ht]].
    rewrite H1. cbn [bind].
    destruct ex1; [discriminate|].
    eapply IH; [exact Ht | exact Hit | lia].
Qed.

(** Turns that go on only add [Write] calls to the log of [dst], one
    each. *)
Lemma PipeThenCloseOta_turns_log {T St D}
  {RD : Reader T} {DL : Deadline T} {SC : Stream St} {CR : Crypto}
  {WD : Writer D} (fuel : nat) (rt : Z) (n : nat) :
  forall (src src' : Conn T St) (dst dst' : Logged D) (buf buf' : list byte),
    PipeThenCloseOta_turns n fuel rt (src, dst, buf) = Some (src', dst', buf') ->
    exists ed,
      calls dst' = calls dst ++ ed
      /\ closes ed = O /\ length (written ed) = n /\ length ed = n.
Proof.
  induction n as [|n IH]; intros src src' dst dst' buf buf' E.
  - inv E. exists []. rewrite app_nil_r. repeat split.
  - cbn [PipeThenCloseOta_turns] in E.
    apply bind_Some in E. destruct E as [[[[s1 d1] b1] ex1] [Hit E]].
    destruct ex1; [discriminate|].
    apply PipeThenCloseOta_iter_spec in Hit.
    destruct Hit as [(_ & _ & Hno) | (s2 & s3 & hdr & data & _ & _ & _ & _ & Hv)];
      [destruct Hno|].
    destruct Hv as [(_ & Hex & _) | (_ & n0 & werr & Hw & _)];
      [discriminate|].
    apply Logged_Write_calls in Hw.
    apply IH in E. destruct E as (ed & Hd' & Hc & Hwr & Hn).
    exists (EvWrite data n0 werr :: ed).
    rewrite Hd', Hw, <- app_assoc. repeat split.
    + exact Hc.
    + cbn [written length]. rewrite Hwr. reflexivity.
    + cbn [length]. rewrite Hn. reflexivity.
Qed.

Lemma ReadFull_Conn_iv_stable {T St} {RD : Reader T} {SC : Stream St}
  (fuel : nat) (c c' : Conn T St) (n : nat) res (v : list byte) :
  ReadFull (RD := Conn_Reader fuel) fuel c n = Some (c', res) ->
  dec (cipher c) <> None /\ iv (cipher c) = v ->
  dec (cipher c') <> None /\ iv (cipher c') = v.
Proof.
  intros E.
  apply (ReadFull_preserves (RD := Conn_Reader fuel)
           (fun a => dec (cipher a) <> None /\ iv (cipher a) = v)
           fuel c c' n res); auto.
  intros a k a' x Hr [Hd Hv]. cbn [Read Conn_Reader] in Hr.
  destruct (Conn_Read_iv_stable fuel a a' k x Hr Hd) as [Hd' Hv'].
  split; [exact Hd' | congruence].
Qed.

(** After [n] chunks the counter of the receiver has advanced [n] times,
    modulo [2^32], and the connection IV, once the decrypt state is there,
    is the one it was. *)
Lemma PipeThenCloseOta_turns_counter {T St D}
  {RD : Reader T} {DL : Deadline T} {SC : Stream St} {CR : Crypto}
  {WD : Writer D} (fuel : nat) (rt : Z) (n : nat) :
  forall (src src' : Conn T St) (dst dst' : D) (buf buf' : list byte),
    PipeThenCloseOta_turns n fuel rt (src, dst, buf) = Some (src', dst', buf') ->
    (n = O -> chunkId src' = chunkId src)
    /\ (n <> O -> chunkId src' = to_uint32 (chunkId src + Z.of_nat n))
    /\ (dec (cipher src) <> None ->
        dec (cipher src') <> None /\ iv (cipher src') = iv (cipher src)).
Proof.
  induction n as [|n IH]; intros src src' dst dst' buf buf' E.
  - inv E. repeat split; auto. congruence.
  - cbn [PipeThenCloseOta_turns] in E.
    apply bind_Some in E. destruct E as [[[[s1 d1] b1] ex1] [Hit E]].
    destruct ex1; [discriminate|].
    apply PipeThenCloseOta_iter_spec in Hit.
    destruct Hit as [(_ & _ & Hno) | (s2 & s3 & hdr & data & H1 & _ & H2 & Hs & _)];
      [destruct Hno|].
    apply IH in E. destruct E as (Hz & Hn & Hiv).
    assert (Hid1 : chunkId s1 = to_uint32 (chunkId src + 1))
      by (rewrite Hs; reflexivity).
    assert (Hc1 : cipher s1 = cipher s3) by (rewrite Hs; reflexivity).
    split; [discriminate|]. split.
    + intros _. destruct n as [|n].
      * rewrite (Hz eq_refl), Hid1. reflexivity.
      * rewrite Hn by discriminate. rewrite Hid1. unfold to_uint32.
        rewrite Z.add_mod_idemp_l by lia. f_equal. lia.
    + intros Hd. rewrite Hc1 in Hiv.
      assert (H0 : dec (cipher (SetReadTimeout rt src)) <> None
                   /\ iv (cipher (SetReadTimeout rt src)) = iv (cipher src))
        by (destruct (chunkId_SetReadTimeout rt src) as [_ ->]; auto).
      pose proof (ReadFull_Conn_iv_stable _ _ _ _ _ _ H1 H0) as H1'.
      pose proof (ReadFull_Conn_iv_stable _ _ _ _ _ _ H2 H1') as [Hd3 Hv3].
      destruct (Hiv Hd3) as [Hd' Hv']. split; [exact Hd' | congruence].
Qed.

(** C1.  (1) The turn of a chunk (a header of 12 bytes, then the data it
    declares) whose recomputed tag differs from the tag in the header
    returns, leaves the loop, and hands [dst] back untouched.  (2) A turn
    calls [dst.Write] only when the two tags are equal, and then once, with
    the chunk's data.  (3) When such a chunk comes after [n] chunks that
    were forwarded, [PipeThenCloseOta] returns, and [dst] is what it was
    after these [n] chunks, closed by the deferred [Close]; on the log of
    [dst]: [n] writes, nothing for the chunk that failed, one [Close]. *)
Theorem PipeThenCloseOta_mismatch_stops {T St D}
  {RD : Reader T} {DL : Deadline T} {SC : Stream St} {CR : Crypto}
  {WD : Writer D} {CD : Closer D} (fuel : nat) (rt : Z) :
  (forall (src src1 src2 : Conn T St) (dst : D) (buf hdr data : list byte),
      (12 <= length buf)%nat ->
      ReadFull (RD := Conn_Reader fuel) fuel (SetReadTimeout rt src) 12
      = Some (src1, (hdr, None)) ->
      0 <= BigEndian_Uint16 (slice hdr 0 2) <= 65523 ->
      ReadFull (RD := Conn_Reader fuel) fuel src1
        (Z.to_nat (BigEndian_Uint16 (slice hdr 0 2)))
      = Some (src2, (data, None)) ->
      slice hdr 2 12
      <> HmacSha1 (iv (cipher src2) ++ BigEndian_PutUint32 (chunkId src))
           data ->
      exists buf',
        PipeThenCloseOta_iter fuel rt (src, dst, buf)
        = Some (set_chunkId src2 (to_uint32 (chunkId src + 1)), dst, buf',
                Some (HmacMismatch (chunkId src) (slice hdr 2 12)
                        (HmacSha1 (iv (cipher src2)
                                     ++ BigEndian_PutUint32 (chunkId src))
                           data))))
  /\ (forall (src src' : Conn T St) (dst dst' : Logged D)
             (buf buf' : list byte) (ex : option OtaExit),
         PipeThenCloseOta_iter fuel rt (src, dst, buf)
         = Some (src', dst', buf', ex) ->
         calls dst' <> calls dst ->
         exists src1 src2 hdr data n werr,
           ReadFull (RD := Conn_Reader fuel) fuel (SetReadTimeout rt src) 12
           = Some (src1, (hdr, None))
           /\ ReadFull (RD := Conn_Reader fuel) fuel src1 (length data)
              = Some (src2, (data, None))
           /\ slice hdr 2 12
              = HmacSha1 (iv (cipher src2)
                            ++ BigEndian_PutUint32 (chunkId src)) data
           /\ calls dst' = calls dst ++ [EvWrite data n werr])
  /\ (forall (lb : LeakyBuf) (src src_n src1 src2 : Conn T St)
             (dst dst_n : Logged D) (buf_n hdr data : list byte) (n : nat),
         (n < fuel)%nat ->
         PipeThenCloseOta_turns n fuel rt (src, dst, fst (LeakyBuf_Get lb))
         = Some (src_n, dst_n, buf_n) ->
         (12 <= length buf_n)%nat ->
         ReadFull (RD := Conn_Reader fuel) fuel (SetReadTimeout rt src_n) 12
         = Some (src1, (hdr, None)) ->
         0 <= BigEndian_Uint16 (slice hdr 0 2) <= 65523 ->
         ReadFull (RD := Conn_Reader fuel) fuel src1
           (Z.to_nat (BigEndian_Uint16 (slice hdr 0 2)))
         = Some (src2, (data, None)) ->
         slice hdr 2 12
         <> HmacSha1 (iv (cipher src2) ++ BigEndian_PutUint32 (chunkId src_n))
              data ->
         exists lb' ed,
           PipeThenCloseOta fuel rt lb src dst
           = Some (lb', set_chunkId src2 (to_uint32 (chunkId src_n + 1)),
                   fst (Close dst_n),
                   HmacMismatch (chunkId src_n) (slice hdr 2 12)
                     (HmacSha1 (iv (cipher src2)
                                  ++ BigEndian_PutUint32 (chunkId src_n))
                        data))
           /\ calls (fst (Close dst_n)) = calls dst ++ ed ++ [EvClose]
           /\ closes ed = O
           /\ length (written ed) = n
           /\ length ed = n).
Proof.
  assert (Hturn :
    forall (D0 : Type) (WD0 : Writer D0)
           (src src1 src2 : Conn T St) (dst : D0) (buf hdr data : list byte),
      (12 <= length buf)%nat ->
      ReadFull (RD := Conn_Reader fuel) fuel (SetReadTimeout rt src) 12
      = Some (src1, (hdr, None)) ->
      0 <= BigEndian_Uint16 (slice hdr 0 2) <= 65523 ->
      ReadFull (RD := Conn_Reader fuel) fuel src1
        (Z.to_nat (BigEndian_Uint16 (slice hdr 0 2)))
      = Some (src2, (data, None)) ->
      slice hdr 2 12
      <> HmacSha1 (iv (cipher src2) ++ BigEndian_PutUint32 (chunkId src))
           data ->
      exists buf',
        PipeThenCloseOta_iter fuel rt (src, dst, buf)
        = Some (set_chunkId src2 (to_uint32 (chunkId src + 1)), dst, buf',
                Some (HmacMismatch (chunkId src) (slice hdr 2 12)
                        (HmacSha1 (iv (cipher src2)
                                     ++ BigEndian_PutUint32 (chunkId src))
                           data)))).
  { intros D0 WD0 src src1 src2 dst buf hdr data Hbuf H1 Hlen H2 Hne.
    destruct (PipeThenCloseOta_iter_chunk fuel rt src src1 src2 dst buf hdr
                data Hbuf H1 Hlen H2) as [buf' Hit].
    exists buf'. rewrite Hit. cbv zeta.
    destruct (bytes_Equal (slice hdr 2 12)
                (HmacSha1 (iv (cipher src2)
                             ++ BigEndian_PutUint32 (chunkId src)) data))
      eqn:Heq; [|reflexivity].
    apply bytes_Equal_eq in Heq. contradiction. }
  split; [|split].
  - apply Hturn.
  - intros src src' dst dst' buf buf' ex E Hch.
    apply PipeThenCloseOta_iter_spec in E.
    destruct E as [(Hd & _) | (s1 & s2 & hdr & data & H1 & _ & H2 & _ & Hv)];
      [subst dst'; contradiction|].
    destruct Hv as [(_ & _ & Hd) | (Heq & n & werr & Hw & _)];
      [subst dst'; contradiction|].
    apply Logged_Write_calls in Hw.
    exists s1, s2, hdr, data, n, werr. repeat split; assumption.
  - intros lb src src_n src1 src2 dst dst_n buf_n hdr data n
           Hn Ht Hbuf H1 Hlen H2 Hne.
    destruct (Hturn _ _ src_n src1 src2 dst_n buf_n hdr data
                Hbuf H1 Hlen H2 Hne) as [buf' Hit].
    pose proof (PipeThenCloseOta_loop_of_turns fuel rt n fuel _ _ _ _
                  Ht Hit Hn) as Hl.
    pose proof (PipeThenCloseOta_turns_log fuel rt n _ _ _ _ _ _ Ht)
      as (ed & Hd & Hc & Hw & He).
    unfold PipeThenCloseOta.
    destruct (LeakyBuf_Get lb) as [buf lb1]. cbn [fst] in Hl.
    rewrite Hl. cbn [bind].
    cbn [Close Logged_Closer].
    destruct (Close (inner dst_n)) as [t e] eqn:Hcl.
    eexists. exists ed. split; [reflexivity|].
    cbn [fst calls]. rewrite Hd, <- app_assoc.
    repeat split; assumption.
Qed.

Lemma PipeThenCloseOta_mismatch_stops_witness :
  exists lb' src' dst' id expected actual,
    ota_relay (tamper ota_sent)
    = Some (lb', src', dst', HmacMismatch id expected actual)
    /\ expected <> actual
    /\ calls dst' = [EvWrite [1; 2; 3] 3 None; EvClose]
    /\ closed (inner dst') = true.
Proof.
  unfold ota_relay.
  destruct (PipeThenCloseOta_turns (CR := toy_crypto false) 1 8 0
              (ota_src (tamper ota_sent), relay_dst,
               fst (LeakyBuf_Get small_pool)))
    as [[[src_n dst_n] buf_n]|] eqn:Et; [|vm_compute in Et; discriminate].
  destruct (ReadFull (RD := Conn_Reader 8) 8 (SetReadTimeout 0 src_n) 12)
    as [[src1 [hdr e1]]|] eqn:E1.
  2:{ vm_compute in Et. injection Et as <- _ _. vm_compute in E1.
      discriminate. }
  destruct (ReadFull (RD := Conn_Reader 8) 8 src1
              (Z.to_nat (BigEndian_Uint16 (slice hdr 0 2))))
    as [[src2 [data e2]]|] eqn:E2.
  2:{ vm_compute in Et. injection Et as <- _ _. vm_compute in E1.
      injection E1 as <- <- _. vm_compute in E2. discriminate. }
  assert (Hfacts :
    e1 = None /\ e2 = None /\ (12 <= length buf_n)%nat
    /\ 0 <= BigEndian_Uint16 (slice hdr 0 2) <= 65523
    /\ slice hdr 2 12
       <> HmacSha1 (CR := toy_crypto false)
            (iv (cipher src2) ++ BigEndian_PutUint32 (chunkId src_n)) data
    /\ calls (fst (Close dst_n)) = [EvWrite [1; 2; 3] 3 None; EvClose]
    /\ closed (inner (fst (Close dst_n))) = true).
  { vm_compute in Et. injection Et as <- <- <-.
    vm_compute in E1. injection E1 as <- <- <-.
    vm_compute in E2. injection E2 as <- <- <-.
    repeat split; try reflexivity; try (vm_compute; discriminate).
    vm_compute. lia. }
  destruct Hfacts as (-> & -> & Hbuf & Hlen & Hne & Hcalls & Hclosed).
  destruct (proj2 (proj2 (PipeThenCloseOta_mismatch_stops
                            (CR := toy_crypto false) 8 0))
              small_pool (ota_src (tamper ota_sent)) src_n src1 src2
              relay_dst dst_n buf_n hdr data 1%nat
              ltac:(lia) Et Hbuf E1 Hlen E2 Hne)
    as (lb' & ed & Hret & _).
  do 6 eexists. split; [exact Hret|].
  split; [exact Hne|]. split; [exact Hcalls | exact Hclosed].
Defined.

(** C5.  A connection starts with the counter 0.  After [N - 1] chunks were
    verified and forwarded the counter is [(N - 1) mod 2^32].  The turn of
    the [N]th chunk (a header [hdr] of 12 bytes, then the data [data] it
    declares) moves the counter to [N mod 2^32] and compares the tag of the
    header with the first 10 bytes of HMAC-SHA1 of [data] under the key
    "connection IV followed by [(N - 1) mod 2^32] as 4 bytes, big-endian":
    it forwards [data] when they are equal and leaves the loop with the
    mismatch when not.  The connection IV is the one the connection had when
    the relay started, if its decrypt state was there. *)
Theorem PipeThenCloseOta_chunk_tag {T St D}
  {RD : Reader T} {DL : Deadline T} {SC : Stream St} {CR : Crypto}
  {WD : Writer D} (fuel : nat) (rt : Z) (N : nat)
  (lb : LeakyBuf) (t : T) (ci : Cipher St)
  (src0 src src1 src2 : Conn T St) (dst0 dst : D)
  (buf0 buf hdr data : list byte) :
  (1 <= N)%nat ->
  chunkId src0 = 0 ->
  PipeThenCloseOta_turns (N - 1) fuel rt (src0, dst0, buf0)
  = Some (src, dst, buf) ->
  (12 <= length buf)%nat ->
  ReadFull (RD := Conn_Reader fuel) fuel (SetReadTimeout rt src) 12
  = Some (src1, (hdr, None)) ->
  0 <= BigEndian_Uint16 (slice hdr 0 2) <= 65523 ->
  ReadFull (RD := Conn_Reader fuel) fuel src1
    (Z.to_nat (BigEndian_Uint16 (slice hdr 0 2)))
  = Some (src2, (data, None)) ->
  chunkId (fst (NewConn lb t ci)) = 0
  /\ chunkId src = (Z.of_nat N - 1) mod 2 ^ 32
  /\ (dec (cipher src0) <> None -> iv (cipher src2) = iv (cipher src0))
  /\ exists buf',
      PipeThenCloseOta_iter fuel rt (src, dst, buf)
      = let src' := set_chunkId src2 (Z.of_nat N mod 2 ^ 32) in
        let tag :=
          firstn 10
            (hmac_sha1
               (iv (cipher src2)
                  ++ BigEndian_PutUint32 ((Z.of_nat N - 1) mod 2 ^ 32))
               data) in
        if bytes_Equal (slice hdr 2 12) tag
        then ' (dst', (_, werr)) <- Write dst data ;;
             Some (src', dst', buf', option_map WriteError werr)
        else Some (src', dst, buf',
                   Some (HmacMismatch ((Z.of_nat N - 1) mod 2 ^ 32)
                           (slice hdr 2 12) tag)).
Proof.
  intros HN H0 Ht Hbuf H1 Hlen H2.
  split.
  { unfold NewConn. destruct (LeakyBuf_Get lb) as [rb lb1].
    destruct (LeakyBuf_Get lb1). reflexivity. }
  pose proof (PipeThenCloseOta_turns_counter _ _ _ _ _ _ _ _ _ Ht)
    as (_ & Hn & Hiv).
  assert (Hid : chunkId src = (Z.of_nat N - 1) mod 2 ^ 32).
  { destruct (Nat.eq_dec (N - 1) 0) as [Hz|Hnz].
    - rewrite Hz in Ht. inv Ht. rewrite H0.
      replace (Z.of_nat N - 1) with 0 by lia. reflexivity.
    - rewrite (Hn Hnz), H0. unfold to_uint32. f_equal. lia. }
  split; [exact Hid|]. split.
  { intros Hd. destruct (Hiv Hd) as [Hd' Hv'].
    assert (Hx : dec (cipher (SetReadTimeout rt src)) <> None
                 /\ iv (cipher (SetReadTimeout rt src)) = iv (cipher src0))
      by (destruct (chunkId_SetReadTimeout rt src) as [_ ->]; auto).
    pose proof (ReadFull_Conn_iv_stable _ _ _ _ _ _ H1 Hx) as H1'.
    pose proof (ReadFull_Conn_iv_stable _ _ _ _ _ _ H2 H1') as [_ Hv3].
    exact Hv3. }
  destruct (PipeThenCloseOta_iter_chunk fuel rt src src1 src2 dst buf hdr
              data Hbuf H1 Hlen H2) as [buf' Hit].
  exists buf'. rewrite Hit. unfold HmacSha1. rewrite Hid.
  replace (to_uint32 ((Z.of_nat N - 1) mod 2 ^ 32 + 1))
    with (Z.of_nat N mod 2 ^ 32); [reflexivity|].
  unfold to_uint32. change (2 ^ 32) with 4294967296.
  rewrite Z.add_mod_idemp_l by lia. f_equal. lia.
Qed.

Lemma PipeThenCloseOta_chunk_tag_witness :
  exists src dst buf src' buf' expected,
    PipeThenCloseOta_turns (CR := toy_crypto false) (2 - 1) 8 0
      (ota_src (tamper ota_sent), relay_dst, make 32)
    = Some (src, dst, buf)
    /\ PipeThenCloseOta_iter (CR := toy_crypto false) 8 0 (src, dst, buf)
       = Some (src', dst, buf',
               Some (HmacMismatch 1 expected
                       (firstn 10
                          (toy_digest ([7; 7; 7; 7] ++ [0; 0; 0; 1]) [4; 4]))))
    /\ chunkId src = 1
    /\ chunkId src' = 2.
Proof.
  destruct (PipeThenCloseOta_turns (CR := toy_crypto false) (2 - 1) 8 0
              (ota_src (tamper ota_sent), relay_dst, make 32))
    as [[[src_n dst_n] buf_n]|] eqn:Et; [|vm_compute in Et; discriminate].
  destruct (ReadFull (RD := Conn_Reader 8) 8 (SetReadTimeout 0 src_n) 12)
    as [[src1 [hdr e1]]|] eqn:E1.
  2:{ vm_compute in Et. injection Et as <- _ _. vm_compute in E1.
      discriminate. }
  destruct (ReadFull (RD := Conn_Reader 8) 8 src1
              (Z.to_nat (BigEndian_Uint16 (slice hdr 0 2))))
    as [[src2 [data e2]]|] eqn:E2.
  2:{ vm_compute in Et. injection Et as <- _ _. vm_compute in E1.
      injection E1 as <- <- _. vm_compute in E2. discriminate. }
  assert (Hfacts :
    e1 = None /\ e2 = None /\ (12 <= length buf_n)%nat
    /\ 0 <= BigEndian_Uint16 (slice hdr 0 2) <= 65523
    /\ iv (cipher src2) = [7; 7; 7; 7] /\ data = [4; 4]
    /\ bytes_Equal (slice hdr 2 12)
         (firstn 10 (toy_digest ([7; 7; 7; 7] ++ [0; 0; 0; 1]) [4; 4]))
       = false).
  { vm_compute in Et. injection Et as <- <- <-.
    vm_compute in E1. injection E1 as <- <- <-.
    vm_compute in E2. injection E2 as <- <- <-.
    repeat split; try reflexivity; try (vm_compute; discriminate).
    vm_compute. lia. }
  destruct Hfacts as (-> & -> & Hbuf & Hlen & Hiv & Hdata & Hneq).
  destruct (PipeThenCloseOta_chunk_tag (CR := toy_crypto false) 8 0 2
              small_pool (wire []) (counter_cipher 4 true)
              (ota_src (tamper ota_sent)) src_n src1 src2
              relay_dst dst_n (make 32) buf_n hdr data
              ltac:(lia) eq_refl Et Hbuf E1 Hlen E2)
    as (_ & Hid & _ & buf' & Hit).
  exists src_n, dst_n, buf_n, (set_chunkId src2 (Z.of_nat 2 mod 2 ^ 32)),
    buf', (slice hdr 2 12).
  split; [reflexivity|]. split; [|split; [exact Hid | reflexivity]].
  rewrite Hit. cbv zeta. rewrite Hiv, Hdata.
  change (BigEndian_PutUint32 ((Z.of_nat 2 - 1) mod 2 ^ 32)) with [0; 0; 0; 1].
  change (hmac_sha1 ([7; 7; 7; 7] ++ [0; 0; 0; 1]) [4; 4])
    with (toy_digest ([7; 7; 7; 7] ++ [0; 0; 0; 1]) [4; 4]).
  rewrite Hneq. reflexivity.
Defined.

(* ================================================================= *)
(** ** [GetIv] and [GetKey] on the heap *)

Module MemFacts.
Import Mem.

Lemma array_alloc (h : heap) (a : list byte) (i : nat) :
  (i < length h)%nat -> array (h ++ [a]) i = array h i.
Proof. intros Hi. unfold array. apply app_nth1. exact Hi. Qed.

Lemma array_alloc_new (h : heap) (a : list byte) :
  array (h ++ [a]) (length h) = a.
Proof. unfold array. apply nth_middle. Qed.

Lemma array_set_same (h : heap) (i : nat) (bs : list byte) :
  (i < length h)%nat -> array (set_array h i bs) i = bs.
Proof.
  intros Hi. unfold array, set_array.
  pose proof (nth_middle (firstn i h) (skipn (S i) h) bs []) as Hm.
  rewrite length_firstn, Nat.min_l in Hm by lia. exact Hm.
Qed.

Lemma array_set_other (h : heap) (i j : nat) (bs : list byte) :
  (i < length h)%nat -> i <> j -> array (set_array h i bs) j = array h j.
Proof.
  intros Hi Hij. unfold array, set_array.
  destruct (Nat.lt_ge_cases j i) as [Hlt|Hge].
  - rewrite app_nth1 by (rewrite length_firstn; lia).
    rewrite nth_firstn.
    destruct (Nat.ltb_spec j i); [reflexivity | lia].
  - rewrite app_nth2 by (rewrite length_firstn; lia).
    rewrite length_firstn, Nat.min_l by lia.
    destruct (j - i)%nat as [|k] eqn:Hk; [lia|].
    cbn [nth]. rewrite nth_skipn. f_equal. lia.
Qed.

Lemma length_set_array (h : heap) (i : nat) (bs : list byte) :
  (i < length h)%nat -> length (set_array h i bs) = length h.
Proof.
  intros Hi. unfold set_array.
  rewrite length_app, length_firstn. cbn [length].
  rewrite length_skipn. lia.
Qed.

Lemma length_contents (h : heap) (s : slice_t) :
  valid h s -> length (contents h s) = len s.
Proof.
  intros (_ & Hl & Hc). unfold contents.
  rewrite length_slice; lia.
Qed.

(** Allocation leaves every slice of the old heap as it was. *)
Lemma contents_alloc (h : heap) (a : list byte) (s : slice_t) :
  valid h s -> contents (h ++ [a]) s = contents h s /\ valid (h ++ [a]) s.
Proof.
  intros (Ha & Hl & Hc). unfold contents, valid.
  rewrite array_alloc by exact Ha.
  repeat split; auto. rewrite length_app. lia.
Qed.

(** A store into another array leaves a slice as it was. *)
Lemma contents_set_other (h : heap) (i : nat) (bs : list byte) (s : slice_t) :
  (i < length h)%nat -> i <> arr s ->
  contents (set_array h i bs) s = contents h s.
Proof.
  intros Hi Hne. unfold contents. rewrite array_set_other by assumption.
  reflexivity.
Qed.

(** What [GetIv] and [GetKey] do for a slice [src] of the session: a new
    array holds a copy of it. *)
Lemma copy_of_slice (h : heap) (src : slice_t) :
  valid h src ->
  let '(v, h1) := make_slice h (len src) in
  let h2 := copy h1 v src in
  arr v = length h /\ off v = O /\ len v = len src /\ cap v = len src
  /\ length h2 = S (length h)
  /\ array h2 (length h) = contents h src
  /\ forall s, valid h s -> contents h2 s = contents h s.
Proof.
  intros Hv. cbn [make_slice]. cbv zeta.
  destruct (contents_alloc h (make (len src)) src Hv) as [Hc1 Hv1].
  pose proof (length_contents h src Hv) as Hlen.
  assert (Hnew : (length h < length (h ++ [make (len src)]))%nat)
    by (rewrite length_app; simpl; lia).
  repeat split.
  - unfold copy. cbn [arr]. rewrite length_set_array by exact Hnew.
    rewrite length_app. simpl. lia.
  - unfold copy. cbn [arr off len].
    rewrite array_set_same by exact Hnew.
    rewrite array_alloc_new, Nat.min_id, Hc1.
    rewrite firstn_all2 by lia.
    apply copy_at_all. rewrite length_make. symmetry. exact Hlen.
  - intros s Hs. unfold copy. cbn [arr].
    destruct Hs as (Ha & Hl & Hc).
    rewrite contents_set_other by (try exact Hnew; lia).
    apply contents_alloc. repeat split; assumption.
Qed.

End MemFacts.

Lemma contents_alloc_lt (h : Mem.heap) (a : list byte) (s : Mem.slice_t) :
  (Mem.arr s < length h)%nat -> Mem.contents (h ++ [a]) s = Mem.contents h s.
Proof.
  intros Ha. unfold Mem.contents.
  rewrite MemFacts.array_alloc by exact Ha. reflexivity.
Qed.

Lemma slice_0_app (x y : list byte) (n : nat) :
  n = length x -> slice (x ++ y) 0 (0 + n) = x.
Proof.
  intros ->. unfold slice. cbn [Nat.add skipn]. rewrite Nat.sub_0_r.
  rewrite firstn_app, firstn_all, Nat.sub_diag. cbn [firstn].
  apply app_nil_r.
Qed.

Lemma fresh_copy_of_slice (grow : nat -> nat) (h : Mem.heap)
  (src : Mem.slice_t) :
  Mem.valid h src ->
  fresh_copy grow h src
    (let '(v, h1) := Mem.make_slice h (Mem.len src) in (v, Mem.copy h1 v src)).
Proof.
  intros Hv.
  pose proof (MemFacts.copy_of_slice h src Hv) as Hc.
  pose proof (MemFacts.length_contents h src Hv) as Hlen.
  destruct (Mem.make_slice h (Mem.len src)) as [v h1].
  cbv zeta in Hc. destruct Hc as (Ha & Ho & Hl & Hcap & Hlh & Harr & Hfr).
  set (h2 := Mem.copy h1 v src) in *.
  set (X := Mem.contents h src) in *.
  assert (Hnew : (length h < length h2)%nat) by lia.
  assert (Hv2 : Mem.contents h2 v = X).
  { unfold Mem.contents. rewrite Ha, Ho, Hl, Harr.
    rewrite <- (app_nil_r X) at 1. apply slice_0_app. symmetry; exact Hlen. }
  unfold fresh_copy.
  split; [exact Ha|]. split; [exact Hv2|]. split; [exact Hfr|].
  split; [|split].
  - intros i x s Hi Hs. unfold Mem.set_index. rewrite Ha.
    rewrite MemFacts.contents_set_other.
    + apply Hfr; exact Hs.
    + exact Hnew.
    + destruct Hs as (Hs & _). lia.
  - intros bs s Hs. unfold Mem.append.
    destruct (Mem.len v + length bs <=? Mem.cap v)%nat; cbn [snd].
    + rewrite Ha. rewrite MemFacts.contents_set_other.
      * apply Hfr; exact Hs.
      * exact Hnew.
      * destruct Hs as (Hs & _). lia.
    + rewrite contents_alloc_lt by (destruct Hs as (Hs & _); lia).
      apply Hfr; exact Hs.
  - intros bs. unfold Mem.append.
    destruct (Nat.leb_spec (Mem.len v + length bs) (Mem.cap v)) as [Hfit|Hgrow];
      cbn [fst snd].
    + assert (Hbs : bs = []) by (destruct bs; [reflexivity | simpl in Hfit; lia]).
      subst bs. rewrite app_nil_r.
      unfold Mem.contents at 1. cbn [Mem.arr Mem.off Mem.len].
      rewrite Ha, MemFacts.array_set_same by exact Hnew.
      rewrite Harr, Ho, Hl. cbn [length].
      unfold copy_at. cbn [length Nat.min firstn]. rewrite Nat.min_0_r.
      cbn [firstn app Nat.add]. rewrite Nat.add_0_r.
      rewrite firstn_skipn.
      rewrite <- (app_nil_r X) at 1. apply slice_0_app.
      subst X. symmetry. exact Hlen.
    + unfold Mem.contents at 1. cbn [Mem.arr Mem.off Mem.len].
      rewrite MemFacts.array_alloc_new, Hv2.
      rewrite app_assoc. apply slice_0_app.
      rewrite length_app. subst X. lia.
Qed.

(** C10.  [GetIv] and [GetKey] return a slice of a newly allocated array
    whose contents are those of the stored IV and key; overwriting a byte of
    the returned slice, or appending to it, changes no slice that existed
    before, so not the stored IV and key; and the key of a chunk's tag in the
    OTA relay, [append(src.GetIv(), chunkIdBytes...)], is the stored IV
    followed by the chunk id bytes and leaves the stored IV and key as they
    were.  On values [GetIv] and [GetKey] are therefore the identity. *)
Theorem GetIv_GetKey_fresh_copies (grow : nat -> nat) (h : Mem.heap)
  (c : Mem.session) :
  Mem.valid h (Mem.iv_s c) ->
  Mem.valid h (Mem.key_s c) ->
  fresh_copy grow h (Mem.iv_s c) (Mem.GetIv h c)
  /\ fresh_copy grow h (Mem.key_s c) (Mem.GetKey h c)
  /\ (forall chunkIdBytes,
         Mem.valid h chunkIdBytes ->
         let '(k, h') := Mem.tag_key grow h c chunkIdBytes in
         Mem.contents h' k
         = Mem.contents h (Mem.iv_s c) ++ Mem.contents h chunkIdBytes
         /\ Mem.contents h' (Mem.iv_s c) = Mem.contents h (Mem.iv_s c)
         /\ Mem.contents h' (Mem.key_s c) = Mem.contents h (Mem.key_s c))
  /\ (forall (T St : Type) (x : Conn T St),
         Conn_GetIv x = iv (cipher x) /\ Conn_GetKey x = key (cipher x)).
Proof.
  intros Hiv Hkey.
  pose proof (fresh_copy_of_slice grow h (Mem.iv_s c) Hiv) as Fiv.
  pose proof (fresh_copy_of_slice grow h (Mem.key_s c) Hkey) as Fkey.
  split; [exact Fiv|]. split; [exact Fkey|]. split.
  - intros cb Hcb. unfold Mem.tag_key.
    change (Mem.GetIv h c)
      with (let '(v, h1) := Mem.make_slice h (Mem.len (Mem.iv_s c)) in
            (v, Mem.copy h1 v (Mem.iv_s c))).
    destruct (let '(v, h1) := Mem.make_slice h (Mem.len (Mem.iv_s c)) in
              (v, Mem.copy h1 v (Mem.iv_s c))) as [v h1].
    destruct Fiv as (_ & _ & Hfr & _ & Happ & Hres).
    rewrite (Hfr cb Hcb).
    specialize (Hres (Mem.contents h cb)).
    pose proof (Happ (Mem.contents h cb) (Mem.iv_s c) Hiv) as H1.
    pose proof (Happ (Mem.contents h cb) (Mem.key_s c) Hkey) as H2.
    destruct (Mem.append grow h1 v (Mem.contents h cb)) as [k h'].
    cbn [fst snd] in *. repeat split; assumption.
  - intros T St x. split; apply copy_at_make.
Qed.

Lemma GetIv_GetKey_fresh_copies_witness :
  fresh_copy (fun n => 2 * n)%nat heap0 (Mem.iv_s session0)
    (Mem.GetIv heap0 session0)
  /\ Mem.contents heap0 (Mem.iv_s session0) = [7; 7; 7; 7]
  /\ Mem.contents (snd (Mem.GetIv heap0 session0))
       (fst (Mem.GetIv heap0 session0)) = [7; 7; 7; 7]
  /\ Mem.arr (fst (Mem.GetIv heap0 session0)) = 2%nat.
Proof.
  split; [|repeat split].
  apply (GetIv_GetKey_fresh_copies (fun n => 2 * n)%nat heap0 session0).
  - unfold Mem.valid; simpl; lia.
  - unfold Mem.valid; simpl; lia.
Defined.

(* ================================================================= *)
(** ** On the scripted transport every read returns *)

Lemma Wire_Read_total (w : Wire) (k : nat) :
  exists w' bs e,
    Wire_Read w k = Some (w', (bs, e))
    /\ (length (incoming w') <= length (incoming w))%nat
    /\ (e = None ->
        (length (incoming w') < length (incoming w))%nat
        \/ length bs = k).
Proof.
  unfold Wire_Read. destruct (incoming w) as [|[seg se] rest] eqn:Hi.
  - exists w, [], (Some EOF). rewrite Hi. repeat split; auto. discriminate.
  - destruct (Nat.leb_spec (length seg) k).
    + do 3 eexists. split; [reflexivity|]. cbn. split; [lia|].
      intros _. left. lia.
    + do 3 eexists. split; [reflexivity|]. cbn. split; [lia|].
      intros _. right. rewrite length_firstn. lia.
Qed.

Lemma Wire_ReadAtLeast_total (fuel : nat) :
  forall (w : Wire) (min : nat) (got : list byte),
    (length (incoming w) < fuel)%nat ->
    (length got <= min)%nat ->
    exists w' got' e,
      ReadAtLeast_loop fuel w min got = Some (w', (got', e))
      /\ (length (incoming w') <= length (incoming w))%nat.
Proof.
  induction fuel as [|fuel IH]; intros w min got Hf Hg; [lia|].
  cbn [ReadAtLeast_loop].
  destruct (Nat.ltb_spec (length got) min) as [Hlt|Hge].
  2:{ do 3 eexists. split; [reflexivity | lia]. }
  cbn [Read Wire_Reader].
  destruct (Wire_Read_total w (min - length got))
    as (w1 & bs & e & Hr & Hle & Hprog).
  pose proof (Wire_Read_bound _ _ _ _ _ Hr) as Hb.
  rewrite Hr. cbn [bind].
  destruct e as [e|].
  - do 3 eexists. split; [reflexivity | exact Hle].
  - destruct (Hprog eq_refl) as [Hshorter|Hfull].
    + destruct (IH w1 min (got ++ bs)) as (w2 & got2 & e2 & H2 & Hle2).
      * lia.
      * rewrite length_app. lia.
      * do 3 eexists. split; [exact H2 | lia].
    + destruct fuel as [|fuel]; cbn [ReadAtLeast_loop];
        (destruct (Nat.ltb_spec (length (got ++ bs)) min) as [Hx|_];
         [rewrite length_app in Hx; lia|]);
        do 3 eexists; (split; [reflexivity | exact Hle]).
Qed.

Lemma Wire_ReadFull_total (fuel : nat) (w : Wire) (n : nat) :
  (length (incoming w) < fuel)%nat ->
  exists w' got e,
    ReadFull fuel w n = Some (w', (got, e))
    /\ (length (incoming w') <= length (incoming w))%nat.
Proof.
  intros Hf. unfold ReadFull.
  destruct (Wire_ReadAtLeast_total fuel w n [] Hf ltac:(simpl; lia))
    as (w' & got & e & H & Hle).
  rewrite H. cbn [bind]. do 3 eexists. split; [reflexivity | exact Hle].
Qed.

(** [Conn.Read] on the scripted transport returns, given fuel for one
    read per segment that is still to arrive: the handshake cannot hang and
    the decrypt stream is there when it is used. *)
Lemma Conn_Read_Wire_returns {St} {SC : Stream St}
  (fuel : nat) (c : Conn Wire St) (k : nat) :
  (length (incoming (conn c)) < fuel)%nat ->
  exists c' b err, Conn_Read fuel c k = Some (c', (b, err)).
Proof.
  intros Hf. unfold Conn_Read.
  assert (Hpay : forall c1 : Conn Wire St,
             dec (cipher c1) <> None ->
             exists c' b err,
               (' (t, (bs, err)) <-
                  Read (conn c1) (length (scratch (readBuf c1) k)) ;;
                let n := length bs in
                let cipherData := copy_at (scratch (readBuf c1) k) 0 bs in
                let c2 := set_readBuf (set_conn c1 t)
                            (scratch_back (readBuf c1) k cipherData) in
                if (0 <? n)%nat then
                  ' (ci, b) <- decrypt (cipher c2) (firstn n cipherData) ;;
                  Some (set_cipher c2 ci, (b, err))
                else Some (c2, ([], err)))
               = Some (c', (b, err))).
  { intros c1 Hd. cbn [Read Wire_Reader].
    destruct (Wire_Read_total (conn c1) (length (scratch (readBuf c1) k)))
      as (w1 & bs & e & Hr & _).
    rewrite Hr. cbn [bind]. cbv zeta.
    destruct (0 <? length bs)%nat; [|do 3 eexists; reflexivity].
    unfold decrypt. cbn [cipher set_readBuf set_conn].
    destruct (dec (cipher c1)) as [s|]; [|congruence].
    destruct (XORKeyStream s _) as [s' out]. cbn [bind].
    do 3 eexists. reflexivity. }
  destruct (dec (cipher c)) as [s|] eqn:Hd.
  - cbn [bind]. apply Hpay. congruence.
  - destruct (Wire_ReadFull_total fuel (conn c) (ivLen (info (cipher c))) Hf)
      as (w1 & got & e & Hrf & _).
    rewrite Hrf. cbn [bind].
    destruct e as [e|]; [cbn [bind]; do 3 eexists; reflexivity|].
    unfold initDecrypt. cbn [cipher set_conn].
    destruct (newStream (info (cipher c)) (key (cipher c)) _ Decrypt)
      as [s|e]; [|cbn [bind]; do 3 eexists; reflexivity].
    cbn [cipher set_cipher set_dec iv].
    destruct (length (iv (cipher c)) =? 0)%nat; cbn [bind];
      apply Hpay; cbn; discriminate.
Qed.

(* ================================================================= *)
(** ** More on the address record *)

Lemma LastIndexByte_none (s : gostring) (c : byte) :
  ~ In c s -> GoStd.LastIndexByte s c = None.
Proof.
  induction s as [|x s IH]; intros Hn; [reflexivity|].
  cbn [GoStd.LastIndexByte].
  rewrite IH by (intros H; apply Hn; right; exact H).
  destruct (Z.eqb_spec x c) as [->|_]; [|reflexivity].
  exfalso. apply Hn. left. reflexivity.
Qed.

Lemma LastIndexByte_last (s : gostring) (c : byte) :
  GoStd.LastIndexByte (s ++ [c]) c = Some (length s).
Proof.
  induction s as [|x s IH]; cbn [GoStd.LastIndexByte app length].
  - rewrite Z.eqb_refl. reflexivity.
  - rewrite IH. reflexivity.
Qed.

Lemma SplitHostPort_port (addr host portStr : gostring) (i : nat) :
  GoStd.LastIndexByte addr GoStd.colon = Some i ->
  GoStd.SplitHostPort addr = Ok (host, portStr) ->
  portStr = skipn (S i) addr.
Proof.
  intros Hi. unfold GoStd.SplitHostPort. rewrite Hi.
  repeat match goal with
         | |- context [if ?x then _ else _] => destruct x
         | |- context [match ?x with _ => _ end] => destruct x
         end; intros E; inversion E; reflexivity.
Qed.

(** X1.  [RawAddr] rejects an address without a colon ("address error"),
    and rejects every address that ends in a colon, that is with an empty
    port; it returns either a record or an error, and a record it returns
    has the address type 3 and is 4 bytes longer than the host. *)
Theorem RawAddr_rejects_malformed :
  (forall addr : gostring,
      ~ In 58 addr ->
      RawAddr addr = Err (Errorf "shadowsocks: address error"))
  /\ (forall host : gostring, exists e, RawAddr (host ++ [58]) = Err e)
  /\ (forall (addr host portStr rec : gostring),
         GoStd.SplitHostPort addr = Ok (host, portStr) ->
         RawAddr addr = Ok rec ->
         nth 0 rec 0 = 3 /\ length rec = (length host + 4)%nat).
Proof.
  split; [|split].
  - intros addr Hn. unfold RawAddr, GoStd.SplitHostPort.
    rewrite (LastIndexByte_none addr GoStd.colon Hn). reflexivity.
  - intros host. unfold RawAddr.
    destruct (GoStd.SplitHostPort (host ++ [58])) as [[h p]|e] eqn:Hs;
      [|eexists; reflexivity].
    pose proof (SplitHostPort_port _ _ _ _
                  (LastIndexByte_last host GoStd.colon) Hs) as Hp.
    rewrite skipn_all2 in Hp by (rewrite length_app; simpl; lia).
    subst p. eexists. reflexivity.
  - intros addr host portStr rec Hs Hr.
    unfold RawAddr in Hr. rewrite Hs in Hr.
    destruct (GoStd.Atoi portStr) as [port|e] eqn:Ha; [|discriminate].
    rewrite RawAddr_buffer in Hr by reflexivity.
    inversion Hr; subst. split; [reflexivity|].
    cbn [app length]. rewrite length_app.
    unfold BigEndian_PutUint16. cbn [length]. lia.
Qed.

Lemma RawAddr_rejects_malformed_witness :
  nth 0 ([3; 11] ++ str "example.com" ++ [1; 187]) 0 = 3
  /\ length ([3; 11] ++ str "example.com" ++ [1; 187])
     = (length (str "example.com") + 4)%nat.
Proof.
  apply (proj2 (proj2 RawAddr_rejects_malformed)
           (str "example.com:443") (str "example.com") (str "443")).
  - reflexivity.
  - reflexivity.
Defined.

Lemma PutUint16_inj (p q : Z) :
  0 <= p <= 65535 -> 0 <= q <= 65535 ->
  BigEndian_PutUint16 (to_uint16 p) = BigEndian_PutUint16 (to_uint16 q) ->
  p = q.
Proof.
  intros Hp Hq E.
  rewrite !PutUint16_in_range in E by assumption.
  inversion E as [[Hd Hm]].
  rewrite (Z.div_mod p 256), (Z.div_mod q 256) by lia. congruence.
Qed.

(** X2.  The record determines the address: two inputs with hosts of at
    most 255 bytes and ports between 0 and 65535 for which [RawAddr] returns
    the same record have the same host and the same port. *)
Theorem RawAddr_injective (a1 a2 h1 h2 s1 s2 rec : gostring) (p1 p2 : Z) :
  GoStd.SplitHostPort a1 = Ok (h1, s1) -> GoStd.Atoi s1 = Ok p1 ->
  GoStd.SplitHostPort a2 = Ok (h2, s2) -> GoStd.Atoi s2 = Ok p2 ->
  (length h1 <= 255)%nat -> (length h2 <= 255)%nat ->
  0 <= p1 <= 65535 -> 0 <= p2 <= 65535 ->
  RawAddr a1 = Ok rec -> RawAddr a2 = Ok rec ->
  h1 = h2 /\ p1 = p2.
Proof.
  intros Hs1 Ha1 Hs2 Ha2 Hl1 Hl2 Hp1 Hp2 R1 R2.
  rewrite (RawAddr_eq _ _ _ _ Hs1 Ha1) in R1.
  rewrite (RawAddr_eq _ _ _ _ Hs2 Ha2) in R2.
  rewrite <- R2 in R1. inversion R1 as [[Hlen Hrest]].
  unfold to_byte in Hlen. rewrite !Z.mod_small in Hlen by lia.
  apply Nat2Z.inj in Hlen.
  assert (Hh : h1 = h2 /\ BigEndian_PutUint16 (to_uint16 p1)
                          = BigEndian_PutUint16 (to_uint16 p2)).
  { clear - Hlen Hrest. revert h2 Hlen Hrest.
    induction h1 as [|x h1 IH]; intros [|y h2] Hlen Hrest;
      try discriminate.
    - split; [reflexivity | exact Hrest].
    - cbn [app] in Hrest. inversion Hrest as [[Hx Ht]].
      destruct (IH h2) as [-> Hp]; [simpl in Hlen; lia | exact Ht |].
      split; [reflexivity | exact Hp]. }
  destruct Hh as [-> Hp]. split; [reflexivity|].
  apply PutUint16_inj; assumption.
Qed.

Lemma RawAddr_injective_witness :
  str "example.com" = str "example.com" /\ 443 = 443.
Proof.
  apply (RawAddr_injective (str "example.com:443") (str "example.com:+443")
           (str "example.com") (str "example.com") (str "443") (str "+443")
           ([3; 11] ++ str "example.com" ++ [1; 187]) 443 443);
    try reflexivity; try (simpl; lia); lia.
Defined.

(* ================================================================= *)
(** ** The two directions of a connection *)

(** X3.  [Conn.Read] keeps the contract of [io.Reader] and stays on its
    side of the connection: it returns at most [len(b)] bytes; it leaves the
    encrypt state, the key, the OTA flag, the chunk counter and the write
    buffer as they were; and when it fails before the decrypt state is there
    it returns no byte. *)
Theorem Conn_Read_stays_on_read_side {T St} {RD : Reader T} {SC : Stream St}
  (fuel : nat) (c c' : Conn T St) (k : nat) (b : list byte)
  (err : option error) :
  Conn_Read fuel c k = Some (c', (b, err)) ->
  (length b <= k)%nat
  /\ enc (cipher c') = enc (cipher c)
  /\ key (cipher c') = key (cipher c)
  /\ ota (cipher c') = ota (cipher c)
  /\ chunkId c' = chunkId c
  /\ writeBuf c' = writeBuf c
  /\ (dec (cipher c') = None -> b = [] /\ err <> None).
Proof.
  intros E.
  split; [eapply Conn_Read_bound; exact E|].
  unfold Conn_Read in E.
  apply bind_Some in E. destruct E as [[c1 err1] [Hh E]].
  assert (H1 : enc (cipher c1) = enc (cipher c)
               /\ key (cipher c1) = key (cipher c)
               /\ ota (cipher c1) = ota (cipher c)
               /\ chunkId c1 = chunkId c
               /\ writeBuf c1 = writeBuf c
               /\ (err1 = None -> dec (cipher c1) <> None)).
  { destruct (dec (cipher c)) as [s|] eqn:Hd.
    - inv Hh. rewrite Hd. repeat split; auto. discriminate.
    - apply bind_Some in Hh. destruct Hh as [[t1 [got e1]] [_ Hh]].
      destruct e1 as [e1|].
      { inv Hh. cbn. repeat split; auto. discriminate. }
      unfold initDecrypt in Hh. cbn [cipher set_conn info key] in Hh.
      destruct (newStream _ _ _ Decrypt) as [s|e2].
      + destruct (length _ =? 0)%nat; inv Hh; cbn; repeat split; auto;
          discriminate.
      + inv Hh. cbn. repeat split; auto. discriminate. }
  destruct H1 as (He & Hk & Ho & Hi & Hw & Hd1).
  rewrite <- He, <- Hk, <- Ho, <- Hi, <- Hw. clear He Hk Ho Hi Hw Hh.
  destruct err1 as [e1|].
  { inv E. repeat split; auto. discriminate. }
  specialize (Hd1 eq_refl).
  apply bind_Some in E. destruct E as [[t [bs e]] [_ E]].
  destruct (0 <? length bs)%nat.
  - apply bind_Some in E. destruct E as [[ci out] [Hdec E]]. inv E.
    unfold decrypt in Hdec. cbn [cipher set_readBuf set_conn] in Hdec.
    destruct (dec (cipher c1)) as [s|]; [|discriminate].
    destruct (XORKeyStream s _) as [s' o]. inv Hdec. cbn.
    repeat split; auto. all: discriminate.
  - inv E. cbn. repeat split; auto. all: intros Hn; congruence.
Qed.

Lemma Conn_Read_stays_on_read_side_witness :
  exists c' b err,
    Conn_Read 4 reader_conn 2 = Some (c', (b, err))
    /\ (length b <= 2)%nat
    /\ enc (cipher c') = None
    /\ chunkId c' = 0.
Proof.
  destruct (Conn_Read 4 reader_conn 2) as [[c' [b err]]|] eqn:E.
  - destruct (Conn_Read_stays_on_read_side 4 reader_conn c' 2 b err E)
      as (Hb & He & _ & _ & Hi & _).
    exists c', b, err. repeat split; assumption.
  - vm_compute in E. discriminate.
Defined.

Lemma initEncrypt_error {St} {CR : Crypto} (c ci : Cipher St) ivo e :
  initEncrypt c = (ci, (ivo, Some e)) -> ci = c /\ ivo = None.
Proof.
  unfold initEncrypt. destruct (enc c); [discriminate|].
  destruct (rand_Read (ivLen (info c))) as [v0|].
  - destruct (newStream (info c) (key c) v0 Encrypt);
      intros E; inversion E; subst; split; reflexivity.
  - intros E; inversion E; subst; split; reflexivity.
Qed.

(** X4.  What [write] hands to the transport and when.  With the encrypt
    state there, the transport gets exactly the ciphertext of [b], one call.
    Without it, [initEncrypt] runs first: if it fails, [write] returns 0 and
    the error and the transport is not called; if it gives the IV [v], the
    transport gets, in one call, [v] followed by the ciphertext of [b], and
    nothing that was left in the pooled buffer.  The count and the error of
    the transport are returned as they are, and the read side (decrypt
    state, read buffer) and the chunk counter are left alone. *)
Theorem Conn_write_sends {T St}
  {WR : Writer T} {SC : Stream St} {CR : Crypto}
  (c c' : Conn T St) (b : list byte) (n : Z) (err : option error) :
  Conn_write c b = Some (c', (n, err)) ->
  dec (cipher c') = dec (cipher c)
  /\ readBuf c' = readBuf c
  /\ chunkId c' = chunkId c
  /\ match enc (cipher c) with
     | Some s =>
         Write (conn c) (snd (XORKeyStream s b)) = Some (conn c', (n, err))
         /\ enc (cipher c') = Some (fst (XORKeyStream s b))
         /\ iv (cipher c') = iv (cipher c)
     | None =>
         match initEncrypt (cipher c) with
         | (_, (_, Some e)) =>
             n = 0 /\ err = Some e /\ conn c' = conn c
         | (ci, (Some v, None)) =>
             exists s,
               enc ci = Some s
               /\ Write (conn c) (v ++ snd (XORKeyStream s b))
                  = Some (conn c', (n, err))
               /\ enc (cipher c') = Some (fst (XORKeyStream s b))
               /\ iv (cipher c') = iv ci
         | (_, (None, None)) => False
         end
     end.
Proof.
  unfold Conn_write. intros E.
  destruct (enc (cipher c)) as [s|] eqn:He.
  - cbn [set_cipher cipher writeBuf] in E.
    apply bind_Some in E. destruct E as [[ci ct] [Henc E]].
    apply bind_Some in E. destruct E as [[t [n0 e0]] [Hwr E]].
    inv E.
    unfold encrypt in Henc. rewrite He in Henc.
    pose proof (XORKeyStream_length s b) as Hl.
    destruct (XORKeyStream s b) as [s' ct'] eqn:Hx. inv Henc.
    cbn [snd] in Hl.
    pose proof (write_region (writeBuf c) b ct None Hl) as Hreg.
    cbn zeta iota in Hreg. cbn [set_writeBuf set_cipher conn] in Hwr.
    rewrite Hreg in Hwr. cbn [app] in Hwr.
    cbn. repeat split; auto.
  - destruct (initEncrypt (cipher c)) as [ci [ivo e]] eqn:Hi.
    destruct e as [e|].
    + apply initEncrypt_error in Hi. destruct Hi as [-> ->].
      inv E. cbn. repeat split; auto.
    + destruct ivo as [v|].
      * pose proof (initEncrypt_iv_length _ _ _ _ Hi)
          as (_ & _ & _ & _ & _ & _ & _ & _ & Hdec).
        cbn [set_cipher cipher writeBuf] in E.
        apply bind_Some in E. destruct E as [[ci' ct] [Henc E]].
        apply bind_Some in E. destruct E as [[t [n0 e0]] [Hwr E]].
        inv E.
        unfold encrypt in Henc.
        destruct (enc ci) as [s|] eqn:Hs; [|discriminate].
        pose proof (XORKeyStream_length s b) as Hl.
        destruct (XORKeyStream s b) as [s' ct'] eqn:Hx. inv Henc.
        cbn [snd] in Hl.
        pose proof (write_region (writeBuf c) b ct (Some v) Hl) as Hreg.
        cbn zeta iota in Hreg. cbn [set_writeBuf set_cipher conn] in Hwr.
        rewrite Hreg in Hwr.
        cbn. repeat split; auto.
        exists s. rewrite Hx. repeat split; auto.
      * apply initEncrypt_no_iv in Hi; [|assumption].
        destruct Hi as [Hi _]. congruence.
Qed.

Lemma Conn_write_sends_witness :
  exists c' n,
    Conn_write (CR := toy_crypto false) (writer_conn false) [1; 2; 3]
    = Some (c', (n, None))
    /\ sent (conn c') = [[7; 7; 7; 7] ++ [6; 10; 10]]
    /\ chunkId c' = 0.
Proof.
  destruct (Conn_write (CR := toy_crypto false) (writer_conn false) [1; 2; 3])
    as [[c' [n err]]|] eqn:E.
  - destruct (Conn_write_sends (CR := toy_crypto false) (writer_conn false)
                c' [1; 2; 3] n err E) as (_ & _ & Hid & _).
    exists c', n.
    assert (H : err = None /\ sent (conn c') = [[7; 7; 7; 7] ++ [6; 10; 10]])
      by (vm_compute in E; injection E as <- _ <-; split; reflexivity).
    destruct H as [-> Hs]. repeat split; assumption.
  - vm_compute in E. discriminate.
Defined.

(* ================================================================= *)
(** ** From one end of a connection to the other *)

Lemma streaming_firstn {St} {SC : Stream St} (s : St) (a : list byte)
  (k : nat) :
  streaming St ->
  snd (XORKeyStream s (firstn k a)) = firstn k (snd (XORKeyStream s a))
  /\ XORKeyStream (fst (XORKeyStream s (firstn k a))) (skipn k a)
     = (fst (XORKeyStream s a), skipn k (snd (XORKeyStream s a))).
Proof.
  intros [Hnil Happ].
  pose proof (Happ s (firstn k a) (skipn k a)) as H.
  rewrite firstn_skipn in H.
  pose proof (XORKeyStream_length s (firstn k a)) as Hl.
  set (x := XORKeyStream s (firstn k a)) in *.
  set (y := XORKeyStream (fst x) (skipn k a)) in *.
  rewrite H. cbn [fst snd].
  destruct (Nat.le_gt_cases k (length a)) as [Hk|Hk].
  - rewrite length_firstn, Nat.min_l in Hl by exact Hk.
    rewrite firstn_app, skipn_app, Hl, Nat.sub_diag.
    rewrite <- Hl at 1. rewrite firstn_all.
    rewrite <- Hl at 1. rewrite skipn_all.
    cbn [firstn skipn app]. rewrite app_nil_r.
    split; [reflexivity | apply surjective_pairing].
  - assert (Hy : y = (fst x, [])).
    { subst y. rewrite skipn_all2 by lia. apply Hnil. }
    rewrite Hy. cbn [fst snd]. rewrite app_nil_r.
    rewrite length_firstn, Nat.min_r in Hl by lia.
    rewrite firstn_all2, skipn_all2 by lia.
    split; reflexivity.
Qed.

Lemma inverse_streams_step {St} {SC : Stream St} (se sd : St)
  (a : list byte) :
  streaming St -> inverse_streams se sd ->
  inverse_streams (fst (XORKeyStream se a))
    (fst (XORKeyStream sd (snd (XORKeyStream se a)))).
Proof.
  intros [_ Happ] Hinv b.
  pose proof (Hinv (a ++ b)) as H.
  rewrite (Happ se a b) in H. cbn [snd] in H.
  rewrite Happ in H. cbn [snd] in H.
  rewrite Hinv in H. apply app_inv_head in H. exact H.
Qed.

Lemma count_xor_streaming : streaming Z.
Proof.
  split; [reflexivity|].
  cbn [XORKeyStream Counter_Stream].
  intros s a. revert s. induction a as [|x a IH]; intros s b.
  - cbn [app count_xor fst snd]. apply surjective_pairing.
  - cbn [app count_xor]. rewrite IH.
    destruct (count_xor (to_byte (s + 1)) a) as [s1 out]. reflexivity.
Qed.

Lemma count_xor_inverse (s : Z) : inverse_streams s s.
Proof.
  unfold inverse_streams. cbn [XORKeyStream Counter_Stream].
  intros a. revert s. induction a as [|x a IH]; intros s.
  - reflexivity.
  - cbn [count_xor]. specialize (IH (to_byte (s + 1))).
    destruct (count_xor (to_byte (s + 1)) a) as [s1 out] eqn:E1.
    cbn [snd count_xor] in *.
    destruct (count_xor (to_byte (s + 1)) out) as [s2 out2] eqn:E2.
    cbn [snd] in *. subst out2.
    rewrite Z.lxor_assoc, Z.lxor_nilpotent, Z.lxor_0_r. reflexivity.
Qed.

Lemma ReadFull_one_read {R} {RD : Reader R} (fuel : nat) (r r' : R)
  (n : nat) (bs : list byte) :
  (0 < fuel)%nat -> (0 < n)%nat ->
  Read r n = Some (r', (bs, None)) -> length bs = n ->
  ReadFull fuel r n = Some (r', (bs, None)).
Proof.
  intros Hf Hn Hr Hl. unfold ReadFull.
  destruct fuel as [|fuel]; [lia|]. cbn [ReadAtLeast_loop length].
  destruct (Nat.ltb_spec 0 n) as [_|H0]; [|lia].
  rewrite Nat.sub_0_r, Hr. cbn [bind app].
  assert (Hloop : ReadAtLeast_loop fuel r' n bs = Some (r', (bs, None))).
  { destruct fuel; cbn [ReadAtLeast_loop];
      (destruct (Nat.ltb_spec (length bs) n) as [Hx|_]; [lia|reflexivity]). }
  rewrite Hloop. cbn [bind].
  destruct (Nat.leb_spec n (length bs)) as [_|Hx]; [reflexivity | lia].
Qed.

Lemma ReadFull_nothing {R} {RD : Reader R} (fuel : nat) (r : R) :
  ReadFull fuel r 0 = Some (r, ([], None)).
Proof. unfold ReadFull. destruct fuel; reflexivity. Qed.

(** A [Read] of at most [k] bytes on a connection with decrypt state [sd]
    whose transport has the segment [ct] next: the first [k] bytes of the
    segment are taken and decrypted. *)
Lemma Conn_Read_Wire_segment {St} {SC : Stream St}
  (fuel k : nat) (c : Conn Wire St) (sd : St) (ct : list byte)
  (rest : list (list byte * option error)) :
  dec (cipher c) = Some sd ->
  incoming (conn c) = (ct, None) :: rest ->
  (0 < k)%nat -> ct <> [] ->
  exists c',
    Conn_Read fuel c k
    = Some (c', (snd (XORKeyStream sd (firstn k ct)), None))
    /\ cipher c'
       = set_dec (cipher c) (Some (fst (XORKeyStream sd (firstn k ct))))
    /\ chunkId c' = chunkId c
    /\ incoming (conn c')
       = if (length ct <=? k)%nat then rest else (skipn k ct, None) :: rest.
Proof.
  intros Hd Hi Hk Hct. unfold Conn_Read. rewrite Hd. cbn [bind].
  rewrite length_scratch. cbn [Read Wire_Reader]. unfold Wire_Read.
  rewrite Hi.
  assert (Hn : (0 < length (firstn k ct))%nat).
  { rewrite length_firstn. destruct ct; [congruence|]. cbn [length]. lia. }
  assert (Hfit : (length (firstn k ct) <= length (scratch (readBuf c) k))%nat)
    by (rewrite length_scratch, length_firstn; lia).
  destruct (Nat.leb_spec (length ct) k) as [Hle|Hgt].
  - rewrite firstn_all2 in * by exact Hle.
    cbn [bind]. cbv zeta.
    destruct (Nat.ltb_spec 0 (length ct)) as [_|Hx]; [|lia].
    rewrite length_copy_at_0 by exact Hfit.
    unfold decrypt. cbn [cipher set_readBuf set_conn]. rewrite Hd.
    destruct (XORKeyStream sd ct) as [s' out]. cbn [bind fst snd].
    eexists. split; [reflexivity|]. cbn. repeat split; reflexivity.
  - cbn [bind]. cbv zeta.
    destruct (Nat.ltb_spec 0 (length (firstn k ct))) as [_|Hx]; [|lia].
    rewrite length_copy_at_0 by exact Hfit.
    unfold decrypt. cbn [cipher set_readBuf set_conn]. rewrite Hd.
    destruct (XORKeyStream sd (firstn k ct)) as [s' out]. cbn [bind fst snd].
    eexists. split; [reflexivity|]. cbn. repeat split; reflexivity.
Qed.

(** [io.ReadFull] for the bytes [v] that lead a segment of the scripted
    transport. *)
Lemma Wire_ReadFull_prefix (fuel : nat) (w : Wire) (v ct : list byte)
  (rest : list (list byte * option error)) :
  incoming w = (v ++ ct, None) :: rest ->
  (0 < fuel)%nat -> ct <> [] ->
  exists w',
    ReadFull fuel w (length v) = Some (w', (v, None))
    /\ incoming w' = (ct, None) :: rest.
Proof.
  intros Hi Hf Hct. destruct v as [|x v].
  - exists w. split; [apply ReadFull_nothing | exact Hi].
  - eexists. split.
    + apply ReadFull_one_read; [exact Hf | cbn [length]; lia | | reflexivity].
      cbn [Read Wire_Reader]. unfold Wire_Read. rewrite Hi.
      destruct (Nat.leb_spec (length ((x :: v) ++ ct)) (length (x :: v)))
        as [Hle|_].
      * rewrite length_app in Hle. destruct ct; [congruence|].
        cbn [length] in Hle. lia.
      * rewrite firstn_app, Nat.sub_diag, firstn_all.
        cbn [firstn]. rewrite app_nil_r. reflexivity.
    + cbn [incoming]. rewrite skipn_app, Nat.sub_diag, skipn_all.
      reflexivity.
Qed.

(** With the IV read and the decrypt stream made from it, the first
    [Read] goes on as a [Read] of the connection that has them. *)
Lemma Conn_Read_after_handshake {T St} {RD : Reader T} {SC : Stream St}
  (fuel k : nat) (c : Conn T St) (t1 : T) (v : list byte) (sd : St) :
  dec (cipher c) = None ->
  ReadFull fuel (conn c) (ivLen (info (cipher c))) = Some (t1, (v, None)) ->
  newStream (info (cipher c)) (key (cipher c)) v Decrypt = Ok sd ->
  Conn_Read fuel c k
  = Conn_Read fuel
      (set_cipher (set_conn c t1)
         (set_iv (set_dec (cipher c) (Some sd))
            (if (length (iv (cipher c)) =? 0)%nat then v
             else iv (cipher c)))) k.
Proof.
  intros Hd Hrf Hns.
  pose proof (ReadFull_length _ _ _ _ _ _ Hrf) as [_ Hlen].
  apply proj1 in Hlen. specialize (Hlen eq_refl).
  unfold Conn_Read at 1. rewrite Hd, Hrf. cbn [bind].
  rewrite <- Hlen, copy_at_make.
  unfold initDecrypt. cbn [cipher set_conn]. rewrite Hns.
  cbn [cipher set_cipher set_dec iv].
  unfold Conn_Read. cbn [cipher set_cipher set_conn set_iv set_dec dec].
  destruct (length (iv (cipher c)) =? 0)%nat; reflexivity.
Qed.

Lemma Conn_write_established {T St}
  {WR : Writer T} {SC : Stream St} {CR : Crypto}
  (c c' : Conn T St) (b : list byte) (n : Z) (err : option error) (se : St) :
  enc (cipher c) = Some se ->
  Conn_write c b = Some (c', (n, err)) ->
  Write (conn c) (snd (XORKeyStream se b)) = Some (conn c', (n, err))
  /\ cipher c' = set_enc (cipher c) (Some (fst (XORKeyStream se b)))
  /\ chunkId c' = chunkId c.
Proof.
  intros He E. unfold Conn_write in E. rewrite He in E.
  cbn [set_cipher cipher writeBuf] in E.
  apply bind_Some in E. destruct E as [[ci ct] [Henc E]].
  apply bind_Some in E. destruct E as [[t [n0 e0]] [Hwr E]].
  inv E.
  unfold encrypt in Henc. rewrite He in Henc.
  pose proof (XORKeyStream_length se b) as Hl.
  destruct (XORKeyStream se b) as [s' ct'] eqn:Hx. inv Henc.
  cbn [snd] in Hl.
  pose proof (write_region (writeBuf c) b ct None Hl) as Hreg.
  cbn zeta iota in Hreg. cbn [set_writeBuf set_cipher conn] in Hwr.
  rewrite Hreg in Hwr. cbn [app] in Hwr.
  cbn. repeat split; auto.
Qed.

Lemma Conn_write_fresh {T St}
  {WR : Writer T} {SC : Stream St} {CR : Crypto}
  (c c' : Conn T St) (b : list byte) (n : Z) (err : option error) :
  enc (cipher c) = None ->
  Conn_write c b = Some (c', (n, err)) ->
  (conn c' = conn c /\ err <> None)
  \/ exists v se,
      length v = ivLen (info (cipher c))
      /\ newStream (info (cipher c)) (key (cipher c)) v Encrypt = Ok se
      /\ Write (conn c) (v ++ snd (XORKeyStream se b))
         = Some (conn c', (n, err))
      /\ cipher c'
         = set_enc (set_iv (cipher c) v) (Some (fst (XORKeyStream se b)))
      /\ chunkId c' = chunkId c.
Proof.
  intros He E. unfold Conn_write in E. rewrite He in E.
  unfold initEncrypt in E. rewrite He in E.
  destruct (rand_Read (ivLen (info (cipher c)))) as [v|e] eqn:Hr.
  2:{ inv E. left. split; [reflexivity | discriminate]. }
  destruct (newStream (info (cipher c)) (key (cipher c)) v Encrypt)
    as [se|e] eqn:Hns.
  2:{ inv E. left. split; [reflexivity | discriminate]. }
  right. exists v, se.
  split; [eapply rand_Read_length; exact Hr|]. split; [exact Hns|].
  cbn [set_cipher cipher writeBuf] in E.
  apply bind_Some in E. destruct E as [[ci ct] [Henc E]].
  apply bind_Some in E. destruct E as [[t [n0 e0]] [Hwr E]].
  inv E.
  unfold encrypt in Henc. cbn [enc set_enc] in Henc.
  pose proof (XORKeyStream_length se b) as Hl.
  destruct (XORKeyStream se b) as [s' ct'] eqn:Hx. inv Henc.
  cbn [snd] in Hl.
  pose proof (write_region (writeBuf c) b ct (Some v) Hl) as Hreg.
  cbn zeta iota in Hreg. cbn [set_writeBuf set_cipher conn] in Hwr.
  rewrite Hreg in Hwr.
  cbn. repeat split; auto.
Qed.

Lemma written_not_grown (l : list (list byte)) (p : list byte) :
  l <> l ++ [p].
Proof.
  intros H. apply (f_equal (@length _)) in H.
  rewrite length_app in H. cbn [length] in H. lia.
Qed.

(** X5.  The first message of a connection arrives.  A fresh connection
    without OTA writes [b] (not empty); the transport is handed one payload
    [p].  When [p] arrives on a fresh connection of the peer, with the same
    cipher, the peer's first [Read] into a buffer of at least [len(b)] bytes
    returns [b] and no error, consumes the whole segment, and records the
    IV of the sender; the encrypt stream of the sender and the decrypt
    stream of the peer are in step afterwards. *)
Theorem Conn_Write_Read_first_message {T St}
  {WR : Writer T} {SC : Stream St} {CR : Crypto}
  (cw cw' : Conn (Logged T) St) (cr : Conn Wire St)
  (b p : list byte) (n : Z) (err : option error)
  (rest : list (list byte * option error)) (fuel k : nat) :
  streaming St ->
  (forall v se,
      newStream (info (cipher cw)) (key (cipher cw)) v Encrypt = Ok se ->
      exists sd,
        newStream (info (cipher cr)) (key (cipher cr)) v Decrypt = Ok sd
        /\ inverse_streams se sd) ->
  ivLen (info (cipher cr)) = ivLen (info (cipher cw)) ->
  ota (cipher cw) = false ->
  enc (cipher cw) = None ->
  dec (cipher cr) = None ->
  iv (cipher cr) = [] ->
  b <> [] ->
  Conn_Write cw b = Some (cw', (n, err)) ->
  written (calls (conn cw')) = written (calls (conn cw)) ++ [p] ->
  incoming (conn cr) = (p, None) :: rest ->
  (0 < fuel)%nat ->
  (length b <= k)%nat ->
  exists cr' se sd,
    Conn_Read fuel cr k = Some (cr', (b, None))
    /\ incoming (conn cr') = rest
    /\ iv (cipher cr') = iv (cipher cw')
    /\ enc (cipher cw') = Some se
    /\ dec (cipher cr') = Some sd
    /\ inverse_streams se sd.
Proof.
  intros Hstr Hpair Hlen Hota He Hd Hivr Hb E Hwr Hi Hf Hk.
  unfold Conn_Write in E. rewrite Hota in E.
  destruct (Conn_write_fresh _ _ _ _ _ He E)
    as [[Hc _] | (v & se & Hlv & Hns & Hw & Hci & _)].
  { rewrite Hc in Hwr. exfalso. exact (written_not_grown _ _ Hwr). }
  apply Logged_Write_calls in Hw.
  rewrite Hw, written_app in Hwr. cbn [written] in Hwr.
  apply app_inv_head in Hwr. injection Hwr as <-.
  destruct (Hpair v se Hns) as (sd & Hnd & Hinv).
  pose proof (XORKeyStream_length se b) as Hlct.
  set (ct := snd (XORKeyStream se b)) in *.
  assert (Hct : ct <> []).
  { intros H0. rewrite H0 in Hlct. destruct b; [congruence | discriminate]. }
  assert (Hk0 : (0 < k)%nat).
  { destruct b; [congruence|]. cbn [length] in Hk. lia. }
  destruct (Wire_ReadFull_prefix fuel (conn cr) v ct rest Hi Hf Hct)
    as (w1 & Hrf & Hi1).
  rewrite Hlv, <- Hlen in Hrf.
  rewrite (Conn_Read_after_handshake fuel k cr w1 v sd Hd Hrf Hnd).
  rewrite Hivr. cbn [length Nat.eqb].
  set (c1 := set_cipher (set_conn cr w1)
               (set_iv (set_dec (cipher cr) (Some sd)) v)).
  destruct (Conn_Read_Wire_segment fuel k c1 sd ct rest
              eq_refl Hi1 Hk0 Hct) as (c' & Hrd & Hc' & _ & Hinc).
  rewrite firstn_all2 in Hrd, Hc' by lia.
  unfold ct in Hrd at 1. rewrite Hinv in Hrd.
  exists c', (fst (XORKeyStream se b)), (fst (XORKeyStream sd ct)).
  split; [exact Hrd|]. split.
  { rewrite Hinc. destruct (Nat.leb_spec (length ct) k); [reflexivity|lia]. }
  rewrite Hc', Hci. cbn.
  repeat split. apply inverse_streams_step; assumption.
Qed.

Lemma Conn_Write_Read_first_message_witness :
  exists cr',
    Conn_Read 1 (peer_conn false [[7; 7; 7; 7; 6; 10; 10]]) 3
    = Some (cr', ([1; 2; 3], None))
    /\ iv (cipher cr') = [7; 7; 7; 7].
Proof.
  destruct (Conn_Write (CR := toy_crypto false) (logged_writer false)
              [1; 2; 3]) as [[cw' [n err]]|] eqn:E;
    [|vm_compute in E; discriminate].
  assert (Hw : written (calls (conn cw'))
               = written (calls (conn (logged_writer false)))
                   ++ [[7; 7; 7; 7; 6; 10; 10]]
               /\ iv (cipher cw') = [7; 7; 7; 7])
    by (vm_compute in E; injection E as <- _ _; split; reflexivity).
  destruct Hw as [Hw Hiv].
  destruct (Conn_Write_Read_first_message (CR := toy_crypto false)
              (logged_writer false) cw'
              (peer_conn false [[7; 7; 7; 7; 6; 10; 10]])
              [1; 2; 3] [7; 7; 7; 7; 6; 10; 10] n err [] 1 3)
    as (cr' & se & sd & Hr & _ & Hi & _); try reflexivity; try lia;
    try discriminate; try assumption.
  - exact count_xor_streaming.
  - intros v se Hns. exists se. split; [exact Hns | apply count_xor_inverse].
  - exists cr'. split; [exact Hr | congruence].
Defined.

(** X6.  Later messages arrive, also over short reads.  On a connection
    without OTA whose encrypt stream is in step with the decrypt stream of
    the peer, [Write] of [b] (not empty) hands one payload [p] to the
    transport.  When [p] is the next segment on the peer's transport, a
    [Read] into [k >= 1] bytes returns the first [k] bytes of [b]; if that
    was all of [b], the segment is consumed and the streams are in step
    again; if not, the next [Read] with room for the rest returns the rest,
    and then the streams are in step. *)
Theorem Conn_Write_Read_in_step {T St}
  {WR : Writer T} {SC : Stream St} {CR : Crypto}
  (cw cw' : Conn (Logged T) St) (cr : Conn Wire St)
  (b p : list byte) (n : Z) (err : option error)
  (rest : list (list byte * option error)) (fuel k : nat) (se sd : St) :
  streaming St ->
  ota (cipher cw) = false ->
  enc (cipher cw) = Some se ->
  dec (cipher cr) = Some sd ->
  inverse_streams se sd ->
  b <> [] ->
  Conn_Write cw b = Some (cw', (n, err)) ->
  written (calls (conn cw')) = written (calls (conn cw)) ++ [p] ->
  incoming (conn cr) = (p, None) :: rest ->
  (0 < k)%nat ->
  exists cr1 se',
    Conn_Read fuel cr k = Some (cr1, (firstn k b, None))
    /\ enc (cipher cw') = Some se'
    /\ ((length b <= k)%nat ->
        incoming (conn cr1) = rest
        /\ exists sd', dec (cipher cr1) = Some sd' /\ inverse_streams se' sd')
    /\ ((k < length b)%nat ->
        forall k2, (length b - k <= k2)%nat ->
        exists cr2 sd',
          Conn_Read fuel cr1 k2 = Some (cr2, (skipn k b, None))
          /\ incoming (conn cr2) = rest
          /\ dec (cipher cr2) = Some sd' /\ inverse_streams se' sd').
Proof.
  intros Hstr Hota He Hd Hinv Hb E Hwr Hi Hk.
  unfold Conn_Write in E. rewrite Hota in E.
  destruct (Conn_write_established _ _ _ _ _ _ He E) as (Hw & Hci & _).
  apply Logged_Write_calls in Hw.
  rewrite Hw, written_app in Hwr. cbn [written] in Hwr.
  apply app_inv_head in Hwr. injection Hwr as <-.
  pose proof (XORKeyStream_length se b) as Hlct.
  pose proof (Hinv b) as Hback.
  pose proof (inverse_streams_step se sd b Hstr Hinv) as Hnext.
  set (ct := snd (XORKeyStream se b)) in *.
  assert (Hct : ct <> []).
  { intros H0. rewrite H0 in Hlct. destruct b; [congruence | discriminate]. }
  destruct (Conn_Read_Wire_segment fuel k cr sd ct rest Hd Hi Hk Hct)
    as (c1 & Hrd & Hc1 & _ & Hinc).
  destruct (streaming_firstn sd ct k Hstr) as [Hfst Hsnd].
  rewrite Hback in Hfst, Hsnd. rewrite Hfst in Hrd.
  exists c1, (fst (XORKeyStream se b)).
  split; [exact Hrd|]. split; [rewrite Hci; reflexivity|]. split.
  - intros Hle.
    destruct (Nat.leb_spec (length ct) k) as [_|Hx]; [|lia].
    split; [exact Hinc|].
    rewrite firstn_all2 in Hc1 by lia.
    exists (fst (XORKeyStream sd ct)).
    split; [rewrite Hc1; reflexivity | exact Hnext].
  - intros Hlt k2 Hk2.
    destruct (Nat.leb_spec (length ct) k) as [Hx|_]; [lia|].
    assert (Hd1 : dec (cipher c1)
                  = Some (fst (XORKeyStream sd (firstn k ct))))
      by (rewrite Hc1; reflexivity).
    assert (Hls : length (skipn k ct) = (length b - k)%nat)
      by (rewrite length_skipn; lia).
    assert (Hct2 : skipn k ct <> []).
    { intros H0. rewrite H0 in Hls. cbn [length] in Hls. lia. }
    assert (Hk2' : (0 < k2)%nat) by lia.
    destruct (Conn_Read_Wire_segment fuel k2 c1 _ (skipn k ct) rest
                Hd1 Hinc Hk2' Hct2) as (c2 & Hrd2 & Hc2 & _ & Hinc2).
    assert (Hall : firstn k2 (skipn k ct) = skipn k ct)
      by (apply firstn_all2; lia).
    rewrite Hall, Hsnd in Hrd2, Hc2. cbn [fst snd] in Hrd2, Hc2.
    exists c2, (fst (XORKeyStream sd ct)).
    split; [exact Hrd2|]. split.
    { rewrite Hinc2.
      destruct (Nat.leb_spec (length (skipn k ct)) k2); [reflexivity|lia]. }
    split; [rewrite Hc2; reflexivity | exact Hnext].
Qed.

Lemma Conn_Write_Read_in_step_witness :
  exists cr1 cr2,
    Conn_Read 1 peer_conn_2 1 = Some (cr1, ([4], None))
    /\ Conn_Read 1 cr1 1 = Some (cr2, ([5], None))
    /\ incoming (conn cr2) = [].
Proof.
  destruct (Conn_Write (CR := toy_crypto false) logged_writer_2 [4; 5])
    as [[cw' [n err]]|] eqn:E; [|vm_compute in E; discriminate].
  assert (Hw : written (calls (conn cw'))
               = written (calls (conn logged_writer_2)) ++ [[14; 14]])
    by (vm_compute in E; injection E as <- _ _; reflexivity).
  destruct (Conn_Write_Read_in_step (CR := toy_crypto false)
              logged_writer_2 cw' peer_conn_2 [4; 5] [14; 14] n err [] 1 1
              10 10)
    as (cr1 & se' & Hr1 & _ & _ & Hshort);
    try reflexivity; try lia; try discriminate; try assumption.
  - exact count_xor_streaming.
  - apply count_xor_inverse.
  - destruct (Hshort ltac:(cbn; lia) 1%nat ltac:(cbn; lia))
      as (cr2 & sd' & Hr2 & Hi2 & _).
    exists cr1, cr2. repeat split; assumption.
Defined.

(* ================================================================= *)
(** ** The OTA sender and the OTA relay *)

Lemma Uint16_PutUint16 (v : Z) :
  0 <= v <= 65535 ->
  BigEndian_Uint16 (BigEndian_PutUint16 (to_uint16 v)) = v.
Proof.
  intros Hv. rewrite PutUint16_in_range by exact Hv.
  unfold BigEndian_Uint16. cbn [nth].
  assert (Hland : Z.land (Z.shiftl (v / 256) 8) (v mod 2 ^ 8) = 0).
  { apply Z.bits_inj'. intros n Hn.
    rewrite Z.land_spec, Z.bits_0.
    destruct (Z.lt_ge_cases n 8).
    - rewrite Z.shiftl_spec_low by lia. reflexivity.
    - rewrite Z.mod_pow2_bits_high by lia. apply andb_false_r. }
  change 256 with (2 ^ 8) at 2.
  rewrite <- Z.lxor_lor, <- Z.add_nocarry_lxor by exact Hland.
  rewrite Z.shiftl_mul_pow2 by lia. change (2 ^ 8) with 256.
  rewrite (Z.div_mod v 256) at 3 by lia. lia.
Qed.

Lemma PipeThenCloseOta_iter_buf_length {T St D}
  {RD : Reader T} {DL : Deadline T} {SC : Stream St} {CR : Crypto}
  {WD : Writer D}
  (fuel : nat) (rt : Z) (src src' : Conn T St) (dst dst' : D)
  (buf buf' : list byte) (ex : option OtaExit) :
  PipeThenCloseOta_iter fuel rt (src, dst, buf) = Some (src', dst', buf', ex) ->
  length buf' = length buf.
Proof.
  unfold PipeThenCloseOta_iter.
  change (dataLenLen + hmacSha1Len)%nat with 12%nat.
  change idxData0 with 12%nat.
  destruct (Nat.ltb_spec (length buf) 12) as [Hs|Hs]; intros E;
    [inv E; reflexivity|].
  apply bind_Some in E. destruct E as [[src1 [got err]] [_ E]].
  assert (H1 : length (copy_at buf 0 got) = length buf)
    by (apply length_copy_at; lia).
  set (buf1 := copy_at buf 0 got) in *.
  destruct err as [e|]; [inv E; exact H1|].
  match type of E with
  | (if ?c then _ else _) = _ => destruct c
  end; [inv E; exact H1|].
  apply bind_Some in E. destruct E as [[src2 [got2 err2]] [_ E]].
  match type of E with
  | context [copy_at ?d 0 got2] => set (dataBuf := copy_at d 0 got2) in *
  end.
  match type of E with
  | context [if ?f then buf1 else copy_at buf1 12 dataBuf] =>
      assert (H2 : length (if f then buf1 else copy_at buf1 12 dataBuf)
                   = length buf)
        by (destruct f; [exact H1 | rewrite length_copy_at; lia]);
      set (buf2 := if f then buf1 else copy_at buf1 12 dataBuf) in *
  end.
  destruct err2 as [e|]; [inv E; exact H2|].
  cbn [Conn_GetAndIncrChunkId] in E.
  match type of E with
  | (if ?c then _ else _) = _ => destruct c
  end; [inv E; exact H2|].
  apply bind_Some in E. destruct E as [[d1 [n we]] [_ E]].
  destruct we; inv E; exact H2.
Qed.

Lemma Wire_SetReadTimeout {St} (rt : Z) (c : Conn Wire St) :
  cipher (SetReadTimeout rt c) = cipher c
  /\ chunkId (SetReadTimeout rt c) = chunkId c
  /\ incoming (conn (SetReadTimeout rt c)) = incoming (conn c).
Proof.
  unfold SetReadTimeout. destruct (rt =? 0); repeat split; reflexivity.
Qed.

Lemma Conn_Write_ota_established {T St}
  {WR : Writer T} {SC : Stream St} {CR : Crypto}
  (c c' : Conn T St) (b : list byte) (n : Z) (err : option error) (se : St) :
  ota (cipher c) = true ->
  enc (cipher c) = Some se ->
  Conn_Write c b = Some (c', (n, err)) ->
  Write (conn c)
    (snd (XORKeyStream se (otaReqChunkAuth (iv (cipher c)) (chunkId c) b)))
  = Some (conn c', (n, err))
  /\ cipher c'
     = set_enc (cipher c)
         (Some (fst (XORKeyStream se
                       (otaReqChunkAuth (iv (cipher c)) (chunkId c) b))))
  /\ chunkId c' = to_uint32 (chunkId c + 1).
Proof.
  intros Hota He E. unfold Conn_Write in E. rewrite Hota in E.
  cbn [Conn_GetAndIncrChunkId set_chunkId cipher] in E.
  apply (Conn_write_established _ _ _ _ _ se) in E; [|exact He].
  exact E.
Qed.

Lemma firstn_split (A : Type) (l : list A) (j k : nat) :
  (j <= k)%nat ->
  firstn k l = firstn j l ++ firstn (k - j) (skipn j l).
Proof.
  intros Hjk. rewrite <- (firstn_skipn j l) at 1.
  rewrite firstn_app, length_firstn.
  destruct (Nat.le_gt_cases j (length l)) as [Hj|Hj].
  - rewrite Nat.min_l by exact Hj.
    rewrite firstn_all2 by (rewrite length_firstn; lia). reflexivity.
  - rewrite Nat.min_r by lia.
    rewrite firstn_all2 by (rewrite length_firstn; lia).
    rewrite (skipn_all2 l) by lia. rewrite !firstn_nil. reflexivity.
Qed.

Lemma streaming_split {St} {SC : Stream St} (s : St) (l : list byte)
  (j k : nat) :
  streaming St -> (j <= k)%nat ->
  XORKeyStream s (firstn k l)
  = (fst (XORKeyStream (fst (XORKeyStream s (firstn j l)))
            (firstn (k - j) (skipn j l))),
     snd (XORKeyStream s (firstn j l))
       ++ snd (XORKeyStream (fst (XORKeyStream s (firstn j l)))
                 (firstn (k - j) (skipn j l)))).
Proof.
  intros [_ Happ] Hjk. rewrite (firstn_split _ l j k Hjk) at 1. apply Happ.
Qed.

Lemma pending_cons (w : Wire) (seg : list byte) (e : option error)
  (rest : list (list byte * option error)) :
  incoming w = (seg, e) :: rest ->
  pending w = seg ++ concat (map fst rest).
Proof. unfold pending. intros ->. reflexivity. Qed.

(** With the decrypt state [sd] there, [Read] returns the decryption of
    whatever the transport returned, with the error of the transport. *)
Lemma Conn_Read_payload {T St} {RD : Reader T} {SC : Stream St}
  (fuel k : nat) (c : Conn T St) (sd : St) (t : T) (bs : list byte)
  (err : option error) :
  streaming St ->
  dec (cipher c) = Some sd ->
  Read (conn c) k = Some (t, (bs, err)) ->
  exists c',
    Conn_Read fuel c k = Some (c', (snd (XORKeyStream sd bs), err))
    /\ dec (cipher c') = Some (fst (XORKeyStream sd bs))
    /\ iv (cipher c') = iv (cipher c)
    /\ chunkId c' = chunkId c
    /\ conn c' = t.
Proof.
  intros [Hnil _] Hd Hr.
  pose proof (Read_bound _ _ _ _ _ Hr) as Hb.
  unfold Conn_Read. rewrite Hd. cbn [bind].
  rewrite length_scratch, Hr. cbn [bind]. cbv zeta.
  destruct (Nat.ltb_spec 0 (length bs)) as [Hpos|Hz].
  - rewrite length_copy_at_0 by (rewrite length_scratch; exact Hb).
    unfold decrypt. cbn [cipher set_readBuf set_conn]. rewrite Hd.
    destruct (XORKeyStream sd bs) as [s' out]. cbn [bind fst snd].
    eexists. split; [reflexivity|]. cbn. repeat split; reflexivity.
  - assert (Hb0 : bs = [])
      by (destruct bs; [reflexivity | cbn [length] in Hz; lia]).
    rewrite Hb0, Hnil. cbn [fst snd].
    eexists. split; [reflexivity|]. cbn. repeat split; auto.
Qed.

(** A [Read] of at most [k] bytes on a connection with decrypt state [sd]
    whose transport has segments to deliver: some [j <= k] of the pending
    bytes are taken and decrypted; either a segment is used up or the
    buffer is filled. *)
Lemma Conn_Read_Wire_stream {St} {SC : Stream St}
  (fuel k : nat) (c : Conn Wire St) (sd : St) :
  streaming St ->
  dec (cipher c) = Some sd ->
  clean (conn c) ->
  incoming (conn c) <> [] ->
  exists c' j,
    Conn_Read fuel c k
    = Some (c', (snd (XORKeyStream sd (firstn j (pending (conn c)))), None))
    /\ (j <= k)%nat /\ (j <= length (pending (conn c)))%nat
    /\ dec (cipher c')
       = Some (fst (XORKeyStream sd (firstn j (pending (conn c)))))
    /\ iv (cipher c') = iv (cipher c)
    /\ chunkId c' = chunkId c
    /\ clean (conn c')
    /\ pending (conn c') = skipn j (pending (conn c))
    /\ ((length (incoming (conn c')) < length (incoming (conn c)))%nat
        \/ (j = k
            /\ length (incoming (conn c')) = length (incoming (conn c)))).
Proof.
  intros Hstr Hd Hcl Hne.
  destruct (incoming (conn c)) as [|[seg e] rest] eqn:Hi; [congruence|].
  clear Hne. unfold clean in Hcl. rewrite Hi in Hcl.
  inversion Hcl as [|? ? He Hrest]; subst. cbn [snd] in He. subst e.
  rewrite (pending_cons _ _ _ _ Hi).
  set (more := concat (map fst rest)).
  assert (Hbs : firstn (length (firstn k seg)) (seg ++ more) = firstn k seg).
  { rewrite length_firstn, firstn_app.
    replace (Nat.min k (length seg) - length seg)%nat with O by lia.
    rewrite firstn_O, app_nil_r.
    destruct (Nat.le_gt_cases k (length seg)).
    - rewrite Nat.min_l by lia. reflexivity.
    - rewrite Nat.min_r by lia. rewrite !firstn_all2 by lia. reflexivity. }
  assert (Hrd : exists w,
             Read (conn c) k = Some (w, (firstn k seg, None))
             /\ incoming w
                = if (length seg <=? k)%nat then rest
                  else (skipn k seg, None) :: rest).
  { cbn [Read Wire_Reader]. unfold Wire_Read. rewrite Hi.
    destruct (Nat.leb_spec (length seg) k) as [Hle|Hgt].
    - rewrite firstn_all2 by exact Hle. eexists. split; reflexivity.
    - eexists. split; reflexivity. }
  destruct Hrd as (w & Hrd & Hi').
  destruct (Conn_Read_payload fuel k c sd w _ None Hstr Hd Hrd)
    as (c' & Hr & Hd' & Hiv' & Hid' & Hc').
  exists c', (length (firstn k seg)). rewrite Hbs, Hc'.
  split; [exact Hr|].
  split; [rewrite length_firstn; lia|].
  split; [rewrite length_firstn, length_app; lia|].
  split; [exact Hd'|]. split; [exact Hiv'|]. split; [exact Hid'|].
  destruct (Nat.leb_spec (length seg) k) as [Hle|Hgt].
  - rewrite firstn_all2 by exact Hle.
    split; [unfold clean; rewrite Hi'; exact Hrest|].
    split.
    + unfold pending. rewrite Hi'.
      rewrite skipn_app, skipn_all, Nat.sub_diag, skipn_O. reflexivity.
    + left. rewrite Hi'. cbn [length]. lia.
  - assert (Hlb : length (firstn k seg) = k)
      by (rewrite length_firstn; lia).
    split.
    { unfold clean. rewrite Hi'. constructor; [reflexivity | exact Hrest]. }
    split.
    + unfold pending. rewrite Hi', Hlb. cbn [map concat fst].
      rewrite skipn_app.
      replace (k - length seg)%nat with O by lia. reflexivity.
    + right. split; [exact Hlb|]. rewrite Hi'. reflexivity.
Qed.

(** [io.ReadFull] on such a connection, whatever the segments: with
    [n] bytes pending and fuel for one read per segment, it returns the
    decryption of the next [n] bytes and no error. *)
Lemma ReadAtLeast_Conn_Wire_stream {St} {SC : Stream St} (fuel n : nat) :
  streaming St ->
  forall (fuel' : nat) (c : Conn Wire St) (got : list byte) (sd : St),
    dec (cipher c) = Some sd ->
    clean (conn c) ->
    (length got <= n)%nat ->
    (n - length got <= length (pending (conn c)))%nat ->
    (length (incoming (conn c)) < fuel')%nat ->
    exists c',
      ReadAtLeast_loop (RD := Conn_Reader fuel) fuel' c n got
      = Some (c', (got ++ snd (XORKeyStream sd
                                 (firstn (n - length got)
                                    (pending (conn c)))), None))
      /\ dec (cipher c')
         = Some (fst (XORKeyStream sd
                        (firstn (n - length got) (pending (conn c)))))
      /\ iv (cipher c') = iv (cipher c)
      /\ chunkId c' = chunkId c
      /\ clean (conn c')
      /\ pending (conn c') = skipn (n - length got) (pending (conn c))
      /\ (length (incoming (conn c')) <= length (incoming (conn c)))%nat.
Proof.
  intros Hstr. pose proof Hstr as [Hnil _].
  induction fuel' as [|fuel' IH]; intros c got sd Hd Hcl Hg Hp Hf; [lia|].
  cbn [ReadAtLeast_loop].
  destruct (Nat.ltb_spec (length got) n) as [Hlt|Hge].
  2:{ replace (n - length got)%nat with O by lia.
      rewrite firstn_O, Hnil, skipn_O, app_nil_r. cbn [fst snd].
      exists c. repeat split; auto. }
  set (k := (n - length got)%nat) in *.
  assert (Hne : incoming (conn c) <> []).
  { intros H0. unfold pending in Hp. rewrite H0 in Hp.
    cbn [map concat length] in Hp. lia. }
  destruct (Conn_Read_Wire_stream fuel k c sd Hstr Hd Hcl Hne)
    as (c1 & j & Hr & Hjk & Hjp & Hd1 & Hiv1 & Hid1 & Hcl1 & Hp1 & Hprog).
  cbn [Read Conn_Reader]. rewrite Hr. cbn [bind].
  set (pend := pending (conn c)) in *.
  set (x1 := snd (XORKeyStream sd (firstn j pend))) in *.
  set (s1 := fst (XORKeyStream sd (firstn j pend))) in *.
  assert (Hlx : length x1 = j).
  { unfold x1. rewrite XORKeyStream_length, length_firstn. lia. }
  pose proof (streaming_split sd pend j k Hstr Hjk) as Hsplit.
  fold s1 x1 in Hsplit.
  assert (Hk' : (n - length (got ++ x1) = k - j)%nat)
    by (rewrite length_app, Hlx; lia).
  destruct (Nat.eq_dec j k) as [Hjk'|Hjk'].
  - assert (Hdone : ReadAtLeast_loop (RD := Conn_Reader fuel) fuel' c1 n
                      (got ++ x1)
                    = Some (c1, (got ++ x1, None))).
    { destruct fuel'; cbn [ReadAtLeast_loop];
        (destruct (Nat.ltb_spec (length (got ++ x1)) n) as [Hx|_];
         [rewrite length_app, Hlx in Hx; lia | reflexivity]). }
    rewrite Hdone. rewrite <- Hjk'. fold x1 s1. exists c1.
    split; [reflexivity|]. split; [exact Hd1|]. split; [exact Hiv1|].
    split; [exact Hid1|]. split; [exact Hcl1|]. split; [exact Hp1|].
    destruct Hprog as [Hs | [_ Hs]]; lia.
  - destruct Hprog as [Hshort | [Hx _]]; [|contradiction].
    destruct (IH c1 (got ++ x1) s1 Hd1 Hcl1) as
      (c2 & Hl2 & Hd2 & Hiv2 & Hid2 & Hcl2 & Hp2 & Hlen2).
    + rewrite length_app, Hlx. lia.
    + rewrite Hk', Hp1, length_skipn. lia.
    + lia.
    + rewrite Hl2. rewrite Hk', Hp1 in *.
      rewrite Hsplit. cbn [fst snd].
      exists c2. split; [rewrite <- app_assoc; reflexivity|].
      split; [exact Hd2|]. split; [congruence|]. split; [congruence|].
      split; [exact Hcl2|].
      split; [rewrite Hp2, skipn_skipn; f_equal; lia | lia].
Qed.

Lemma ReadFull_Conn_Wire_stream {St} {SC : Stream St}
  (fuel n : nat) (c : Conn Wire St) (sd : St) :
  streaming St ->
  dec (cipher c) = Some sd ->
  clean (conn c) ->
  (n <= length (pending (conn c)))%nat ->
  (length (incoming (conn c)) < fuel)%nat ->
  exists c',
    ReadFull (RD := Conn_Reader fuel) fuel c n
    = Some (c', (snd (XORKeyStream sd (firstn n (pending (conn c)))), None))
    /\ dec (cipher c')
       = Some (fst (XORKeyStream sd (firstn n (pending (conn c)))))
    /\ iv (cipher c') = iv (cipher c)
    /\ chunkId c' = chunkId c
    /\ clean (conn c')
    /\ pending (conn c') = skipn n (pending (conn c))
    /\ (length (incoming (conn c')) <= length (incoming (conn c)))%nat.
Proof.
  intros Hstr Hd Hcl Hn Hf.
  destruct (ReadAtLeast_Conn_Wire_stream fuel n Hstr fuel c [] sd Hd Hcl)
    as (c' & Hl & Hrest); cbn [length]; try lia.
  cbn [length app] in Hl, Hrest. rewrite Nat.sub_0_r in Hl, Hrest.
  unfold ReadFull. rewrite Hl. cbn [bind].
  rewrite XORKeyStream_length, length_firstn, Nat.min_l by exact Hn.
  rewrite Nat.leb_refl. exists c'. split; [reflexivity | exact Hrest].
Qed.

(** At the end of the stream [io.ReadFull] returns no byte and [io.EOF],
    after the segments without bytes that may still arrive. *)
Lemma ReadAtLeast_Conn_Wire_eof {St} {SC : Stream St} (fuel n : nat) :
  streaming St -> (0 < n)%nat ->
  forall (fuel' : nat) (c : Conn Wire St) (sd : St),
    dec (cipher c) = Some sd ->
    clean (conn c) ->
    pending (conn c) = [] ->
    (length (incoming (conn c)) < fuel')%nat ->
    exists c',
      ReadAtLeast_loop (RD := Conn_Reader fuel) fuel' c n []
      = Some (c', ([], Some EOF))
      /\ chunkId c' = chunkId c.
Proof.
  intros Hstr Hn. pose proof Hstr as [Hnil _].
  induction fuel' as [|fuel' IH]; intros c sd Hd Hcl Hp Hf; [lia|].
  cbn [ReadAtLeast_loop length].
  destruct (Nat.ltb_spec 0 n) as [_|Hx]; [|lia].
  rewrite Nat.sub_0_r. cbn [Read Conn_Reader].
  destruct (incoming (conn c)) as [|[seg e] rest] eqn:Hi.
  - assert (Hr : Read (conn c) n = Some (conn c, ([], Some EOF))).
    { cbn [Read Wire_Reader]. unfold Wire_Read. rewrite Hi. reflexivity. }
    destruct (Conn_Read_payload fuel n c sd _ _ _ Hstr Hd Hr)
      as (c' & Hrd & _ & _ & Hid & _).
    rewrite Hnil in Hrd. cbn [snd] in Hrd.
    rewrite Hrd. cbn [bind app]. exists c'. split; [reflexivity | exact Hid].
  - assert (Hne : incoming (conn c) <> []) by (rewrite Hi; discriminate).
    destruct (Conn_Read_Wire_stream fuel n c sd Hstr Hd Hcl Hne)
      as (c1 & j & Hr & _ & Hjp & Hd1 & _ & Hid1 & Hcl1 & Hp1 & Hprog).
    rewrite Hp in Hjp, Hr, Hd1, Hp1. cbn [length] in Hjp.
    assert (Hj : j = O) by lia. subst j.
    rewrite firstn_nil, Hnil in Hr, Hd1. cbn [fst snd] in Hr, Hd1.
    rewrite skipn_nil in Hp1.
    rewrite Hr. cbn [bind app].
    destruct Hprog as [Hshort | [Hx _]]; [|lia].
    rewrite Hi in Hshort. cbn [length] in Hshort, Hf.
    destruct (IH c1 sd Hd1 Hcl1 Hp1 ltac:(lia)) as (c' & Hl & Hid').
    rewrite Hl. exists c'. split; [reflexivity | congruence].
Qed.

(** Reading one chunk from the stream: the 12 bytes of the header, then
    the data, whatever the segments they arrive in. *)
Lemma OTA_chunk_reads {St} {SC : Stream St}
  (fuel : nat) (cr0 : Conn Wire St) (hdr b more : list byte) (se sd : St) :
  streaming St ->
  dec (cipher cr0) = Some sd ->
  inverse_streams se sd ->
  length hdr = 12%nat ->
  clean (conn cr0) ->
  pending (conn cr0) = snd (XORKeyStream se (hdr ++ b)) ++ more ->
  (length (incoming (conn cr0)) < fuel)%nat ->
  exists src1 src2,
    ReadFull (RD := Conn_Reader fuel) fuel cr0 12 = Some (src1, (hdr, None))
    /\ ReadFull (RD := Conn_Reader fuel) fuel src1 (length b)
       = Some (src2, (b, None))
    /\ dec (cipher src2)
       = Some (fst (XORKeyStream sd (snd (XORKeyStream se (hdr ++ b)))))
    /\ iv (cipher src2) = iv (cipher cr0)
    /\ chunkId src2 = chunkId cr0
    /\ clean (conn src2)
    /\ pending (conn src2) = more
    /\ (length (incoming (conn src2)) <= length (incoming (conn cr0)))%nat.
Proof.
  intros Hstr Hd0 Hinv Hlh Hcl0 Hp0 Hf0.
  pose proof (Hinv (hdr ++ b)) as Hback.
  pose proof (XORKeyStream_length se (hdr ++ b)) as Hlct.
  rewrite length_app, Hlh in Hlct.
  set (ct := snd (XORKeyStream se (hdr ++ b))) in *.
  destruct (streaming_firstn sd ct 12 Hstr) as [Hf1 Hs1].
  rewrite Hback in Hf1, Hs1.
  assert (Hfh : firstn 12 (hdr ++ b) = hdr).
  { rewrite firstn_app, Hlh, Nat.sub_diag, firstn_O, app_nil_r.
    apply firstn_all2. lia. }
  assert (Hsh : skipn 12 (hdr ++ b) = b).
  { rewrite skipn_app, Hlh, Nat.sub_diag, skipn_O.
    rewrite skipn_all2 by lia. reflexivity. }
  rewrite Hfh in Hf1. rewrite Hsh in Hs1.
  assert (Hpre : firstn 12 (ct ++ more) = firstn 12 ct).
  { rewrite firstn_app.
    replace (12 - length ct)%nat with O by lia.
    rewrite firstn_O, app_nil_r. reflexivity. }
  assert (Hpost : skipn 12 (ct ++ more) = skipn 12 ct ++ more).
  { rewrite skipn_app.
    replace (12 - length ct)%nat with O by lia. reflexivity. }
  destruct (ReadFull_Conn_Wire_stream fuel 12 cr0 sd Hstr Hd0 Hcl0)
    as (src1 & HRF1 & Hd1 & Hiv1 & Hid1' & Hcl1 & Hp1 & Hlen1);
    [rewrite Hp0, length_app; lia | exact Hf0 |].
  rewrite Hp0, Hpre in HRF1, Hd1. rewrite Hp0, Hpost in Hp1.
  rewrite Hf1 in HRF1.
  assert (Hls : length (skipn 12 ct) = length b)
    by (rewrite length_skipn; lia).
  assert (Hpre2 : firstn (length b) (skipn 12 ct ++ more) = skipn 12 ct).
  { rewrite firstn_app, Hls, Nat.sub_diag, firstn_O, app_nil_r.
    apply firstn_all2. lia. }
  assert (Hpost2 : skipn (length b) (skipn 12 ct ++ more) = more).
  { rewrite skipn_app, Hls, Nat.sub_diag, skipn_O.
    rewrite skipn_all2 by lia. reflexivity. }
  destruct (ReadFull_Conn_Wire_stream fuel (length b) src1 _ Hstr Hd1 Hcl1)
    as (src2 & HRF2 & Hd2 & Hiv2 & Hid2 & Hcl2 & Hp2 & Hlen2);
    [rewrite Hp1, length_app; lia | lia |].
  rewrite Hp1, Hpre2, Hs1 in HRF2, Hd2. rewrite Hp1, Hpost2 in Hp2.
  cbn [fst snd] in HRF2, Hd2.
  exists src1, src2.
  split; [exact HRF1|]. split; [exact HRF2|]. split; [exact Hd2|].
  split; [congruence|]. split; [congruence|].
  split; [exact Hcl2|]. split; [exact Hp2 | lia].
Qed.

(** The header of the chunk that [otaReqChunkAuth] builds. *)
Lemma OTA_header {CR : Crypto} (v : list byte) (id : Z) (b : list byte) :
  Z.of_nat (length b) <= 65523 ->
  exists hdr,
    otaReqChunkAuth v id b = hdr ++ b
    /\ length hdr = 12%nat
    /\ BigEndian_Uint16 (slice hdr 0 2) = Z.of_nat (length b)
    /\ slice hdr 2 12 = HmacSha1 (v ++ BigEndian_PutUint32 id) b.
Proof.
  intros Hb.
  set (tag := HmacSha1 (v ++ BigEndian_PutUint32 id) b).
  assert (Hlt : length tag = 10%nat) by apply length_HmacSha1.
  exists (BigEndian_PutUint16 (to_uint16 (Z.of_nat (length b))) ++ tag).
  split; [unfold otaReqChunkAuth; rewrite app_assoc; reflexivity|].
  split; [rewrite length_app, Hlt; reflexivity|].
  split.
  - unfold slice, BigEndian_PutUint16. cbn [Nat.sub skipn firstn app].
    apply (Uint16_PutUint16 (Z.of_nat (length b))). lia.
  - unfold slice, BigEndian_PutUint16. cbn [Nat.sub skipn app].
    apply firstn_all2. lia.
Qed.

(** One chunk from the sender to the relay: the turn that finds, first
    among the pending bytes, the ciphertext of the chunk that [Write] sent
    for [b] verifies it and hands [b] to [dst.Write]; the two ends are in
    step afterwards. *)
Lemma OTA_chunk_turn {T St D}
  {WR : Writer T} {SC : Stream St} {CR : Crypto} {WD : Writer D}
  (fuel : nat) (rt : Z) (cw cw1 : Conn T St) (cr : Conn Wire St)
  (dst : D) (b : list byte) (n : Z) (err : option error)
  (more buf : list byte) (se sd : St) :
  streaming St ->
  ota (cipher cw) = true ->
  enc (cipher cw) = Some se ->
  dec (cipher cr) = Some sd ->
  inverse_streams se sd ->
  iv (cipher cr) = iv (cipher cw) ->
  chunkId cr = chunkId cw ->
  Z.of_nat (length b) <= 65523 ->
  Conn_Write cw b = Some (cw1, (n, err)) ->
  clean (conn cr) ->
  pending (conn cr)
  = snd (XORKeyStream se
           (otaReqChunkAuth (iv (cipher cw)) (chunkId cw) b)) ++ more ->
  (length (incoming (conn cr)) < fuel)%nat ->
  (12 <= length buf)%nat ->
  exists cr1 buf1 se1 sd1,
    PipeThenCloseOta_iter fuel rt (cr, dst, buf)
    = (' (dst', (_, werr)) <- Write dst b ;;
       Some (cr1, dst', buf1, option_map WriteError werr))
    /\ enc (cipher cw1) = Some se1
    /\ dec (cipher cr1) = Some sd1
    /\ inverse_streams se1 sd1
    /\ iv (cipher cr1) = iv (cipher cw1)
    /\ chunkId cr1 = chunkId cw1
    /\ ota (cipher cw1) = true
    /\ clean (conn cr1)
    /\ pending (conn cr1) = more
    /\ (length (incoming (conn cr1)) <= length (incoming (conn cr)))%nat.
Proof.
  intros Hstr Hota He Hd Hinv Hiv Hid Hb E Hcl Hp Hf Hbuf.
  destruct (Conn_Write_ota_established _ _ _ _ _ _ Hota He E)
    as (_ & Hci & Hid1).
  destruct (OTA_header (iv (cipher cw)) (chunkId cw) b Hb)
    as (hdr & Hfr & Hlh & Hdl & Htag).
  rewrite Hfr in *.
  pose proof (inverse_streams_step se sd (hdr ++ b) Hstr Hinv) as Hnext.
  destruct (Wire_SetReadTimeout rt cr) as (Hc0 & Hid0 & Hi0).
  set (cr0 := SetReadTimeout rt cr) in *.
  assert (Hd0 : dec (cipher cr0) = Some sd) by (rewrite Hc0; exact Hd).
  assert (Hcl0 : clean (conn cr0)) by (unfold clean; rewrite Hi0; exact Hcl).
  assert (Hp0 : pending (conn cr0)
                = snd (XORKeyStream se (hdr ++ b)) ++ more)
    by (unfold pending; rewrite Hi0; exact Hp).
  assert (Hf0 : (length (incoming (conn cr0)) < fuel)%nat)
    by (rewrite Hi0; exact Hf).
  destruct (OTA_chunk_reads fuel cr0 hdr b more se sd
              Hstr Hd0 Hinv Hlh Hcl0 Hp0 Hf0)
    as (src1 & src2 & HRF1 & HRF2 & Hd2 & Hiv2 & Hid2 & Hcl2 & Hp2 & Hlen2).
  destruct (PipeThenCloseOta_iter_chunk fuel rt cr src1 src2 dst buf hdr b
              Hbuf HRF1) as (buf1 & Hit).
  { rewrite Hdl. lia. }
  { rewrite Hdl, Nat2Z.id. exact HRF2. }
  cbv zeta in Hit. rewrite Htag in Hit.
  rewrite Hiv2, Hc0, Hiv, Hid in Hit.
  assert (Heq : forall t : list byte, bytes_Equal t t = true)
    by (intros t; apply bytes_Equal_eq; reflexivity).
  rewrite Heq in Hit.
  exists (set_chunkId src2 (to_uint32 (chunkId cw + 1))), buf1,
    (fst (XORKeyStream se (hdr ++ b))),
    (fst (XORKeyStream sd (snd (XORKeyStream se (hdr ++ b))))).
  split; [exact Hit|].
  cbn [cipher set_chunkId chunkId conn]. rewrite Hci, Hid1.
  cbn [enc set_enc iv ota].
  split; [reflexivity|]. split; [exact Hd2|]. split; [exact Hnext|].
  split; [rewrite Hiv2, Hc0; exact Hiv|].
  split; [reflexivity|]. split; [exact Hota|].
  split; [exact Hcl2|]. split; [exact Hp2|].
  rewrite Hi0 in Hlen2. lia.
Qed.

Lemma Conn_Write_log {T St}
  {WR : Writer T} {SC : Stream St} {CR : Crypto}
  (c c' : Conn (Logged T) St) (b : list byte) (n : Z) (err : option error) :
  Conn_Write c b = Some (c', (n, err)) ->
  exists ps, written (calls (conn c')) = written (calls (conn c)) ++ ps.
Proof.
  unfold Conn_Write. intros E.
  assert (H : exists c0 b0,
             conn c0 = conn c /\ Conn_write c0 b0 = Some (c', (n, err))).
  { destruct (ota (cipher c)).
    - cbn [Conn_GetAndIncrChunkId] in E. do 2 eexists.
      split; [|exact E]. reflexivity.
    - do 2 eexists. split; [|exact E]. reflexivity. }
  clear E. destruct H as (c0 & b0 & Hc & E). rewrite <- Hc.
  destruct (enc (cipher c0)) as [se|] eqn:He.
  - destruct (Conn_write_established _ _ _ _ _ _ He E) as (Hw & _).
    apply Logged_Write_calls in Hw. rewrite Hw, written_app. eauto.
  - destruct (Conn_write_fresh _ _ _ _ _ He E)
      as [[Hc' _] | (v & se & _ & _ & Hw & _)].
    + exists []. rewrite Hc', app_nil_r. reflexivity.
    + apply Logged_Write_calls in Hw. rewrite Hw, written_app. eauto.
Qed.

Lemma Write_seq_Conn_log {T St}
  {WR : Writer T} {SC : Stream St} {CR : Crypto} (bs : list (list byte)) :
  forall (c c' : Conn (Logged T) St) (e : option error),
    Write_seq (WD := Conn_Writer) c bs = Some (c', e) ->
    exists ps, written (calls (conn c')) = written (calls (conn c)) ++ ps.
Proof.
  induction bs as [|b bs IH]; intros c c' e E.
  - inv E. exists []. rewrite app_nil_r. reflexivity.
  - cbn [Write_seq Write Conn_Writer] in E.
    apply bind_Some in E. destruct E as [[c1 [n err]] [Hw E]].
    apply Conn_Write_log in Hw. destruct Hw as (p1 & Hp1).
    destruct err as [x|].
    + inv E. eauto.
    + apply IH in E. destruct E as (p2 & Hp2).
      exists (p1 ++ p2). rewrite Hp2, Hp1, app_assoc. reflexivity.
Qed.

(** The turn that finds the stream at its end leaves the loop. *)
Lemma OTA_eof_turn {St D}
  {SC : Stream St} {CR : Crypto} {WD : Writer D}
  (fuel : nat) (rt : Z) (cr : Conn Wire St) (dst : D) (buf : list byte)
  (sd : St) :
  streaming St ->
  dec (cipher cr) = Some sd ->
  clean (conn cr) ->
  pending (conn cr) = [] ->
  (length (incoming (conn cr)) < fuel)%nat ->
  (12 <= length buf)%nat ->
  exists cr' buf',
    PipeThenCloseOta_iter fuel rt (cr, dst, buf)
    = Some (cr', dst, buf', Some HeaderEOF)
    /\ chunkId cr' = chunkId cr.
Proof.
  intros Hstr Hd Hcl Hp Hf Hbuf.
  destruct (Wire_SetReadTimeout rt cr) as (Hc0 & Hid0 & Hi0).
  unfold PipeThenCloseOta_iter.
  change (dataLenLen + hmacSha1Len)%nat with 12%nat.
  destruct (Nat.ltb_spec (length buf) 12) as [Hs|_]; [lia|].
  set (cr0 := SetReadTimeout rt cr) in *.
  destruct (ReadAtLeast_Conn_Wire_eof fuel 12 Hstr ltac:(lia) fuel cr0 sd)
    as (c' & Hl & Hid').
  - rewrite Hc0. exact Hd.
  - unfold clean. rewrite Hi0. exact Hcl.
  - unfold pending. rewrite Hi0. exact Hp.
  - rewrite Hi0. exact Hf.
  - unfold ReadFull. rewrite Hl.
    cbn [bind app length Nat.leb Nat.ltb andb].
    do 2 eexists. split; [reflexivity|]. congruence.
Qed.

Lemma app_eq_self_nil {A} (l ps : list A) : l = l ++ ps -> ps = [].
Proof.
  intros H. rewrite <- (app_nil_r l) in H at 1.
  apply app_inv_head in H. symmetry. exact H.
Qed.

Lemma OTA_loop_forwards {T St D}
  {WR : Writer T} {SC : Stream St} {CR : Crypto} {WD : Writer D}
  (fuel : nat) (rt : Z) :
  streaming St ->
  forall (bs : list (list byte)) (cw cw' : Conn (Logged T) St)
         (cr : Conn Wire St) (dst dst1 : D) (werr : option error)
         (ps : list (list byte)) (buf : list byte) (turns : nat)
         (se sd : St),
    ota (cipher cw) = true ->
    enc (cipher cw) = Some se ->
    dec (cipher cr) = Some sd ->
    inverse_streams se sd ->
    iv (cipher cr) = iv (cipher cw) ->
    chunkId cr = chunkId cw ->
    Forall (fun b => Z.of_nat (length b) <= 65523) bs ->
    Write_seq (WD := Conn_Writer) cw bs = Some (cw', None) ->
    written (calls (conn cw')) = written (calls (conn cw)) ++ ps ->
    clean (conn cr) ->
    pending (conn cr) = concat ps ->
    (length (incoming (conn cr)) < fuel)%nat ->
    (12 <= length buf)%nat ->
    Write_seq dst bs = Some (dst1, werr) ->
    (length bs < turns)%nat ->
    exists cr' buf',
      PipeThenCloseOta_loop turns fuel rt (cr, dst, buf)
      = Some (cr', dst1, buf',
              match werr with
              | None => HeaderEOF
              | Some e => WriteError e
              end)
      /\ (werr = None -> chunkId cr' = chunkId cw').
Proof.
  intros Hstr.
  induction bs as [|b bs IH];
    intros cw cw' cr dst dst1 werr ps buf turns se sd
           Hota He Hd Hinv Hiv Hid Hbs Hws Hlog Hcl Hp Hf Hbuf Hwd Ht;
    (destruct turns as [|turns]; [lia|]); cbn [PipeThenCloseOta_loop].
  - inv Hws. inv Hwd. apply app_eq_self_nil in Hlog. subst ps.
    destruct (OTA_eof_turn fuel rt cr dst1 buf sd Hstr Hd Hcl Hp Hf Hbuf)
      as (cr' & buf' & Hit & Hid').
    rewrite Hit. cbn [bind]. exists cr', buf'.
    split; [reflexivity|]. intros _. congruence.
  - cbn [Write_seq Write Conn_Writer] in Hws.
    apply bind_Some in Hws. destruct Hws as [[cw1 [n err]] [Hw Hws]].
    destruct err as [x|]; [discriminate|].
    inversion Hbs as [|? ? Hb Hbs']; subst.
    destruct (Conn_Write_ota_established _ _ _ _ _ _ Hota He Hw)
      as (Hlw & _ & _).
    apply Logged_Write_calls in Hlw.
    destruct (Write_seq_Conn_log _ _ _ _ Hws) as (ps' & Hps').
    rewrite Hps', Hlw, written_app, <- app_assoc in Hlog.
    apply app_inv_head in Hlog. cbn [written app] in Hlog. subst ps.
    cbn [concat] in Hp.
    destruct (OTA_chunk_turn fuel rt cw cw1 cr dst b n None _ buf se sd
                Hstr Hota He Hd Hinv Hiv Hid Hb Hw Hcl Hp Hf Hbuf)
      as (cr1 & buf1 & se1 & sd1 & Hit & He1 & Hd1 & Hinv1 & Hiv1 & Hid1
          & Hota1 & Hcl1 & Hp1 & Hlen1).
    cbn [Write_seq] in Hwd.
    apply bind_Some in Hwd. destruct Hwd as [[d1 [m we]] [Hwd1 Hwd]].
    rewrite Hwd1 in Hit. cbn [bind] in Hit.
    pose proof (PipeThenCloseOta_iter_buf_length _ _ _ _ _ _ _ _ _ Hit)
      as Hlb.
    rewrite Hit. cbn [bind].
    destruct we as [e|].
    + inv Hwd. cbn [option_map]. exists cr1, buf1.
      split; [reflexivity | discriminate].
    + cbn [option_map]. cbn [length] in Ht.
      apply (IH cw1 cw' cr1 d1 dst1 werr ps' buf1 turns se1 sd1);
        try assumption; try lia.
Qed.

(** X7.  What the OTA sender writes, the OTA relay forwards, however the
    network cuts the stream.  A connection with OTA and an encrypt stream
    writes the payloads [bs], of at most 65523 bytes each, with [Write];
    all writes succeed and hand [ps] to the transport.  The bytes of [ps]
    arrive, in segments of any sizes and without error, followed by end of
    file, on a connection whose decrypt stream is in step and which has the
    same IV and chunk counter.  Then [PipeThenCloseOta] on that connection,
    with a pooled buffer of at least 12 bytes and more fuel than chunks and
    than segments, returns: every chunk passes the check, [dst] is handed
    exactly the payloads [bs] in order, up to the first one for which
    [dst.Write] fails, and is then closed; the loop is left by that write
    error, or else by the end of file at a chunk boundary, with the two
    chunk counters equal. *)
Theorem PipeThenCloseOta_forwards_Write {T St D}
  {WR : Writer T} {SC : Stream St} {CR : Crypto}
  {WD : Writer D} {CD : Closer D}
  (fuel : nat) (rt : Z) (lb : LeakyBuf)
  (cw cw' : Conn (Logged T) St) (cr : Conn Wire St)
  (dst dst1 : D) (werr : option error)
  (bs ps : list (list byte)) (se sd : St) :
  streaming St ->
  ota (cipher cw) = true ->
  enc (cipher cw) = Some se ->
  dec (cipher cr) = Some sd ->
  inverse_streams se sd ->
  iv (cipher cr) = iv (cipher cw) ->
  chunkId cr = chunkId cw ->
  Forall (fun b => Z.of_nat (length b) <= 65523) bs ->
  Write_seq (WD := Conn_Writer) cw bs = Some (cw', None) ->
  written (calls (conn cw')) = written (calls (conn cw)) ++ ps ->
  clean (conn cr) ->
  pending (conn cr) = concat ps ->
  (12 <= length (fst (LeakyBuf_Get lb)))%nat ->
  Write_seq dst bs = Some (dst1, werr) ->
  (length bs < fuel)%nat ->
  (length (incoming (conn cr)) < fuel)%nat ->
  exists lb' cr',
    PipeThenCloseOta fuel rt lb cr dst
    = Some (lb', cr', fst (Close dst1),
            match werr with
            | None => HeaderEOF
            | Some e => WriteError e
            end)
    /\ (werr = None -> chunkId cr' = chunkId cw').
Proof.
  intros Hstr Hota He Hd Hinv Hiv Hid Hbs Hws Hlog Hcl Hp Hbuf Hwd Hfuel Hsegs.
  unfold PipeThenCloseOta.
  destruct (LeakyBuf_Get lb) as [buf lb1]. cbn [fst] in Hbuf.
  destruct (OTA_loop_forwards (T := T) (WR := WR) (WD := WD)
              fuel rt Hstr bs cw cw' cr dst dst1
              werr ps buf fuel se sd Hota He Hd Hinv Hiv Hid Hbs Hws Hlog
              Hcl Hp Hsegs Hbuf Hwd Hfuel) as (cr' & buf' & Hl & Hc).
  rewrite Hl. cbn [bind].
  destruct (Close dst1) as [d2 ce]. cbn [fst].
  do 2 eexists. split; [reflexivity | exact Hc].
Qed.

Lemma PipeThenCloseOta_forwards_Write_witness :
  exists lb' cr' dst',
    PipeThenCloseOta (CR := toy_crypto false) 5 0 small_pool
      (ota_peer ota_chunks_cut) (wire [])
    = Some (lb', cr', dst', HeaderEOF)
    /\ sent dst' = [[1; 2; 3]; [4; 5]]
    /\ closed dst' = true
    /\ chunkId cr' = 2.
Proof.
  destruct (Write_seq (WD := Conn_Writer (CR := toy_crypto false))
              ota_logged_writer [[1; 2; 3]; [4; 5]])
    as [[cw' e]|] eqn:E; [|vm_compute in E; discriminate].
  assert (Hw : e = None
               /\ written (calls (conn cw'))
                  = written (calls (conn ota_logged_writer)) ++ ota_chunks
               /\ chunkId cw' = 2)
    by (vm_compute in E; injection E as <- <-; repeat split).
  destruct Hw as (-> & Hlog & Hid).
  destruct (Write_seq (wire []) [[1; 2; 3]; [4; 5]])
    as [[dst1 werr]|] eqn:Ed; [|vm_compute in Ed; discriminate].
  assert (Hd : werr = None
               /\ sent (fst (Close dst1)) = [[1; 2; 3]; [4; 5]]
               /\ closed (fst (Close dst1)) = true)
    by (vm_compute in Ed; injection Ed as <- <-; repeat split).
  destruct Hd as (-> & Hsent & Hclosed).
  destruct (PipeThenCloseOta_forwards_Write (CR := toy_crypto false)
              5 0 small_pool ota_logged_writer cw' (ota_peer ota_chunks_cut)
              (wire []) dst1 None [[1; 2; 3]; [4; 5]] ota_chunks 7 7)
    as (lb' & cr' & Hrun & Hc); try reflexivity; try assumption.
  - exact count_xor_streaming.
  - apply count_xor_inverse.
  - repeat constructor; cbn; lia.
  - repeat constructor.
  - cbn. lia.
  - cbn. lia.
  - cbn. lia.
  - exists lb', cr', (fst (Close dst1)).
    split; [exact Hrun|]. split; [exact Hsent|]. split; [exact Hclosed|].
    rewrite (Hc eq_refl). exact Hid.
Defined.

(* ================================================================= *)
(** ** The plain relay: which calls, and when it stops *)

Lemma PipeThenClose_iter_trace {S D}
  {RD : Reader S} {DL : Deadline S} {WD : Writer D}
  (rt : Z) (src : Logged S) (dst : Logged D) (buf : list byte) r :
  PipeThenClose_iter rt (src, dst, buf) = Some r ->
  exists src' dst' buf' bs err w,
    calls src' = calls src ++ src_turn rt (length buf) (bs, err)
    /\ length buf' = length buf
    /\ calls dst' = calls dst ++ w
    /\ ((r = Continue (src', dst', buf') /\ err = None
         /\ Forall is_ok_write w)
        \/ (r = Break (src', dst', buf')
            /\ ((Forall is_ok_write w /\ err <> None)
                \/ exists p n e, w = [EvWrite p n (Some e)]))).
Proof.
  unfold PipeThenClose_iter. intros E.
  assert (Hto : calls (SetReadTimeout rt src)
                = calls src
                    ++ (if rt =? 0 then [] else [EvSetReadDeadline])).
  { unfold SetReadTimeout. destruct (rt =? 0).
    - rewrite app_nil_r. reflexivity.
    - reflexivity. }
  apply bind_Some in E. destruct E as [[src1 [bs err]] [Hr E]].
  cbn [Read Logged_Reader] in Hr. unfold Logged_Read in Hr.
  apply bind_Some in Hr. destruct Hr as [[t [bs0 e0]] [_ Hr]]. inv Hr.
  apply bind_Some in E. destruct E as [[dst1 werr] [Hw E]].
  assert (Hlen : length (copy_at buf 0 bs) = length buf)
    by (apply length_copy_at; lia).
  assert (Hs : calls {| inner := t;
                        calls := calls (SetReadTimeout rt src)
                                   ++ [EvRead (length buf) bs err] |}
               = calls src ++ src_turn rt (length buf) (bs, err)).
  { cbn [calls]. rewrite Hto, <- app_assoc. reflexivity. }
  assert (Hd : exists w,
             calls dst1 = calls dst ++ w
             /\ ((werr = None /\ Forall is_ok_write w)
                 \/ exists p n e, werr = Some e /\ w = [EvWrite p n (Some e)])).
  { destruct (0 <? length bs)%nat.
    - apply bind_Some in Hw. destruct Hw as [[d2 [n we]] [Hw0 Hw]]. inv Hw.
      apply Logged_Write_calls in Hw0. eexists. split; [exact Hw0|].
      destruct werr as [e|].
      + right. do 3 eexists. split; reflexivity.
      + left. split; [reflexivity|]. repeat constructor.
    - inv Hw. exists []. rewrite app_nil_r. split; [reflexivity|].
      left. split; [reflexivity | constructor]. }
  destruct Hd as (w & Hdw & Hcase).
  do 6 eexists. split; [exact Hs|]. split; [exact Hlen|].
  split; [exact Hdw|].
  destruct Hcase as [[-> Hok] | (p & n & e & -> & ->)].
  - destruct err as [e|]; inv E.
    + right. split; [reflexivity|]. left. split; [exact Hok | discriminate].
    + left. repeat split. exact Hok.
  - inv E. right. split; [reflexivity|]. right. eauto.
Qed.

Lemma PipeThenClose_loop_trace {S D}
  {RD : Reader S} {DL : Deadline S} {WD : Writer D} (rt : Z) (fuel : nat) :
  forall (src : Logged S) (dst : Logged D) (buf : list byte) src' dst' buf',
    PipeThenClose_loop fuel rt (src, dst, buf) = Some (src', dst', buf') ->
    exists rs last_r oks final,
      calls src'
      = calls src ++ flat_map (src_turn rt (length buf)) (rs ++ [last_r])
      /\ Forall (fun r => snd r = None) rs
      /\ calls dst' = calls dst ++ oks ++ final
      /\ Forall is_ok_write oks
      /\ ((final = [] /\ snd last_r <> None)
          \/ exists p n e, final = [EvWrite p n (Some e)]).
Proof.
  induction fuel as [|fuel IH]; intros src dst buf src' dst' buf' E;
    [discriminate|].
  cbn [PipeThenClose_loop] in E.
  apply bind_Some in E. destruct E as [r [Hit E]].
  apply PipeThenClose_iter_trace in Hit.
  destruct Hit as (s1 & d1 & b1 & bs & err & w & Hs & Hlb & Hd & Hcase).
  destruct Hcase as [(-> & -> & Hok) | (-> & Hbr)].
  - apply IH in E.
    destruct E as (rs & last_r & oks & final & Hs2 & Hrs & Hd2 & Hoks & Hfin).
    exists ((bs, None) :: rs), last_r, (w ++ oks), final.
    split; [|split; [|split; [|split]]].
    + rewrite Hs2, Hs, Hlb, <- app_assoc. reflexivity.
    + constructor; [reflexivity | exact Hrs].
    + rewrite Hd2, Hd, <- !app_assoc. reflexivity.
    + apply Forall_app. split; assumption.
    + exact Hfin.
  - inv E. exists [], (bs, err).
    destruct Hbr as [[Hok Herr] | (p & n & e & ->)].
    + exists w, []. cbn [app flat_map]. rewrite !app_nil_r.
      split; [exact Hs|]. split; [constructor|]. split; [exact Hd|].
      split; [exact Hok|]. left. split; [reflexivity | exact Herr].
    + exists [], [EvWrite p n (Some e)]. cbn [app flat_map].
      rewrite !app_nil_r.
      split; [exact Hs|]. split; [constructor|]. split; [exact Hd|].
      split; [constructor|]. right. eauto.
Qed.

(** X8.  The calls of the plain relay and where it stops.  On [src] the
    relay makes nothing but reads, each for the length of the pooled buffer
    and each preceded by one [SetReadDeadline] exactly when a read timeout
    is configured; [src] is never written to nor closed.  There is at least
    one read, and every read but the last returned no error.  On [dst] it
    makes writes that all succeeded, then possibly one write that failed,
    then the deferred [Close].  It stops at the first error: the last read
    returned one, or the last write did. *)
Theorem PipeThenClose_stops_at_first_error {S D}
  {RD : Reader S} {DL : Deadline S} {WD : Writer D} {CD : Closer D}
  (fuel : nat) (rt : Z) (lb : LeakyBuf) (src : Logged S) (dst : Logged D)
  lb' src' dst' :
  PipeThenClose fuel rt lb src dst = Some (lb', src', dst') ->
  exists rs last_r oks final,
    calls src'
    = calls src
        ++ flat_map (src_turn rt (length (fst (LeakyBuf_Get lb))))
             (rs ++ [last_r])
    /\ Forall (fun r => snd r = None) rs
    /\ calls dst' = calls dst ++ oks ++ final ++ [EvClose]
    /\ Forall is_ok_write oks
    /\ ((final = [] /\ snd last_r <> None)
        \/ exists p n e, final = [EvWrite p n (Some e)]).
Proof.
  intros E. unfold PipeThenClose in E.
  destruct (LeakyBuf_Get lb) as [buf lb1]. cbn [fst].
  apply bind_Some in E. destruct E as [[[s1 d1] b1] [Hl E]].
  apply PipeThenClose_loop_trace in Hl.
  destruct Hl as (rs & last_r & oks & final & Hs & Hrs & Hd & Hoks & Hfin).
  cbn [Close Logged_Closer] in E.
  destruct (Close (inner d1)) as [t e]. inv E.
  exists rs, last_r, oks, final. cbn [calls].
  rewrite Hd, <- !app_assoc. repeat split; assumption.
Qed.

Lemma PipeThenClose_stops_at_first_error_witness :
  exists lb' src' dst',
    PipeThenClose 3 5 small_pool relay_src relay_dst = Some (lb', src', dst')
    /\ calls src'
       = [EvSetReadDeadline; EvRead 32 [1; 2; 3] None;
          EvSetReadDeadline; EvRead 32 [4; 5] (Some (ErrIO 9))]
    /\ exists oks final,
        calls dst' = oks ++ final ++ [EvClose] /\ Forall is_ok_write oks.
Proof.
  destruct (PipeThenClose 3 5 small_pool relay_src relay_dst)
    as [[[lb' src'] dst']|] eqn:E; [|vm_compute in E; discriminate].
  destruct (PipeThenClose_stops_at_first_error 3 5 small_pool relay_src
              relay_dst lb' src' dst' E)
    as (rs & last_r & oks & final & _ & _ & Hd & Hoks & _).
  exists lb', src', dst'. split; [reflexivity|].
  split; [vm_compute in E; injection E as _ <- _; reflexivity|].
  exists oks, final. split; [exact Hd | exact Hoks].
Defined.

(* ================================================================= *)
(** ** The plain relay on a transport that loses nothing *)

Lemma PipeThenClose_loop_delivers (rt : Z) (fuel : nat) :
  forall (segs : list (list byte)) (src dst : Wire) (buf : list byte),
    incoming src = map (fun s => (s, None)) segs ->
    wresults dst = [] ->
    (0 < length buf)%nat ->
    (length (concat segs) + length segs < fuel)%nat ->
    exists src' dst' buf',
      PipeThenClose_loop fuel rt (src, dst, buf) = Some (src', dst', buf')
      /\ concat (sent dst') = concat (sent dst) ++ concat segs
      /\ incoming src' = []
      /\ closed dst' = closed dst.
Proof.
  induction fuel as [|fuel IH]; intros segs src dst buf Hi Hw Hb Hf; [lia|].
  cbn [PipeThenClose_loop]. unfold PipeThenClose_iter.
  assert (Hi0 : incoming (SetReadTimeout rt src) = incoming src).
  { unfold SetReadTimeout. destruct (rt =? 0); reflexivity. }
  set (src0 := SetReadTimeout rt src) in *.
  cbn [Read Wire_Reader]. unfold Wire_Read. rewrite Hi0, Hi.
  destruct segs as [|seg rest]; cbn [map].
  - cbn [bind length Nat.ltb Nat.leb].
    do 3 eexists. split; [reflexivity|]. cbn [concat].
    rewrite app_nil_r. repeat split. rewrite Hi0, Hi. reflexivity.
  - cbn [concat length] in Hf. rewrite length_app in Hf.
    assert (Hwr : forall p : list byte,
               Write dst p
               = Some ({| incoming := incoming dst; wresults := [];
                          sent := sent dst ++ [p]; closed := closed dst;
                          deadlines := deadlines dst |},
                       (Z.of_nat (length p), None))).
    { intros p. cbn [Write Wire_Writer]. unfold Wire_Write.
      rewrite Hw. reflexivity. }
    destruct (Nat.leb_spec (length seg) (length buf)) as [Hle|Hgt].
    + cbn [bind]. cbv zeta.
      rewrite slice_copy_at_0 by exact Hle.
      set (buf1 := copy_at buf 0 seg).
      assert (Hb1 : (0 < length buf1)%nat)
        by (unfold buf1; rewrite length_copy_at; lia).
      destruct (Nat.ltb_spec 0 (length seg)) as [Hpos|Hz].
      * rewrite Hwr. cbn [bind].
        match goal with
        | |- context [PipeThenClose_loop fuel rt (?s, ?d, ?b)] =>
            destruct (IH rest s d b eq_refl eq_refl Hb1 ltac:(lia))
              as (s' & d' & b' & Hl & Hc & Hin & Hcl)
        end.
        rewrite Hl. do 3 eexists. split; [reflexivity|].
        cbn [sent closed] in Hc, Hcl.
        rewrite Hc, concat_app. cbn [concat].
        rewrite app_nil_r, <- app_assoc.
        repeat split; assumption.
      * cbn [bind].
        assert (Hnil : seg = [])
          by (destruct seg; [reflexivity | cbn in Hz; lia]).
        match goal with
        | |- context [PipeThenClose_loop fuel rt (?s, ?d, ?b)] =>
            destruct (IH rest s d b eq_refl Hw Hb1 ltac:(lia))
              as (s' & d' & b' & Hl & Hc & Hin & Hcl)
        end.
        rewrite Hl. do 3 eexists. split; [reflexivity|].
        rewrite Hc, Hnil. cbn [concat app]. repeat split; assumption.
    + cbn [bind]. cbv zeta.
      assert (Hlf : length (firstn (length buf) seg) = length buf)
        by (rewrite length_firstn; lia).
      assert (Hsl : slice (copy_at buf 0 (firstn (length buf) seg)) 0
                      (length (firstn (length buf) seg))
                    = firstn (length buf) seg)
        by (apply slice_copy_at_0; lia).
      rewrite Hsl.
      set (buf1 := copy_at buf 0 (firstn (length buf) seg)).
      assert (Hb1 : (0 < length buf1)%nat)
        by (unfold buf1; rewrite length_copy_at; lia).
      destruct (Nat.ltb_spec 0 (length (firstn (length buf) seg)))
        as [_|Hz]; [|lia].
      rewrite Hwr. cbn [bind].
      assert (Hm : (length (concat (skipn (length buf) seg :: rest))
                    + length (skipn (length buf) seg :: rest) < fuel)%nat)
        by (cbn [concat length]; rewrite length_app, length_skipn; lia).
      match goal with
      | |- context [PipeThenClose_loop fuel rt (?s, ?d, ?b)] =>
          destruct (IH (skipn (length buf) seg :: rest) s d b
                      eq_refl eq_refl Hb1 Hm)
            as (s' & d' & b' & Hl & Hc & Hin & Hcl)
      end.
      rewrite Hl. do 3 eexists. split; [reflexivity|].
      cbn [sent closed] in Hc, Hcl.
      rewrite Hc, concat_app. cbn [concat].
      rewrite app_nil_r, <- !app_assoc, (app_assoc (firstn _ seg)),
        firstn_skipn.
      repeat split; assumption.
Qed.

(** X9.  On transports that lose nothing the plain relay delivers the
    stream and returns.  [src] delivers the segments [segs] without error
    and is then at end of file; every write on [dst] succeeds; the pooled
    buffer is not empty.  Then [PipeThenClose], given one unit of fuel per
    byte and per segment and one more, returns; whatever the sizes of the
    segments and of the buffer, the bytes written to [dst] are the bytes of
    [segs], in order and without loss; [src] is drained and [dst] is
    closed. *)
Theorem PipeThenClose_delivers_stream (rt : Z) (lb : LeakyBuf)
  (segs : list (list byte)) (src dst : Wire) (fuel : nat) :
  incoming src = map (fun s => (s, None)) segs ->
  wresults dst = [] ->
  (0 < length (fst (LeakyBuf_Get lb)))%nat ->
  (length (concat segs) + length segs < fuel)%nat ->
  exists lb' src' dst',
    PipeThenClose fuel rt lb src dst = Some (lb', src', dst')
    /\ concat (sent dst') = concat (sent dst) ++ concat segs
    /\ incoming src' = []
    /\ closed dst' = true.
Proof.
  intros Hi Hw Hb Hf. unfold PipeThenClose.
  destruct (LeakyBuf_Get lb) as [buf lb1]. cbn [fst] in Hb.
  destruct (PipeThenClose_loop_delivers rt fuel segs src dst buf Hi Hw Hb Hf)
    as (s' & d' & b' & Hl & Hc & Hin & _).
  rewrite Hl. cbn [bind Close Wire_Closer].
  do 3 eexists. split; [reflexivity|]. cbn [sent incoming closed].
  repeat split; assumption.
Qed.

Lemma PipeThenClose_delivers_stream_witness :
  exists lb' src' dst',
    PipeThenClose 9 0 {| bufSize := 2; maxN := 1; freeList := [] |}
      (wire [([1; 2; 3], None); ([], None); ([4; 5], None)]) (wire [])
    = Some (lb', src', dst')
    /\ concat (sent dst') = [1; 2; 3; 4; 5]
    /\ incoming src' = []
    /\ closed dst' = true.
Proof.
  apply (PipeThenClose_delivers_stream 0
           {| bufSize := 2; maxN := 1; freeList := [] |}
           [[1; 2; 3]; []; [4; 5]]
           (wire [([1; 2; 3], None); ([], None); ([4; 5], None)])
           (wire []) 9);
    [reflexivity | reflexivity | cbn; lia | cbn; lia].
Defined.

(* ================================================================= *)
(** ** The OTA relay: which calls, and the chunk that is too long *)

Lemma only_reads_refl {T} (l : Logged T) : only_reads (calls l) l.
Proof. exists []. rewrite app_nil_r. repeat split. Qed.

Lemma only_reads_step {T} (base : list event) (l l' : Logged T)
  (es : list event) :
  calls l' = calls l ++ es -> written es = [] -> closes es = O ->
  only_reads base l -> only_reads base l'.
Proof.
  intros Hc Hw Hcl (es0 & H0 & Hw0 & Hc0).
  exists (es0 ++ es). rewrite Hc, H0, <- app_assoc.
  rewrite written_app, closes_app, Hw, Hcl, Hw0, Hc0. repeat split.
Qed.

Lemma Logged_Read_only_reads {T} {RD : Reader T} (base : list event)
  (l l' : Logged T) (k : nat) x :
  Read l k = Some (l', x) -> only_reads base l -> only_reads base l'.
Proof.
  cbn [Read Logged_Reader]. unfold Logged_Read. intros E.
  apply bind_Some in E. destruct E as [[t [bs e]] [_ E]]. inv E.
  apply (only_reads_step base l _ [EvRead k bs e]); reflexivity.
Qed.

Lemma Conn_Read_only_reads {T St} {RD : Reader T} {SC : Stream St}
  (base : list event) (fuel : nat) (c c' : Conn (Logged T) St) (k : nat) x :
  Conn_Read fuel c k = Some (c', x) ->
  only_reads base (conn c) -> only_reads base (conn c').
Proof.
  unfold Conn_Read. intros E H0.
  apply bind_Some in E. destruct E as [[c1 err1] [Hh E]].
  assert (H1 : only_reads base (conn c1)).
  { destruct (dec (cipher c)); [inv Hh; exact H0|].
    apply bind_Some in Hh. destruct Hh as [[t1 [got e1]] [Hrf Hh]].
    assert (Ht1 : only_reads base t1).
    { eapply (ReadFull_preserves (only_reads base) fuel (conn c) t1);
        [|exact Hrf | exact H0].
      intros a k0 a' x0. apply Logged_Read_only_reads. }
    destruct e1 as [e1|]; [inv Hh; exact Ht1|].
    destruct (initDecrypt _ _) as [ci [e2|]]; [inv Hh; exact Ht1|].
    destruct (length _ =? 0)%nat; inv Hh; exact Ht1. }
  clear Hh H0.
  destruct err1; [inv E; exact H1|].
  apply bind_Some in E. destruct E as [[t [bs e]] [Hr E]].
  apply (Logged_Read_only_reads base) in Hr; [|exact H1].
  destruct (0 <? length bs)%nat; [|inv E; exact Hr].
  apply bind_Some in E. destruct E as [[ci b] [_ E]]. inv E. exact Hr.
Qed.

Lemma ReadFull_Conn_only_reads {T St} {RD : Reader T} {SC : Stream St}
  (base : list event) (fuel : nat) (c c' : Conn (Logged T) St) (n : nat) res :
  ReadFull (RD := Conn_Reader fuel) fuel c n = Some (c', res) ->
  only_reads base (conn c) -> only_reads base (conn c').
Proof.
  intros E.
  apply (ReadFull_preserves (RD := Conn_Reader fuel)
           (fun a => only_reads base (conn a)) fuel c c' n res); auto.
  intros a k a' x Hr. cbn [Read Conn_Reader] in Hr.
  eapply Conn_Read_only_reads. exact Hr.
Qed.

Lemma PipeThenCloseOta_iter_only_reads {T St D}
  {RD : Reader T} {DL : Deadline T} {SC : Stream St} {CR : Crypto}
  {WD : Writer D}
  (base : list event) (fuel : nat) (rt : Z)
  (src src' : Conn (Logged T) St) (dst dst' : D)
  (buf buf' : list byte) (ex : option OtaExit) :
  PipeThenCloseOta_iter fuel rt (src, dst, buf) = Some (src', dst', buf', ex) ->
  only_reads base (conn src) -> only_reads base (conn src').
Proof.
  unfold PipeThenCloseOta_iter. intros E H.
  assert (H0 : only_reads base (conn (SetReadTimeout rt src))).
  { unfold SetReadTimeout. destruct (rt =? 0); [exact H|].
    cbn [SetReadDeadline Conn_Deadline conn set_conn Logged_Deadline].
    apply (only_reads_step base (conn src) _ [EvSetReadDeadline]);
      [reflexivity | reflexivity | reflexivity | exact H]. }
  set (src0 := SetReadTimeout rt src) in *. clearbody src0. clear H.
  destruct (length buf <? dataLenLen + hmacSha1Len)%nat; [inv E; exact H0|].
  apply bind_Some in E. destruct E as [[src1 [got err]] [H1 E]].
  apply (ReadFull_Conn_only_reads base) in H1; [|exact H0].
  destruct err as [e|]; [inv E; exact H1|].
  match type of E with
  | (if ?c then _ else _) = _ => destruct c
  end; [inv E; exact H1|].
  apply bind_Some in E. destruct E as [[src2 [got2 err2]] [H2 E]].
  apply (ReadFull_Conn_only_reads base) in H2; [|exact H1].
  destruct err2 as [e|]; [inv E; exact H2|].
  cbn [Conn_GetAndIncrChunkId] in E.
  match type of E with
  | (if ?c then _ else _) = _ => destruct c
  end; [inv E; exact H2|].
  apply bind_Some in E. destruct E as [[d1 [n we]] [_ E]].
  destruct we; inv E; exact H2.
Qed.

Lemma PipeThenCloseOta_loop_calls {T St D}
  {RD : Reader T} {DL : Deadline T} {SC : Stream St} {CR : Crypto}
  {WD : Writer D} (fuel : nat) (rt : Z) (base : list event) (turns : nat) :
  forall (src src' : Conn (Logged T) St) (dst dst' : Logged D)
         (buf buf' : list byte) (ex : OtaExit),
    PipeThenCloseOta_loop turns fuel rt (src, dst, buf)
    = Some (src', dst', buf', ex) ->
    only_reads base (conn src) ->
    only_reads base (conn src')
    /\ exists oks final,
        calls dst' = calls dst ++ oks ++ final
        /\ Forall is_ok_write oks
        /\ ((final = [] /\ forall e, ex <> WriteError e)
            \/ exists p n e, final = [EvWrite p n (Some e)]
                             /\ ex = WriteError e).
Proof.
  induction turns as [|turns IH]; intros src src' dst dst' buf buf' ex E H;
    [discriminate|].
  cbn [PipeThenCloseOta_loop] in E.
  apply bind_Some in E. destruct E as [[[[s1 d1] b1] ex1] [Hit E]].
  pose proof (PipeThenCloseOta_iter_only_reads base _ _ _ _ _ _ _ _ _ Hit H)
    as H1.
  apply PipeThenCloseOta_iter_spec in Hit.
  assert (Hd : (d1 = dst /\ forall e, ex1 <> Some (WriteError e)
                /\ ex1 <> None)
               \/ exists p n werr,
                   calls d1 = calls dst ++ [EvWrite p n werr]
                   /\ ex1 = option_map WriteError werr).
  { destruct Hit as [(-> & _ & Hno)
                    | (s2 & s3 & hdr & data & _ & _ & _ & _ & Hv)].
    - left. split; [reflexivity|]. intros e.
      destruct ex1 as [[]|]; cbn in Hno; try contradiction;
        split; discriminate.
    - destruct Hv as [(_ & -> & ->) | (_ & n & werr & Hw & ->)].
      + left. split; [reflexivity|]. intros e. split; discriminate.
      + right. apply Logged_Write_calls in Hw. eauto. }
  destruct Hd as [[-> Hex] | (p & n & werr & Hd1 & ->)].
  - destruct ex1 as [x|]; [|destruct (Hex EOF) as [_ Hn]; congruence].
    inv E. split; [exact H1|]. exists [], []. rewrite !app_nil_r.
    split; [reflexivity|]. split; [constructor|].
    left. split; [reflexivity|]. intros e He. subst.
    destruct (Hex e) as [Hn _]. congruence.
  - destruct werr as [e|]; cbn [option_map] in E.
    + inv E. split; [exact H1|]. exists [], [EvWrite p n (Some e)].
      split; [exact Hd1|]. split; [constructor|]. right. eauto.
    + destruct (IH _ _ _ _ _ _ _ E H1)
        as (Hs & oks & final & Hd2 & Hoks & Hfin).
      split; [exact Hs|]. exists (EvWrite p n None :: oks), final.
      split; [rewrite Hd2, Hd1, <- app_assoc; reflexivity|].
      split; [constructor; [exact I | exact Hoks] | exact Hfin].
Qed.

(** X10.  The calls of the OTA relay.  However [PipeThenCloseOta] leaves
    its loop (end of file, a read error, a tag that does not match, a
    failed write, the panic of the slice expression), it has made on the
    transport of [src] only reads and deadlines, never a write or a close;
    and on [dst] writes that all succeeded, then at most one write that
    failed, then the deferred [Close], once and last.  The loop was left by
    a write error exactly when that failed write is there. *)
Theorem PipeThenCloseOta_call_discipline {T St D}
  {RD : Reader T} {DL : Deadline T} {SC : Stream St} {CR : Crypto}
  {WD : Writer D} {CD : Closer D}
  (fuel : nat) (rt : Z) (lb lb' : LeakyBuf)
  (src src' : Conn (Logged T) St) (dst dst' : Logged D) (ex : OtaExit) :
  PipeThenCloseOta fuel rt lb src dst = Some (lb', src', dst', ex) ->
  only_reads (calls (conn src)) (conn src')
  /\ exists oks final,
      calls dst' = calls dst ++ oks ++ final ++ [EvClose]
      /\ Forall is_ok_write oks
      /\ ((final = [] /\ forall e, ex <> WriteError e)
          \/ exists p n e, final = [EvWrite p n (Some e)]
                           /\ ex = WriteError e).
Proof.
  intros E. unfold PipeThenCloseOta in E.
  destruct (LeakyBuf_Get lb) as [buf lb1].
  apply bind_Some in E. destruct E as [[[[s1 d1] b1] ex1] [Hl E]].
  apply (PipeThenCloseOta_loop_calls fuel rt (calls (conn src))) in Hl;
    [|apply only_reads_refl].
  destruct Hl as (Hs & oks & final & Hd & Hoks & Hfin).
  cbn [Close Logged_Closer] in E.
  destruct (Close (inner d1)) as [t e]. inv E.
  split; [exact Hs|]. exists oks, final. cbn [calls].
  rewrite Hd, <- !app_assoc. repeat split; assumption.
Qed.

Lemma PipeThenCloseOta_turns_buf_length {T St D}
  {RD : Reader T} {DL : Deadline T} {SC : Stream St} {CR : Crypto}
  {WD : Writer D} (fuel : nat) (rt : Z) (n : nat) :
  forall (src src' : Conn T St) (dst dst' : D) (buf buf' : list byte),
    PipeThenCloseOta_turns n fuel rt (src, dst, buf) = Some (src', dst', buf') ->
    length buf' = length buf.
Proof.
  induction n as [|n IH]; intros src src' dst dst' buf buf' E.
  - inv E. reflexivity.
  - cbn [PipeThenCloseOta_turns] in E.
    apply bind_Some in E. destruct E as [[[[s1 d1] b1] ex1] [Hit E]].
    destruct ex1; [discriminate|].
    apply PipeThenCloseOta_iter_buf_length in Hit.
    apply IH in E. congruence.
Qed.

(** X11.  A chunk header that declares more than 65523 bytes stops the
    relay with a panic.  After [n] chunks were forwarded, when the next
    header declares a length from 65524 to 65535, [idxData0+dataLen] wraps
    around in 16 bits and the slice expression [buf[idxData0:...]] panics:
    no byte of data is read, the chunk counter does not move, nothing is
    checked or written, and [dst] is what it was after the [n] chunks,
    closed by the deferred [Close]. *)
Theorem PipeThenCloseOta_long_chunk_panics {T St D}
  {RD : Reader T} {DL : Deadline T} {SC : Stream St} {CR : Crypto}
  {WD : Writer D} {CD : Closer D}
  (fuel : nat) (rt : Z) (lb : LeakyBuf) (n : nat)
  (src src_n src1 : Conn T St) (dst dst_n : D) (buf_n hdr : list byte) :
  (n < fuel)%nat ->
  (12 <= length (fst (LeakyBuf_Get lb)))%nat ->
  PipeThenCloseOta_turns n fuel rt (src, dst, fst (LeakyBuf_Get lb))
  = Some (src_n, dst_n, buf_n) ->
  ReadFull (RD := Conn_Reader fuel) fuel (SetReadTimeout rt src_n) 12
  = Some (src1, (hdr, None)) ->
  65524 <= BigEndian_Uint16 (slice hdr 0 2) <= 65535 ->
  chunkId src1 = chunkId src_n
  /\ exists lb',
      PipeThenCloseOta fuel rt lb src dst
      = Some (lb', src1, fst (Close dst_n), SliceBounds).
Proof.
  intros Hn Hbuf Ht Hrf Hlen.
  split.
  { rewrite (ReadFull_Conn_chunkId _ _ _ _ _ Hrf).
    apply chunkId_SetReadTimeout. }
  pose proof (PipeThenCloseOta_turns_buf_length _ _ _ _ _ _ _ _ _ Ht) as Hlb.
  assert (Hbn : (12 <= length buf_n)%nat) by lia.
  pose proof (PipeThenCloseOta_iter_long_chunk fuel rt src_n src1 dst_n
                buf_n hdr Hbn Hrf Hlen) as Hit.
  pose proof (PipeThenCloseOta_loop_of_turns fuel rt n fuel _ _ _ _
                Ht Hit Hn) as Hl.
  unfold PipeThenCloseOta.
  destruct (LeakyBuf_Get lb) as [buf lb1]. cbn [fst] in Hl.
  rewrite Hl. cbn [bind].
  destruct (Close dst_n) as [d e]. cbn [fst]. eexists. reflexivity.
Qed.

Lemma PipeThenCloseOta_long_chunk_panics_witness :
  exists lb' src1,
    PipeThenCloseOta (CR := toy_crypto false) 1 0 small_pool
      long_chunk_peer (wire [])
    = Some (lb', src1, fst (Close (wire [])), SliceBounds)
    /\ chunkId src1 = 0.
Proof.
  destruct (ReadFull (RD := Conn_Reader 1) 1
              (SetReadTimeout 0 long_chunk_peer) 12)
    as [[src1 [hdr err]]|] eqn:E; [|vm_compute in E; discriminate].
  assert (H : err = None /\ BigEndian_Uint16 (slice hdr 0 2) = 65535)
    by (vm_compute in E; injection E as _ <- <-; split; reflexivity).
  destruct H as [-> Hlen].
  destruct (PipeThenCloseOta_long_chunk_panics (CR := toy_crypto false)
              1 0 small_pool 0 long_chunk_peer long_chunk_peer src1
              (wire []) (wire []) (fst (LeakyBuf_Get small_pool)) hdr)
    as (Hid & lb' & Hrun);
    [lia | cbn; lia | reflexivity | exact E | rewrite Hlen; lia |].
  exists lb', src1. split; [exact Hrun | exact Hid].
Defined.

Lemma PipeThenCloseOta_call_discipline_witness :
  exists lb' src' dst' ex oks final,
    PipeThenCloseOta (CR := toy_crypto false) 3 0 small_pool
      (set_conn ota_logged_writer
         {| inner := wire (map (fun s => (s, None)) ota_chunks);
            calls := [] |})
      relay_dst
    = Some (lb', src', dst', ex)
    /\ only_reads [] (conn src')
    /\ calls dst' = oks ++ final ++ [EvClose]
    /\ Forall is_ok_write oks.
Proof.
  destruct (PipeThenCloseOta (CR := toy_crypto false) 3 0 small_pool
              (set_conn ota_logged_writer
                 {| inner := wire (map (fun s => (s, None)) ota_chunks);
                    calls := [] |})
              relay_dst)
    as [[[[lb' src'] dst'] ex]|] eqn:E; [|vm_compute in E; discriminate].
  destruct (PipeThenCloseOta_call_discipline _ _ _ _ _ _ _ _ _ E)
    as (Hs & oks & final & Hd & Hoks & _).
  exists lb', src', dst', ex, oks, final.
  split; [reflexivity|]. split; [exact Hs|]. split; [exact Hd | exact Hoks].
Defined.

(* ================================================================= *)
(** ** The handshake of [Dial] reaches the server *)

Lemma RawAddr_Ok_inv (addr : gostring) (rec : list byte) :
  RawAddr addr = Ok rec ->
  exists host port,
    rec = [3; to_byte (Z.of_nat (length host))] ++ host
            ++ BigEndian_PutUint16 (to_uint16 port).
Proof.
  intros E.
  destruct (GoStd.SplitHostPort addr) as [[host portStr]|e] eqn:Hs.
  2:{ unfold RawAddr in E. rewrite Hs in E. discriminate. }
  destruct (GoStd.Atoi portStr) as [port|e] eqn:Ha.
  2:{ unfold RawAddr in E. rewrite Hs, Ha in E. discriminate. }
  rewrite (RawAddr_eq addr host portStr port Hs Ha) in E.
  inv E. exists host, port. reflexivity.
Qed.

Lemma Wire_ReadFull_segment (fuel : nat) (w : Wire) (v : list byte)
  (rest : list (list byte * option error)) :
  incoming w = (v, None) :: rest ->
  (0 < fuel)%nat -> v <> [] ->
  exists w',
    ReadFull fuel w (length v) = Some (w', (v, None))
    /\ incoming w' = rest.
Proof.
  intros Hi Hf Hv. eexists. split.
  - apply ReadFull_one_read; [exact Hf | | | reflexivity].
    + destruct v; [congruence | cbn [length]; lia].
    + cbn [Read Wire_Reader]. unfold Wire_Read. rewrite Hi.
      rewrite Nat.leb_refl. reflexivity.
  - reflexivity.
Qed.

(** The first [Read] of the peer, once the IV [v] was read in full and the
    ciphertext of [m] is the next segment. *)
Lemma Conn_Read_first {St} {SC : Stream St}
  (fuel k : nat) (cr : Conn Wire St) (w1 : Wire) (v m : list byte)
  (rest : list (list byte * option error)) (se sd : St) :
  dec (cipher cr) = None ->
  iv (cipher cr) = [] ->
  ReadFull fuel (conn cr) (ivLen (info (cipher cr))) = Some (w1, (v, None)) ->
  incoming w1 = (snd (XORKeyStream se m), None) :: rest ->
  newStream (info (cipher cr)) (key (cipher cr)) v Decrypt = Ok sd ->
  inverse_streams se sd ->
  m <> [] -> (length m <= k)%nat ->
  exists cr',
    Conn_Read fuel cr k = Some (cr', (m, None))
    /\ incoming (conn cr') = rest
    /\ iv (cipher cr') = v.
Proof.
  intros Hd Hivr Hrf Hi1 Hnd Hinv Hm Hk.
  pose proof (XORKeyStream_length se m) as Hlct.
  pose proof (Hinv m) as Hback.
  set (ct := snd (XORKeyStream se m)) in *.
  assert (Hct : ct <> []).
  { intros H0. rewrite H0 in Hlct. destruct m; [congruence | discriminate]. }
  assert (Hk0 : (0 < k)%nat).
  { destruct m; [congruence|]. cbn [length] in Hk. lia. }
  rewrite (Conn_Read_after_handshake fuel k cr w1 v sd Hd Hrf Hnd).
  rewrite Hivr. cbn [length Nat.eqb].
  set (c1 := set_cipher (set_conn cr w1)
               (set_iv (set_dec (cipher cr) (Some sd)) v)).
  destruct (Conn_Read_Wire_segment fuel k c1 sd ct rest
              eq_refl Hi1 Hk0 Hct) as (c' & Hrd & Hc' & _ & Hinc).
  rewrite firstn_all2 in Hrd, Hc' by lia.
  rewrite Hback in Hrd.
  exists c'. split; [exact Hrd|]. split.
  - rewrite Hinc. destruct (Nat.leb_spec (length ct) k); [reflexivity|lia].
  - rewrite Hc'. reflexivity.
Qed.

(** What a successful [DialWithRawAddr] on a fresh session has handed to
    the transport. *)
Lemma DialWithRawAddr_sent {T St}
  {NT : Net (Logged T)} {WR : Writer T} {CL : Closer T}
  {SC : Stream St} {CR : Crypto}
  (lb : LeakyBuf) (rawaddr : list byte) (server : gostring)
  (ci : Cipher St) (d : Dialled (Logged T) St) (c : Conn (Logged T) St)
  (t0 : Logged T) :
  net_Dial server = Ok t0 ->
  enc ci = None ->
  DialWithRawAddr lb rawaddr server ci = Some d ->
  d_ret d = Returned (Some c) None ->
  exists v se,
    length v = ivLen (info ci)
    /\ newStream (info ci) (key ci) v Encrypt = Ok se
    /\ iv (cipher c) = v
    /\ if ota ci then
         exists b0 rest,
           rawaddr = b0 :: rest
           /\ written (calls (conn c))
              = written (calls t0)
                  ++ [v; snd (XORKeyStream se
                                (otaConnectAuth v (key ci)
                                   (Z.lor b0 OneTimeAuthMask :: rest)))]
       else
         written (calls (conn c))
         = written (calls t0) ++ [v ++ snd (XORKeyStream se rawaddr)].
Proof.
  intros Hnet He E Hret. unfold DialWithRawAddr in E. rewrite Hnet in E.
  unfold NewConn in E.
  destruct (LeakyBuf_Get lb) as [rb lb1].
  destruct (LeakyBuf_Get lb1) as [wb lb2].
  cbn [cipher] in E.
  destruct (ota ci) eqn:Hota.
  - rewrite He in E. unfold initEncrypt in E. rewrite He in E.
    destruct (rand_Read (ivLen (info ci))) as [v|e] eqn:Hr.
    2:{ cbn in E. inv E. cbn in Hret. discriminate. }
    destruct (newStream (info ci) (key ci) v Encrypt) as [se|e] eqn:Hns.
    2:{ cbn in E. inv E. cbn in Hret. discriminate. }
    cbn [set_cipher cipher conn iv set_enc set_iv key] in E.
    apply bind_Some in E. destruct E as [[[[c1 buf1] msg] stop] [Hpre E]].
    apply bind_Some in Hpre. destruct Hpre as [[t1 [n1 e1]] [Hw1 Hpre]].
    apply Logged_Write_calls in Hw1.
    destruct rawaddr as [|b0 rest].
    { inv Hpre. inv E. cbn in Hret. discriminate. }
    inv Hpre. unfold store in E. cbn [firstn skipn app] in E.
    apply bind_Some in E. destruct E as [[c2 [n2 err2]] [Hw2 E]].
    apply (Conn_write_established _ _ _ _ _ se) in Hw2; [|reflexivity].
    destruct Hw2 as (Hw2 & Hc2 & _). cbn [conn set_conn] in Hw2.
    apply Logged_Write_calls in Hw2.
    destruct err2 as [e|].
    { destruct (Conn_Close lb2 c2) as [[c3 lb3] e3]. inv E.
      cbn in Hret. discriminate. }
    inv E. cbn in Hret. inv Hret.
    exists v, se. split; [eapply rand_Read_length; exact Hr|].
    split; [exact Hns|]. split; [rewrite Hc2; reflexivity|].
    exists b0, rest. split; [reflexivity|].
    rewrite Hw2, Hw1, !written_app, <- app_assoc. reflexivity.
  - cbn [bind] in E.
    apply bind_Some in E. destruct E as [[c2 [n2 err2]] [Hw2 E]].
    destruct err2 as [e|].
    { destruct (Conn_Close lb2 c2) as [[c3 lb3] e3]. inv E.
      cbn in Hret. discriminate. }
    inv E. cbn in Hret. inv Hret.
    apply Conn_write_fresh in Hw2; [|exact He].
    destruct Hw2 as [[_ Hn] | (v & se & Hlv & Hns & Hw & Hci & _)];
      [congruence|].
    cbn [conn cipher info key] in *.
    apply Logged_Write_calls in Hw.
    exists v, se. split; [exact Hlv|]. split; [exact Hns|].
    split; [rewrite Hci; reflexivity|].
    rewrite Hw, written_app. reflexivity.
Qed.

(** X12.  The handshake of [Dial] reaches the server.  [Dial], on a fresh
    session and a transport that has seen no call, returns a connection and
    no error.  When what it handed to the transport arrives on a fresh
    connection of the server, with the same cipher, the first [Read] of the
    server into a buffer that is large enough returns the address record
    that [RawAddr] builds for [addr]; under OTA, for a cipher whose IV is
    not empty, it returns this record with the flag [0x10] set in the
    address type, followed by the 10-byte tag of the handshake.  The server
    has then read everything the client sent and holds the IV of the
    client.  The condition on the IV is needed under OTA only, where the IV
    goes out in a call of its own: a call that hands over no byte would
    arrive as a segment without bytes, and the first [Read] would return
    that. *)
Theorem Dial_handshake_arrives {T St}
  {NT : Net (Logged T)} {WR : Writer T} {CL : Closer T}
  {SC : Stream St} {CR : Crypto}
  (lb : LeakyBuf) (addr server : gostring) (ci : Cipher St)
  (d : Dialled (Logged T) St) (c : Conn (Logged T) St) (t0 : Logged T)
  (cr : Conn Wire St) :
  (forall v se,
      newStream (info ci) (key ci) v Encrypt = Ok se ->
      exists sd,
        newStream (info (cipher cr)) (key (cipher cr)) v Decrypt = Ok sd
        /\ inverse_streams se sd) ->
  ivLen (info (cipher cr)) = ivLen (info ci) ->
  (ota ci = true -> (0 < ivLen (info ci))%nat) ->
  enc ci = None ->
  dec (cipher cr) = None ->
  iv (cipher cr) = [] ->
  net_Dial server = Ok t0 ->
  calls t0 = [] ->
  Dial lb addr server ci = Some d ->
  d_ret d = Returned (Some c) None ->
  incoming (conn cr) = map (fun p => (p, None)) (written (calls (conn c))) ->
  exists rec,
    RawAddr addr = Ok rec
    /\ forall fuel k,
        (0 < fuel)%nat ->
        (length (handshake_msg (ota ci) (iv (cipher c)) (key ci) rec) <= k)%nat ->
        exists cr',
          Conn_Read fuel cr k
          = Some (cr', (handshake_msg (ota ci) (iv (cipher c)) (key ci) rec,
                        None))
          /\ incoming (conn cr') = []
          /\ iv (cipher cr') = iv (cipher c).
Proof.
  intros Hpair Hlen Hpos He Hd Hivr Hnet Hc0 E Hret Hi.
  unfold Dial in E.
  destruct (RawAddr addr) as [rec|e] eqn:Hra.
  2:{ inv E. cbn in Hret. discriminate. }
  exists rec. split; [reflexivity|].
  destruct (RawAddr_Ok_inv addr rec Hra) as (host & port & Hrec).
  destruct (DialWithRawAddr_sent lb rec server ci d c t0 Hnet He E Hret)
    as (v & se & Hlv & Hns & Hiv & Hsent).
  destruct (Hpair v se Hns) as (sd & Hnd & Hinv).
  rewrite Hc0 in Hsent. cbn [written app] in Hsent.
  intros fuel k Hf Hk. rewrite Hiv in *. unfold handshake_msg in *.
  destruct (ota ci) eqn:Hota.
  - specialize (Hpos eq_refl).
    destruct Hsent as (b0 & rest & Hr0 & Hsent).
    rewrite Hsent in Hi. cbn [map] in Hi.
    assert (Hm : Z.lor (nth 0 rec 0) OneTimeAuthMask :: tl rec
                 = Z.lor b0 OneTimeAuthMask :: rest)
      by (rewrite Hr0; reflexivity).
    rewrite Hm in *.
    assert (Hv : v <> []).
    { intros H0. rewrite H0 in Hlv. cbn [length] in Hlv. lia. }
    destruct (Wire_ReadFull_segment fuel (conn cr) v _ Hi Hf Hv)
      as (w1 & Hrf & Hi1).
    rewrite Hlv, <- Hlen in Hrf.
    apply (Conn_Read_first fuel k cr w1 v _ [] se sd); try assumption.
    unfold otaConnectAuth. discriminate.
  - rewrite Hsent in Hi. cbn [map] in Hi.
    assert (Hm : rec <> []) by (rewrite Hrec; discriminate).
    pose proof (XORKeyStream_length se rec) as Hlct.
    assert (Hct : snd (XORKeyStream se rec) <> []).
    { intros H0. rewrite H0 in Hlct. destruct rec; [congruence | discriminate]. }
    destruct (Wire_ReadFull_prefix fuel (conn cr) v _ [] Hi Hf Hct)
      as (w1 & Hrf & Hi1).
    rewrite Hlv, <- Hlen in Hrf.
    apply (Conn_Read_first fuel k cr w1 v _ [] se sd); assumption.
Qed.

Lemma Dial_handshake_arrives_witness :
  exists cr',
    Conn_Read 1 (peer_conn true a80_handshake) 15
    = Some (cr', ([19; 1; 97; 0; 80;
                   123; 123; 123; 123; 123; 123; 123; 123; 123; 123], None))
    /\ incoming (conn cr') = []
    /\ iv (cipher cr') = [7; 7; 7; 7].
Proof.
  destruct (Dial (NT := logged_dials (Ok relay_dst)) (CR := toy_crypto false)
              small_pool (str "a:80") (str "server:8388")
              (counter_cipher 4 true)) as [d|] eqn:E;
    [|vm_compute in E; discriminate].
  assert (H : exists c,
             d_ret d = Returned (Some c) None
             /\ written (calls (conn c)) = a80_handshake
             /\ iv (cipher c) = [7; 7; 7; 7]).
  { vm_compute in E. injection E as <-. eexists. repeat split. }
  destruct H as (c & Hret & Hw & Hiv).
  destruct (Dial_handshake_arrives
              (NT := logged_dials (Ok relay_dst)) (CR := toy_crypto false)
              small_pool (str "a:80") (str "server:8388")
              (counter_cipher 4 true) d c relay_dst
              (peer_conn true a80_handshake))
    as (rec & Hra & Hread);
    try reflexivity; try assumption.
  - intros v se Hns. exists se. split; [exact Hns | apply count_xor_inverse].
  - intros _. cbn. lia.
  - rewrite Hw. reflexivity.
  - assert (Hrec : rec = [3; 1; 97; 0; 80])
      by (vm_compute in Hra; injection Hra as <-; reflexivity).
    subst rec. rewrite Hiv in Hread.
    destruct (Hread 1%nat 15%nat ltac:(lia) ltac:(cbn; lia))
      as (cr' & Hr & Hin & Hiv').
    exists cr'. split; [exact Hr|]. split; [exact Hin | exact Hiv'].
Defined.

(* ================================================================= *)
(** ** [DialWithRawAddr] and the transport it opened *)

Lemma Conn_write_calls {T St}
  {WR : Writer T} {SC : Stream St} {CR : Crypto}
  (c c' : Conn (Logged T) St) (b : list byte) r :
  Conn_write c b = Some (c', r) ->
  exists ws, calls (conn c') = calls (conn c) ++ ws /\ Forall is_write ws.
Proof.
  destruct r as [n err]. intros E.
  destruct (enc (cipher c)) as [se|] eqn:He.
  - destruct (Conn_write_established _ _ _ _ _ _ He E) as (Hw & _).
    apply Logged_Write_calls in Hw. eexists. split; [exact Hw|].
    repeat constructor.
  - destruct (Conn_write_fresh _ _ _ _ _ He E)
      as [[Hc _] | (v & se & _ & _ & Hw & _)].
    + exists []. rewrite Hc, app_nil_r. split; [reflexivity | constructor].
    + apply Logged_Write_calls in Hw. eexists. split; [exact Hw|].
      repeat constructor.
Qed.

(** X13.  [DialWithRawAddr] and the transport it opened.  When
    [net.Dial] fails, its error is returned and there is no transport.
    When it succeeds, the function makes on the transport only writes and
    at most one [Close]: it closes the transport, as its last call, exactly
    when it returns a nil connection; whenever it returns a connection
    (also the one it returns together with the error of [initEncrypt]), or
    panics on an empty [rawaddr], the transport has not been closed, and
    the connection returned is the one on this transport. *)
Theorem DialWithRawAddr_closes_or_returns {T St}
  {NT : Net (Logged T)} {WR : Writer T} {CL : Closer T}
  {SC : Stream St} {CR : Crypto}
  (lb : LeakyBuf) (rawaddr : list byte) (server : gostring)
  (ci : Cipher St) (d : Dialled (Logged T) St) :
  DialWithRawAddr lb rawaddr server ci = Some d ->
  match net_Dial server with
  | Err e => d_ret d = Returned None (Some e) /\ d_transport d = None
  | Ok t0 =>
      exists t ws,
        d_transport d = Some t
        /\ Forall is_write ws
        /\ match d_ret d with
           | Returned (Some c) _ => conn c = t /\ calls t = calls t0 ++ ws
           | Returned None (Some _) => calls t = calls t0 ++ ws ++ [EvClose]
           | Returned None None => False
           | Panicked => calls t = calls t0 ++ ws
           end
  end.
Proof.
  unfold DialWithRawAddr. intros E.
  destruct (net_Dial server) as [t0|e]; [|inv E; split; reflexivity].
  unfold NewConn in E.
  destruct (LeakyBuf_Get lb) as [rb lb1].
  destruct (LeakyBuf_Get lb1) as [wb lb2].
  apply bind_Some in E. destruct E as [[[[c1 buf1] msg] stop] [Hpre E]].
  assert (H1 : exists ws1,
             calls (conn c1) = calls t0 ++ ws1
             /\ Forall is_write ws1
             /\ match stop with
                | Some (Returned (Some c) _) => c = c1
                | Some Panicked | None => True
                | Some (Returned None _) => False
                end).
  { cbn [cipher] in Hpre. destruct (ota ci).
    - destruct (match enc ci with
                | Some _ => _
                | None => _
                end) as [ci1 [ivo [e|]]].
      + inv Hpre. exists []. rewrite app_nil_r.
        split; [reflexivity|]. split; [constructor | reflexivity].
      + apply bind_Some in Hpre. destruct Hpre as [[t1 [n1 e1]] [Hw1 Hpre]].
        cbn [conn set_cipher] in Hw1. apply Logged_Write_calls in Hw1.
        destruct rawaddr; inv Hpre; eexists; (split; [exact Hw1|]);
          (split; [repeat constructor | exact I]).
    - inv Hpre. exists []. rewrite app_nil_r.
      split; [reflexivity|]. split; [constructor | exact I]. }
  destruct H1 as (ws1 & Hc1 & Hws1 & Hstop).
  destruct stop as [r|].
  - inv E. cbn [d_transport d_ret]. exists (conn c1), ws1.
    split; [reflexivity|]. split; [exact Hws1|].
    destruct r as [[c|] err|]; [subst; split; [reflexivity | exact Hc1]
                               | contradiction | exact Hc1].
  - apply bind_Some in E. destruct E as [[c2 [n2 err2]] [Hw2 E]].
    apply Conn_write_calls in Hw2. destruct Hw2 as (ws2 & Hc2 & Hws2).
    assert (Hws : Forall is_write (ws1 ++ ws2))
      by (apply Forall_app; split; assumption).
    destruct err2 as [e|].
    + unfold Conn_Close in E. cbn [Close Logged_Closer] in E.
      destruct (Close (inner (conn c2))) as [t3 e3]. inv E.
      cbn [d_transport d_ret conn set_conn calls].
      eexists. exists (ws1 ++ ws2). split; [reflexivity|].
      split; [exact Hws|]. cbn [calls].
      rewrite Hc2, Hc1, <- !app_assoc. reflexivity.
    + inv E. cbn [d_transport d_ret].
      exists (conn c2), (ws1 ++ ws2). split; [reflexivity|].
      split; [exact Hws|]. split; [reflexivity|].
      rewrite Hc2, Hc1, <- app_assoc. reflexivity.
Qed.

Lemma DialWithRawAddr_closes_or_returns_witness :
  exists d t ws,
    DialWithRawAddr (NT := logged_dials (Ok failing_transport))
      (CR := toy_crypto false) small_pool a80 (str "server:8388")
      (counter_cipher 4 false) = Some d
    /\ d_ret d = Returned None (Some (ErrIO 2))
    /\ d_transport d = Some t
    /\ Forall is_write ws
    /\ calls t = ws ++ [EvClose].
Proof.
  destruct (DialWithRawAddr (NT := logged_dials (Ok failing_transport))
              (CR := toy_crypto false) small_pool a80 (str "server:8388")
              (counter_cipher 4 false)) as [d|] eqn:E;
    [|vm_compute in E; discriminate].
  pose proof (DialWithRawAddr_closes_or_returns
                (NT := logged_dials (Ok failing_transport))
                (CR := toy_crypto false) small_pool a80 (str "server:8388")
                (counter_cipher 4 false) d E) as H.
  cbn [net_Dial logged_dials] in H.
  destruct H as (t & ws & Ht & Hws & Hret).
  assert (Hr : d_ret d = Returned None (Some (ErrIO 2)))
    by (vm_compute in E; injection E as <-; reflexivity).
  rewrite Hr in Hret. cbn [calls failing_transport app] in Hret.
  exists d, t, ws. repeat split; assumption.
Defined.

(* ================================================================= *)
(** ** [Write] with OTA before the encrypt stream exists *)

Lemma ReadFull_same_first_read {R} {RD : Reader R} (fuel : nat) (r r1 : R)
  (n : nat) :
  (0 < n)%nat -> Read r n = Read r1 n ->
  ReadFull fuel r n = ReadFull fuel r1 n.
Proof.
  intros Hn H. unfold ReadFull.
  destruct fuel as [|fuel]; cbn [ReadAtLeast_loop length];
    destruct (Nat.ltb_spec 0 n) as [_|Hx]; try lia; [reflexivity|].
  rewrite Nat.sub_0_r, H. reflexivity.
Qed.

(** X14.  [Write] computes the tag of the chunk before [write] makes the
    encrypt stream.  On a connection with OTA that has no encrypt stream
    yet, [Write] of [b] tags the chunk under the IV the connection had
    before the call, and only then generates the IV that it sends in front
    of the chunk.  The OTA relay that receives this payload on a fresh
    connection reads the IV in front, reads the chunk, computes the tag
    under the IV it has read, and, the two tags being different, leaves the
    loop with the mismatch: nothing is forwarded and [dst] is closed. *)
Theorem Conn_Write_ota_before_initEncrypt {T St D}
  {WR : Writer T} {SC : Stream St} {CR : Crypto}
  {WD : Writer D} {CD : Closer D}
  (fuel : nat) (rt : Z) (lb : LeakyBuf)
  (cw cw' : Conn (Logged T) St) (cr : Conn Wire St) (dst : D)
  (b p : list byte) (n : Z) (err : option error) :
  streaming St ->
  (forall v se,
      newStream (info (cipher cw)) (key (cipher cw)) v Encrypt = Ok se ->
      exists sd,
        newStream (info (cipher cr)) (key (cipher cr)) v Decrypt = Ok sd
        /\ inverse_streams se sd) ->
  ivLen (info (cipher cr)) = ivLen (info (cipher cw)) ->
  ota (cipher cw) = true ->
  enc (cipher cw) = None ->
  dec (cipher cr) = None ->
  iv (cipher cr) = [] ->
  chunkId cr = chunkId cw ->
  Z.of_nat (length b) <= 65523 ->
  Conn_Write cw b = Some (cw', (n, err)) ->
  written (calls (conn cw')) = written (calls (conn cw)) ++ [p] ->
  incoming (conn cr) = [(p, None)] ->
  (12 <= length (fst (LeakyBuf_Get lb)))%nat ->
  (1 < fuel)%nat ->
  HmacSha1 (iv (cipher cw) ++ BigEndian_PutUint32 (chunkId cw)) b
  <> HmacSha1 (iv (cipher cw') ++ BigEndian_PutUint32 (chunkId cw)) b ->
  exists lb' cr',
    PipeThenCloseOta fuel rt lb cr dst
    = Some (lb', cr', fst (Close dst),
            HmacMismatch (chunkId cw)
              (HmacSha1 (iv (cipher cw) ++ BigEndian_PutUint32 (chunkId cw))
                 b)
              (HmacSha1 (iv (cipher cw') ++ BigEndian_PutUint32 (chunkId cw))
                 b)).
Proof.
  intros Hstr Hpair Hlen Hota He Hd Hivr Hid Hb E Hwr Hi Hbuf Hf Hne.
  unfold Conn_Write in E. rewrite Hota in E.
  cbn [Conn_GetAndIncrChunkId set_chunkId cipher] in E.
  apply Conn_write_fresh in E; [|exact He].
  destruct E as [[Hc _] | (v & se & Hlv & Hns & Hw & Hci & _)].
  { cbn [conn set_chunkId] in Hc. rewrite Hc in Hwr. exfalso.
    exact (written_not_grown _ _ Hwr). }
  cbn [conn cipher set_chunkId] in Hw, Hci, Hns, Hlv.
  apply Logged_Write_calls in Hw.
  rewrite Hw, written_app in Hwr. cbn [written] in Hwr.
  apply app_inv_head in Hwr. injection Hwr as <-.
  assert (Hiv' : iv (cipher cw') = v) by (rewrite Hci; reflexivity).
  rewrite Hiv' in *.
  destruct (Hpair v se Hns) as (sd & Hnd & Hinv).
  destruct (OTA_header (iv (cipher cw)) (chunkId cw) b Hb)
    as (hdr & Hfr & Hlh & Hdl & Htag).
  rewrite Hfr in *.
  pose proof (XORKeyStream_length se (hdr ++ b)) as Hlct.
  rewrite length_app, Hlh in Hlct.
  set (ct := snd (XORKeyStream se (hdr ++ b))) in *.
  assert (Hct : ct <> []).
  { intros H0. rewrite H0 in Hlct. cbn [length] in Hlct. lia. }
  destruct (Wire_SetReadTimeout rt cr) as (Hc0 & Hid0 & Hi0).
  set (cr0 := SetReadTimeout rt cr) in *.
  rewrite Hi in Hi0.
  assert (Hf1 : (0 < fuel)%nat) by lia.
  destruct (Wire_ReadFull_prefix fuel (conn cr0) v ct [] Hi0 Hf1 Hct)
    as (w1 & Hrf & Hi1).
  rewrite Hlv, <- Hlen, <- Hc0 in Hrf.
  assert (Hd0 : dec (cipher cr0) = None) by (rewrite Hc0; exact Hd).
  assert (Hnd0 : newStream (info (cipher cr0)) (key (cipher cr0)) v Decrypt
                 = Ok sd) by (rewrite Hc0; exact Hnd).
  pose proof (Conn_Read_after_handshake fuel 12 cr0 w1 v sd Hd0 Hrf Hnd0)
    as Hsame.
  rewrite Hc0, Hivr in Hsame. cbn [length Nat.eqb] in Hsame.
  set (c1 := set_cipher (set_conn cr0 w1)
               (set_iv (set_dec (cipher cr) (Some sd)) v)) in *.
  assert (Hcl1 : clean (conn c1)).
  { unfold clean. cbn [conn c1 set_cipher set_conn]. rewrite Hi1.
    repeat constructor. }
  assert (Hp1 : pending (conn c1) = ct ++ []).
  { unfold pending. cbn [conn c1 set_cipher set_conn]. rewrite Hi1.
    reflexivity. }
  assert (Hl1 : (length (incoming (conn c1)) < fuel)%nat).
  { cbn [conn c1 set_cipher set_conn]. rewrite Hi1. cbn [length]. lia. }
  destruct (OTA_chunk_reads fuel c1 hdr b [] se sd
              Hstr eq_refl Hinv Hlh Hcl1 Hp1 Hl1)
    as (src1 & src2 & HRF1 & HRF2 & _ & Hiv2 & Hid2 & _).
  assert (HRF0 : ReadFull (RD := Conn_Reader fuel) fuel cr0 12
                 = Some (src1, (hdr, None))).
  { rewrite <- HRF1.
    apply (ReadFull_same_first_read (RD := Conn_Reader fuel)); [lia|].
    exact Hsame. }
  unfold PipeThenCloseOta.
  destruct (LeakyBuf_Get lb) as [buf lb1]. cbn [fst] in Hbuf.
  destruct (PipeThenCloseOta_iter_chunk fuel rt cr src1 src2 dst buf hdr b
              Hbuf HRF0) as (buf1 & Hit).
  { rewrite Hdl. lia. }
  { rewrite Hdl, Nat2Z.id. exact HRF2. }
  cbv zeta in Hit. rewrite Htag, Hiv2 in Hit.
  cbn [c1 cipher set_cipher iv set_iv] in Hit. rewrite Hid in Hit.
  destruct (bytes_Equal _ _) eqn:Heq in Hit.
  { apply bytes_Equal_eq in Heq. contradiction. }
  destruct fuel as [|fuel]; [lia|]. cbn [PipeThenCloseOta_loop].
  rewrite Hit. cbn [bind].
  destruct (Close dst) as [d2 ce]. cbn [fst].
  do 2 eexists. reflexivity.
Qed.

Lemma Conn_Write_ota_before_initEncrypt_witness :
  exists lb' cr' expected actual,
    PipeThenCloseOta (CR := toy_crypto false) 2 0 small_pool
      (peer_conn true [ota_first_write]) (wire [])
    = Some (lb', cr', fst (Close (wire [])),
            HmacMismatch 0 expected actual)
    /\ expected <> actual.
Proof.
  destruct (Conn_Write (CR := toy_crypto false) (logged_writer true)
              [1; 2; 3]) as [[cw' [n err]]|] eqn:E;
    [|vm_compute in E; discriminate].
  assert (Hw : written (calls (conn cw'))
               = written (calls (conn (logged_writer true)))
                   ++ [ota_first_write]
               /\ iv (cipher cw') = [7; 7; 7; 7])
    by (vm_compute in E; injection E as <- _ _; split; reflexivity).
  destruct Hw as [Hw Hiv].
  assert (Hne : HmacSha1 (CR := toy_crypto false)
                  (iv (cipher (logged_writer true))
                     ++ BigEndian_PutUint32 (chunkId (logged_writer true)))
                  [1; 2; 3]
                <> HmacSha1 (CR := toy_crypto false)
                     (iv (cipher cw')
                        ++ BigEndian_PutUint32 (chunkId (logged_writer true)))
                     [1; 2; 3])
    by (rewrite Hiv; vm_compute; discriminate).
  destruct (Conn_Write_ota_before_initEncrypt (CR := toy_crypto false)
              2 0 small_pool (logged_writer true) cw'
              (peer_conn true [ota_first_write]) (wire [])
              [1; 2; 3] ota_first_write n err)
    as (lb' & cr' & Hrun); try reflexivity; try assumption; try lia.
  - exact count_xor_streaming.
  - intros v se Hns. exists se. split; [exact Hns | apply count_xor_inverse].
  - cbn. lia.
  - cbn. lia.
  - do 4 eexists. split; [exact Hrun | exact Hne].
Defined.

(* ================================================================= *)
(** ** The plain relay on an encrypted connection *)

(** What a sequence of [Write]s without OTA hands to the transport is,
    taken together, the encryption of the payloads taken together. *)
Lemma Write_seq_plain_stream {T St}
  {WR : Writer T} {SC : Stream St} {CR : Crypto} :
  streaming St ->
  forall (bs : list (list byte)) (cw cw' : Conn (Logged T) St)
         (ps : list (list byte)) (se : St),
    ota (cipher cw) = false ->
    enc (cipher cw) = Some se ->
    Write_seq (WD := Conn_Writer) cw bs = Some (cw', None) ->
    written (calls (conn cw')) = written (calls (conn cw)) ++ ps ->
    concat ps = snd (XORKeyStream se (concat bs)).
Proof.
  intros [Hnil Happ].
  induction bs as [|b bs IH]; intros cw cw' ps se Hota He Hws Hlog.
  - inv Hws. apply app_eq_self_nil in Hlog. subst ps.
    cbn [concat]. rewrite Hnil. reflexivity.
  - cbn [Write_seq Write Conn_Writer] in Hws.
    apply bind_Some in Hws. destruct Hws as [[cw1 [n err]] [Hw Hws]].
    destruct err as [x|]; [discriminate|].
    unfold Conn_Write in Hw. rewrite Hota in Hw.
    destruct (Conn_write_established _ _ _ _ _ _ He Hw) as (Hlw & Hci & _).
    apply Logged_Write_calls in Hlw.
    destruct (Write_seq_Conn_log _ _ _ _ Hws) as (ps' & Hps').
    rewrite Hps', Hlw, written_app, <- app_assoc in Hlog.
    apply app_inv_head in Hlog. cbn [written app] in Hlog. subst ps.
    cbn [concat]. rewrite Happ. cbn [snd]. f_equal.
    apply (IH cw1 cw' ps' (fst (XORKeyStream se b))).
    + rewrite Hci. exact Hota.
    + rewrite Hci. reflexivity.
    + exact Hws.
    + exact Hps'.
Qed.

Lemma PipeThenClose_loop_decrypts {St} {SC : Stream St}
  (rt : Z) (fuel0 : nat) :
  streaming St ->
  forall (fuel : nat) (cr : Conn Wire St) (dst : Wire) (buf : list byte)
         (sd : St),
    dec (cipher cr) = Some sd ->
    clean (conn cr) ->
    wresults dst = [] ->
    (0 < length buf)%nat ->
    (length (pending (conn cr)) + length (incoming (conn cr)) < fuel)%nat ->
    exists cr' dst' buf',
      PipeThenClose_loop (RD := Conn_Reader fuel0) fuel rt (cr, dst, buf)
      = Some (cr', dst', buf')
      /\ concat (sent dst')
         = concat (sent dst) ++ snd (XORKeyStream sd (pending (conn cr)))
      /\ pending (conn cr') = []
      /\ closed dst' = closed dst.
Proof.
  intros Hstr. pose proof Hstr as [Hnil Happ].
  induction fuel as [|fuel IH]; intros cr dst buf sd Hd Hcl Hw Hb Hf; [lia|].
  cbn [PipeThenClose_loop]. unfold PipeThenClose_iter.
  destruct (Wire_SetReadTimeout rt cr) as (Hc0 & Hid0 & Hi0).
  set (cr0 := SetReadTimeout rt cr) in *.
  assert (Hd0 : dec (cipher cr0) = Some sd) by (rewrite Hc0; exact Hd).
  assert (Hcl0 : clean (conn cr0)) by (unfold clean; rewrite Hi0; exact Hcl).
  assert (Hp0 : pending (conn cr0) = pending (conn cr))
    by (unfold pending; rewrite Hi0; reflexivity).
  cbn [Read Conn_Reader].
  destruct (incoming (conn cr)) as [|seg0 rest0] eqn:Hi.
  - assert (Hr : Read (conn cr0) (length buf)
                 = Some (conn cr0, ([], Some EOF))).
    { cbn [Read Wire_Reader]. unfold Wire_Read. rewrite Hi0. reflexivity. }
    destruct (Conn_Read_payload fuel0 (length buf) cr0 sd _ _ _ Hstr Hd0 Hr)
      as (c' & Hrd & _ & _ & _ & Hc').
    rewrite Hnil in Hrd. cbn [snd] in Hrd.
    rewrite Hrd. cbn [bind length Nat.ltb Nat.leb].
    do 3 eexists. split; [reflexivity|].
    assert (Hpn : pending (conn cr) = [])
      by (unfold pending; rewrite Hi; reflexivity).
    rewrite Hpn, Hnil. cbn [snd]. rewrite app_nil_r.
    repeat split. unfold pending. rewrite Hc', Hi0. reflexivity.
  - assert (Hne : incoming (conn cr0) <> [])
      by (rewrite Hi0; discriminate).
    destruct (Conn_Read_Wire_stream fuel0 (length buf) cr0 sd
                Hstr Hd0 Hcl0 Hne)
      as (c1 & j & Hr & Hjk & Hjp & Hd1 & _ & _ & Hcl1 & Hp1 & Hprog).
    rewrite Hp0 in Hr, Hd1, Hp1, Hjp. rewrite Hi0 in Hprog.
    set (pend := pending (conn cr)) in *.
    rewrite Hr. cbn [bind]. cbv zeta.
    set (x := snd (XORKeyStream sd (firstn j pend))) in *.
    assert (Hlx : length x = j).
    { unfold x. rewrite XORKeyStream_length, length_firstn. lia. }
    destruct (streaming_firstn sd pend j Hstr) as [_ Hrest].
    assert (Hall : snd (XORKeyStream sd pend)
                   = x ++ snd (XORKeyStream
                                 (fst (XORKeyStream sd (firstn j pend)))
                                 (skipn j pend))).
    { rewrite Hrest. cbn [snd].
      destruct (streaming_firstn sd pend j Hstr) as [Hx _].
      unfold x. rewrite Hx. symmetry. apply firstn_skipn. }
    assert (Hsl : slice (copy_at buf 0 x) 0 (length x) = x)
      by (apply slice_copy_at_0; lia).
    rewrite Hsl.
    set (buf1 := copy_at buf 0 x).
    assert (Hb1 : (0 < length buf1)%nat)
      by (unfold buf1; rewrite length_copy_at; lia).
    assert (Hm : (length (pending (conn c1)) + length (incoming (conn c1))
                  < fuel)%nat).
    { rewrite Hp1, length_skipn.
      destruct Hprog as [Hs | [Hk Hs]]; cbn [length] in *; lia. }
    destruct (Nat.ltb_spec 0 (length x)) as [Hpos|Hz].
    + assert (Hwr : Write dst x
                    = Some ({| incoming := incoming dst; wresults := [];
                               sent := sent dst ++ [x];
                               closed := closed dst;
                               deadlines := deadlines dst |},
                            (Z.of_nat (length x), None))).
      { cbn [Write Wire_Writer]. unfold Wire_Write. rewrite Hw.
        reflexivity. }
      rewrite Hwr. cbn [bind].
      match goal with
      | |- context [PipeThenClose_loop fuel rt (?s, ?d, ?b)] =>
          destruct (IH s d b _ Hd1 Hcl1 eq_refl Hb1 Hm)
            as (c' & d' & b' & Hl & Hc & Hpe & Hcd)
      end.
      rewrite Hl. do 3 eexists. split; [reflexivity|].
      cbn [sent closed] in Hc, Hcd.
      rewrite Hc, Hp1, concat_app, Hall. cbn [concat].
      rewrite app_nil_r, <- app_assoc. repeat split; assumption.
    + cbn [bind].
      assert (Hx0 : x = [])
        by (destruct x; [reflexivity | cbn [length] in Hz; lia]).
      match goal with
      | |- context [PipeThenClose_loop fuel rt (?s, ?d, ?b)] =>
          destruct (IH s d b _ Hd1 Hcl1 Hw Hb1 Hm)
            as (c' & d' & b' & Hl & Hc & Hpe & Hcd)
      end.
      rewrite Hl. do 3 eexists. split; [reflexivity|].
      rewrite Hc, Hp1, Hall, Hx0. cbn [app]. repeat split; assumption.
Qed.

(** X15.  The plain relay on an encrypted connection delivers the
    plaintext.  A connection without OTA and with an encrypt stream writes
    the payloads [bs] with [Write]; all writes succeed and hand [ps] to the
    transport.  The bytes of [ps] arrive, in segments of any sizes and
    without error, followed by end of file, on a connection whose decrypt
    stream is in step.  Then [PipeThenClose] from that connection to a
    [dst] on which every write succeeds, with a pooled buffer that is not
    empty and one unit of fuel per byte and per segment and one more,
    returns; the bytes written to [dst] are the bytes of [bs], in order and
    without loss; the stream is drained and [dst] is closed. *)
Theorem PipeThenClose_decrypts_stream {T St}
  {WR : Writer T} {SC : Stream St} {CR : Crypto}
  (fuel : nat) (rt : Z) (lb : LeakyBuf)
  (cw cw' : Conn (Logged T) St) (cr : Conn Wire St) (dst : Wire)
  (bs ps : list (list byte)) (se sd : St) :
  streaming St ->
  ota (cipher cw) = false ->
  enc (cipher cw) = Some se ->
  dec (cipher cr) = Some sd ->
  inverse_streams se sd ->
  Write_seq (WD := Conn_Writer) cw bs = Some (cw', None) ->
  written (calls (conn cw')) = written (calls (conn cw)) ++ ps ->
  clean (conn cr) ->
  pending (conn cr) = concat ps ->
  wresults dst = [] ->
  (0 < length (fst (LeakyBuf_Get lb)))%nat ->
  (length (concat ps) + length (incoming (conn cr)) < fuel)%nat ->
  exists lb' cr' dst',
    PipeThenClose (RD := Conn_Reader fuel) fuel rt lb cr dst
    = Some (lb', cr', dst')
    /\ concat (sent dst') = concat (sent dst) ++ concat bs
    /\ pending (conn cr') = []
    /\ closed dst' = true.
Proof.
  intros Hstr Hota He Hd Hinv Hws Hlog Hcl Hp Hw Hb Hf.
  pose proof (Write_seq_plain_stream Hstr bs cw cw' ps se Hota He Hws Hlog)
    as Hct.
  unfold PipeThenClose.
  destruct (LeakyBuf_Get lb) as [buf lb1]. cbn [fst] in Hb.
  destruct (PipeThenClose_loop_decrypts rt fuel Hstr fuel cr dst buf sd
              Hd Hcl Hw Hb) as (c' & d' & b' & Hl & Hc & Hpe & _).
  { rewrite Hp. exact Hf. }
  rewrite Hl. cbn [bind Close Wire_Closer].
  do 3 eexists. split; [reflexivity|]. cbn [sent closed].
  rewrite Hc, Hp, Hct, Hinv. repeat split. exact Hpe.
Qed.

Lemma PipeThenClose_decrypts_stream_witness :
  exists lb' cr' dst',
    PipeThenClose (RD := Conn_Reader 4) 4 0
      {| bufSize := 1; maxN := 1; freeList := [] |} peer_conn_2 (wire [])
    = Some (lb', cr', dst')
    /\ concat (sent dst') = [4; 5]
    /\ closed dst' = true.
Proof.
  destruct (Write_seq (WD := Conn_Writer (CR := toy_crypto false))
              logged_writer_2 [[4; 5]])
    as [[cw' e]|] eqn:E; [|vm_compute in E; discriminate].
  assert (Hw : e = None
               /\ written (calls (conn cw'))
                  = written (calls (conn logged_writer_2)) ++ [[14; 14]])
    by (vm_compute in E; injection E as <- <-; split; reflexivity).
  destruct Hw as (-> & Hlog).
  destruct (PipeThenClose_decrypts_stream (CR := toy_crypto false)
              4 0 {| bufSize := 1; maxN := 1; freeList := [] |}
              logged_writer_2 cw' peer_conn_2 (wire [])
              [[4; 5]] [[14; 14]] 10 10)
    as (lb' & cr' & dst' & Hrun & Hc & _ & Hcl);
    try reflexivity; try assumption.
  - exact count_xor_streaming.
  - apply count_xor_inverse.
  - repeat constructor.
  - cbn. lia.
  - cbn. lia.
  - exists lb', cr', dst'. split; [exact Hrun|].
    split; [exact Hc | exact Hcl].
Defined.
